(** * repo_cobol_parser: structure and call-graph extraction for COBOL sources

    A shallow embedding of [repo_cobol_parser.py].  Text is a list of
    characters; the embedding covers 7-bit ASCII text, where Python's
    [str.isspace], [\s], [\w], [\d], [str.upper], [str.lower] and
    [str.splitlines] are the functions below (a character above 127 is
    left unclassified: neither white space, word character, digit nor
    line break, and unchanged by case conversion, which is not what
    Python does with it).  A statement that depends on how the characters
    of a text are classified is therefore made of texts for which
    [str.isascii] holds, and says so in a hypothesis.  Regular expressions
    are kept as syntax trees that transliterate the pattern strings of the
    module, and are run by a backtracking matcher with the priorities of
    Python's [re] (greedy repetitions try the longest run first, lazy ones
    the shortest).  Exceptions are values of [result]; the file system is
    a parameter that lists the sources and reads them. *)

From Stdlib Require Import List Ascii String Arith Bool Lia PeanoNat Sorted.
Import ListNotations.

(** ** Characters and text *)

Definition str := list ascii.

Definition L (s : string) : str := list_ascii_of_string s.

Definition str_eqb (a b : str) : bool :=
  if list_eq_dec ascii_dec a b then true else false.

Definition code (c : ascii) : nat := nat_of_ascii c.

Definition in_range (lo hi : nat) (c : ascii) : bool :=
  (lo <=? code c) && (code c <=? hi).

(** [str.isspace], and [\s], on a 7-bit character: TAB, LF, VT, FF, CR, FS,
    GS, RS, US and space. *)
Definition isspace (c : ascii) : bool := in_range 9 13 c || in_range 28 32 c.
Definition isdigit (c : ascii) : bool := in_range 48 57 c.
Definition isupper (c : ascii) : bool := in_range 65 90 c.
Definition islower (c : ascii) : bool := in_range 97 122 c.
(** [\w] on a 7-bit character: letters, digits and the underscore. *)
Definition isword (c : ascii) : bool :=
  isupper c || islower c || isdigit c || (code c =? 95).

(** [str.lower] and [str.upper] on a 7-bit character *)
Definition lower (c : ascii) : ascii :=
  if isupper c then ascii_of_nat (code c + 32) else c.
Definition upper (c : ascii) : ascii :=
  if islower c then ascii_of_nat (code c - 32) else c.

Definition str_upper (s : str) : str := map upper s.
Definition str_lower (s : str) : str := map lower s.

(** [str.isascii]: every character has a code below 128. *)
Definition isascii (s : str) : bool := forallb (fun c => code c <? 128) s.

Fixpoint lstrip (s : str) : str :=
  match s with
  | c :: s' => if isspace c then lstrip s' else s
  | [] => []
  end.

Definition rstrip (s : str) : str := rev (lstrip (rev s)).
Definition strip (s : str) : str := rstrip (lstrip s).

Fixpoint startswith (s prefix : str) : bool :=
  match prefix, s with
  | [], _ => true
  | p :: prefix', c :: s' => Ascii.eqb p c && startswith s' prefix'
  | _ :: _, [] => false
  end.

(** [s.startswith(tuple)] *)
Definition startswith_any (s : str) (prefixes : list str) : bool :=
  existsb (startswith s) prefixes.

(** The line boundaries of [str.splitlines] in 7-bit text: LF, CR, CR LF,
    VT, FF, FS, GS and RS. *)
Definition is_linebreak (c : ascii) : bool :=
  in_range 10 13 c || in_range 28 30 c.

Fixpoint splitlines_from (cur : str) (s : str) : list str :=
  match s with
  | [] => match cur with [] => [] | _ => [rev cur] end
  | c :: s' =>
      if is_linebreak c then
        match s' with
        | d :: s'' =>
            if (code c =? 13) && (code d =? 10)
            then rev cur :: splitlines_from [] s''
            else rev cur :: splitlines_from [] s'
        | [] => rev cur :: splitlines_from [] s'
        end
      else splitlines_from (c :: cur) s'
  end.

Definition splitlines (s : str) : list str := splitlines_from [] s.

(** [enumerate(xs, start)] *)
Fixpoint enumerate {A} (xs : list A) (start : nat) : list (nat * A) :=
  match xs with
  | [] => []
  | x :: xs' => (start, x) :: enumerate xs' (S start)
  end.

(** [int(s)] for a string of ASCII decimal digits; [None] stands for the
    [ValueError] of any other string. *)
Fixpoint int_digits (acc : nat) (s : str) : option nat :=
  match s with
  | [] => Some acc
  | c :: s' => if isdigit c then int_digits (10 * acc + (code c - 48)) s' else None
  end.

Definition py_int (s : str) : option nat :=
  match s with
  | [] => None
  | _ => int_digits 0 s
  end.

(** ** Regular expressions *)

Module Re.

Record flags := { ignorecase : bool; multiline : bool }.

(** One member of a bracketed set. *)
Inductive citem :=
| CChar (c : ascii)
| CRange (lo hi : ascii)
| CWord
| CSpace
| CDigit.

Inductive atom :=
| ALit (c : ascii)
| ADot
| ASet (items : list citem).

Inductive regex :=
| REps
| RBol
| REol
| RWordB
| RAtom (a : atom)
| RRep (greedy : bool) (lo : nat) (hi : option nat) (a : atom)
| RSeq (r1 r2 : regex)
| RGroup (n : nat) (r : regex).

Record pattern := { re : regex; fl : flags }.

Record mstate := {
  prev : option ascii;
  rest : str;
  groups : list (nat * str)
}.

Definition lit_match (f : flags) (c x : ascii) : bool :=
  if ignorecase f then Ascii.eqb (lower c) (lower x) else Ascii.eqb c x.

Definition range_match (f : flags) (lo hi x : ascii) : bool :=
  let r := in_range (code lo) (code hi) in
  if ignorecase f then r x || r (lower x) || r (upper x) else r x.

Definition citem_match (f : flags) (i : citem) (x : ascii) : bool :=
  match i with
  | CChar c => lit_match f c x
  | CRange lo hi => range_match f lo hi x
  | CWord => isword x
  | CSpace => isspace x
  | CDigit => isdigit x
  end.

Definition atom_match (f : flags) (a : atom) (x : ascii) : bool :=
  match a with
  | ALit c => lit_match f c x
  | ADot => negb (code x =? 10)
  | ASet items => existsb (fun i => citem_match f i x) items
  end.

Definition at_bol (f : flags) (st : mstate) : bool :=
  match prev st with
  | None => true
  | Some c => multiline f && (code c =? 10)
  end.

Definition at_eol (f : flags) (st : mstate) : bool :=
  match rest st with
  | [] => true
  | c :: s => (code c =? 10) && (multiline f || match s with [] => true | _ => false end)
  end.

Definition word_before (st : mstate) : bool :=
  match prev st with Some c => isword c | None => false end.
Definition word_after (st : mstate) : bool :=
  match rest st with c :: _ => isword c | [] => false end.
Definition at_boundary (st : mstate) : bool :=
  xorb (word_before st) (word_after st).

Definition more_allowed (hi : option nat) : bool :=
  match hi with Some 0 => false | _ => true end.

(** A quantified atom, from position [s] with previous character [p]. *)
Fixpoint rep (f : flags) (greedy : bool) (a : atom) (lo : nat) (hi : option nat)
         (p : option ascii) (s : str)
         (k : option ascii -> str -> option mstate) {struct s} : option mstate :=
  if greedy then
    match
      match s with
      | c :: s' =>
          if atom_match f a c && more_allowed hi
          then rep f greedy a (pred lo) (option_map pred hi) (Some c) s' k
          else None
      | [] => None
      end
    with
    | Some r => Some r
    | None => match lo with 0 => k p s | S _ => None end
    end
  else
    match (match lo with 0 => k p s | S _ => None end) with
    | Some r => Some r
    | None =>
        match s with
        | c :: s' =>
            if atom_match f a c && more_allowed hi
            then rep f greedy a (pred lo) (option_map pred hi) (Some c) s' k
            else None
        | [] => None
        end
    end.

Definition consumed (st st' : mstate) : str :=
  firstn (List.length (rest st) - List.length (rest st')) (rest st).

Fixpoint set_group (n : nat) (v : str) (gs : list (nat * str)) : list (nat * str) :=
  match gs with
  | [] => [(n, v)]
  | (i, w) :: gs' => if i =? n then (n, v) :: gs' else (i, w) :: set_group n v gs'
  end.

Fixpoint get_group (n : nat) (gs : list (nat * str)) : option str :=
  match gs with
  | [] => None
  | (i, w) :: gs' => if i =? n then Some w else get_group n gs'
  end.

(** The matcher, in continuation-passing style: [k] is the rest of the
    pattern; the first success in priority order is the result. *)
Fixpoint m (f : flags) (r : regex) (st : mstate)
         (k : mstate -> option mstate) : option mstate :=
  match r with
  | REps => k st
  | RBol => if at_bol f st then k st else None
  | REol => if at_eol f st then k st else None
  | RWordB => if at_boundary st then k st else None
  | RAtom a =>
      match rest st with
      | c :: s' =>
          if atom_match f a c
          then k {| prev := Some c; rest := s'; groups := groups st |}
          else None
      | [] => None
      end
  | RRep g lo hi a =>
      rep f g a lo hi (prev st) (rest st)
          (fun p s => k {| prev := p; rest := s; groups := groups st |})
  | RSeq r1 r2 => m f r1 st (fun st' => m f r2 st' k)
  | RGroup n r1 =>
      m f r1 st
        (fun st' => k {| prev := prev st'; rest := rest st';
                         groups := set_group n (consumed st st') (groups st') |})
  end.

(** A match object is the final matcher state; [group mo n] is [mo[n]]. *)
Definition group (mo : mstate) (n : nat) : str :=
  match get_group n (groups mo) with Some w => w | None => [] end.

Definition match_at (pt : pattern) (p : option ascii) (s : str) : option mstate :=
  m (fl pt) (re pt) {| prev := p; rest := s; groups := [] |} Some.

(** [pattern.match(s)] *)
Definition match_ (pt : pattern) (s : str) : option mstate := match_at pt None s.

Fixpoint search_from (pt : pattern) (p : option ascii) (s : str) : option mstate :=
  match match_at pt p s with
  | Some r => Some r
  | None =>
      match s with
      | [] => None
      | c :: s' => search_from pt (Some c) s'
      end
  end.

(** [pattern.search(s)] *)
Definition search (pt : pattern) (s : str) : option mstate := search_from pt None s.

(** Building blocks for writing patterns. *)
Fixpoint seq (rs : list regex) : regex :=
  match rs with
  | [] => REps
  | [r] => r
  | r :: rs' => RSeq r (seq rs')
  end.

Definition lit (s : string) : regex := seq (map (fun c => RAtom (ALit c)) (L s)).
Definition star (a : atom) : regex := RRep true 0 None a.
Definition plus (a : atom) : regex := RRep true 1 None a.
Definition lazy_star (a : atom) : regex := RRep false 0 None a.
Definition opt (a : atom) : regex := RRep true 0 (Some 1) a.
Definition exactly (n : nat) (a : atom) : regex := RRep true n (Some n) a.

Definition s_ : atom := ASet [CSpace].
Definition w_ : atom := ASet [CWord].
Definition d_ : atom := ASet [CDigit].
(** The set of [\w] and [-] *)
Definition wh_ : atom := ASet [CWord; CChar "-"%char].

(** *** What a successful match is

    [matches f r st st'] says that [r] can take the matcher from [st] to
    [st']: the specification the continuation-passing matcher is checked
    against. *)

Fixpoint last_char (p : option ascii) (w : str) : option ascii :=
  match w with
  | [] => p
  | c :: w' => last_char (Some c) w'
  end.

Definition within (n : nat) (hi : option nat) : Prop :=
  match hi with Some h => n <= h | None => True end.

Inductive matches (f : flags) : regex -> mstate -> mstate -> Prop :=
| M_eps st : matches f REps st st
| M_bol st : at_bol f st = true -> matches f RBol st st
| M_eol st : at_eol f st = true -> matches f REol st st
| M_wordb st : at_boundary st = true -> matches f RWordB st st
| M_atom a st c s' :
    rest st = c :: s' -> atom_match f a c = true ->
    matches f (RAtom a) st {| prev := Some c; rest := s'; groups := groups st |}
| M_rep g lo hi a st w s' :
    rest st = w ++ s' ->
    Forall (fun c => atom_match f a c = true) w ->
    lo <= List.length w -> within (List.length w) hi ->
    matches f (RRep g lo hi a) st
            {| prev := last_char (prev st) w; rest := s'; groups := groups st |}
| M_seq r1 r2 st st1 st2 :
    matches f r1 st st1 -> matches f r2 st1 st2 -> matches f (RSeq r1 r2) st st2
| M_group n r st st' :
    matches f r st st' ->
    matches f (RGroup n r) st
            {| prev := prev st'; rest := rest st';
               groups := set_group n (consumed st st') (groups st') |}.

End Re.

(** ** The patterns of the module *)

Definition IM : Re.flags := {| Re.ignorecase := true; Re.multiline := true |}.
Definition I : Re.flags := {| Re.ignorecase := true; Re.multiline := false |}.

Definition dot_ : Re.regex := Re.RAtom (Re.ALit "."%char).
Definition quote_ : Re.atom := Re.ALit (ascii_of_nat 34).

(** [^ \s* PROGRAM-ID \. \s+ ( [\w-]+ ) \.] with flags [re.I | re.M]
    (here and below the tokens of a pattern are spaced apart) *)
Definition _PROGID_RE : Re.pattern :=
  {| Re.re := Re.seq [Re.RBol; Re.star Re.s_; Re.lit "PROGRAM-ID"; dot_;
                      Re.plus Re.s_; Re.RGroup 1 (Re.plus Re.wh_); dot_];
     Re.fl := IM |}.

(** [^ \s* ( \w [\w-]* ) \s+ DIVISION \b] with flag [re.I] *)
Definition _DIV_RE : Re.pattern :=
  {| Re.re := Re.seq [Re.RBol; Re.star Re.s_;
                      Re.RGroup 1 (Re.RSeq (Re.RAtom Re.w_) (Re.star Re.wh_));
                      Re.plus Re.s_; Re.lit "DIVISION"; Re.RWordB];
     Re.fl := I |}.

(** [^ \s* ( \w [\w-]* ) \s+ SECTION \.] with flag [re.I] *)
Definition _SEC_RE : Re.pattern :=
  {| Re.re := Re.seq [Re.RBol; Re.star Re.s_;
                      Re.RGroup 1 (Re.RSeq (Re.RAtom Re.w_) (Re.star Re.wh_));
                      Re.plus Re.s_; Re.lit "SECTION"; dot_];
     Re.fl := I |}.

(** The set of [A-Z], [a-z], [0-9], the two parentheses, [V] and [-] *)
Definition pic_ : Re.atom :=
  Re.ASet [Re.CRange "A" "Z"; Re.CRange "a" "z"; Re.CRange "0" "9";
           Re.CChar "("; Re.CChar ")"; Re.CChar "V"; Re.CChar "-"]%char.

(** [^ \s* ( \d{2} ) \s+ ( [\w-]+ ) .*? \b PIC \b \s+ ( pic_+ )] with flag [re.I] *)
Definition _VAR_RE : Re.pattern :=
  {| Re.re := Re.seq [Re.RBol; Re.star Re.s_;
                      Re.RGroup 1 (Re.exactly 2 Re.d_);
                      Re.plus Re.s_; Re.RGroup 2 (Re.plus Re.wh_);
                      Re.lazy_star Re.ADot;
                      Re.RWordB; Re.lit "PIC"; Re.RWordB;
                      Re.plus Re.s_; Re.RGroup 3 (Re.plus pic_)];
     Re.fl := I |}.

(** [^ \s* ( [\w-]+ ) \. \s* $] with flag [re.I] *)
Definition _PAR_RE : Re.pattern :=
  {| Re.re := Re.seq [Re.RBol; Re.star Re.s_; Re.RGroup 1 (Re.plus Re.wh_);
                      dot_; Re.star Re.s_; Re.REol];
     Re.fl := I |}.

(** [\b CALL \s+ quote? ( [\w-]+ ) quote?] with flag [re.I], where quote
    is the double-quote character *)
Definition _CALL_RE : Re.pattern :=
  {| Re.re := Re.seq [Re.RWordB; Re.lit "CALL"; Re.plus Re.s_; Re.opt quote_;
                      Re.RGroup 1 (Re.plus Re.wh_); Re.opt quote_];
     Re.fl := I |}.

(** [\b PERFORM \s+ ( [\w-]+ )] with flag [re.I] *)
Definition _PERF_RE : Re.pattern :=
  {| Re.re := Re.seq [Re.RWordB; Re.lit "PERFORM"; Re.plus Re.s_;
                      Re.RGroup 1 (Re.plus Re.wh_)];
     Re.fl := I |}.

(** Traditional and free-format comment markers. *)
Definition _COMMENT : list str := [L "*"; L "*>"].

(** ** Exceptions *)

Inductive exn := OSError | KeyError | ValueError.

Inductive result (A : Type) :=
| Ok (a : A)
| Raise (e : exn).
Arguments Ok {A} a.
Arguments Raise {A} e.

Definition bind {A B} (r : result A) (f : A -> result B) : result B :=
  match r with
  | Ok a => f a
  | Raise e => Raise e
  end.

Notation "x <- r ;; k" := (bind r (fun x => k))
  (at level 61, r at next level, right associativity).

(** ** Dictionaries: insertion-ordered, keyed by text *)

Definition dict (V : Type) := list (str * V).

Fixpoint dict_get {V} (k : str) (d : dict V) : option V :=
  match d with
  | [] => None
  | (k', v) :: d' => if str_eqb k' k then Some v else dict_get k d'
  end.

(** [d[k] = v]: an existing key keeps its place, a new one goes last. *)
Fixpoint dict_set {V} (k : str) (v : V) (d : dict V) : dict V :=
  match d with
  | [] => [(k, v)]
  | (k', v') :: d' =>
      if str_eqb k' k then (k, v) :: d' else (k', v') :: dict_set k v d'
  end.

(** [k in d] *)
Definition dict_mem {V} (k : str) (d : dict V) : bool :=
  match dict_get k d with Some _ => true | None => false end.

Definition dict_values {V} (d : dict V) : list V := map snd d.
Definition dict_keys {V} (d : dict V) : list str := map fst d.

(** ** Paths and the file system *)

(** A path, as the text of a normalised [pathlib] path: components joined
    by [/], none after the last one. *)
Definition Path := str.

(** The text after the last [/]. *)
Fixpoint path_name_from (cur : str) (p : str) : str :=
  match p with
  | [] => rev cur
  | c :: p' => if Ascii.eqb c "/" then path_name_from [] p' else path_name_from (c :: cur) p'
  end.

Definition path_name (p : Path) : str := path_name_from [] p.

(** [name.rfind('.')] *)
Fixpoint rfind_dot (i : nat) (s : str) : option nat :=
  match s with
  | [] => None
  | c :: s' =>
      match rfind_dot (S i) s' with
      | Some j => Some j
      | None => if Ascii.eqb c "." then Some i else None
      end
  end.

(** [PurePath.stem]: the final component, cut at its last dot unless that
    dot is its first or last character. *)
Definition stem (p : Path) : str :=
  let name := path_name p in
  match rfind_dot 0 name with
  | Some i => if (0 <? i) && (i <? List.length name - 1) then firstn i name else name
  | None => name
  end.

(** [str(x)] for the result of [dict.get]: the path, or the text of [None] *)
Definition py_str (x : option Path) : str :=
  match x with Some p => p | None => L "None" end.

(** What the program sees of the file system: the [*.cbl] files that
    [rglob] yields under a root, and [read_text] with decoding errors ignored. *)
Record FileSystem := {
  rglob_cbl : Path -> list Path;
  read_text : Path -> result str
}.

(** ** Records produced by the parser *)

Record DataItem := { level : nat; name : str; pic : str }.

Inductive stmt_type := CALL | PERFORM.

Record Statement := { type : stmt_type; target : str; line : nat }.

Record Paragraph := { statements : list Statement }.

(** A call edge.  [to_file] is [None] until the resolver sets the key;
    then it is [Some None] (null) or [Some (Some path)]. *)
Record CallEdge := {
  from_file : str;
  from_paragraph : str;
  edge_line : nat;
  to_program : str;
  to_file : option (option str)
}.

(** ** class CobolParser *)

Record CobolParser := {
  path : Path;
  program_id : str;
  divisions : list str;
  data_sections : dict (list DataItem);
  paragraphs : dict Paragraph;
  calls : list CallEdge
}.

(** [CobolParser.__init__] *)
Definition init (p : Path) : CobolParser :=
  {| path := p; program_id := stem p; divisions := [];
     data_sections := []; paragraphs := []; calls := [] |}.

Definition set_program_id (v : str) (o : CobolParser) : CobolParser :=
  {| path := path o; program_id := v; divisions := divisions o;
     data_sections := data_sections o; paragraphs := paragraphs o; calls := calls o |}.
Definition set_divisions (v : list str) (o : CobolParser) : CobolParser :=
  {| path := path o; program_id := program_id o; divisions := v;
     data_sections := data_sections o; paragraphs := paragraphs o; calls := calls o |}.
Definition set_data_sections (v : dict (list DataItem)) (o : CobolParser) : CobolParser :=
  {| path := path o; program_id := program_id o; divisions := divisions o;
     data_sections := v; paragraphs := paragraphs o; calls := calls o |}.
Definition set_paragraphs (v : dict Paragraph) (o : CobolParser) : CobolParser :=
  {| path := path o; program_id := program_id o; divisions := divisions o;
     data_sections := data_sections o; paragraphs := v; calls := calls o |}.
Definition set_calls (v : list CallEdge) (o : CobolParser) : CobolParser :=
  {| path := path o; program_id := program_id o; divisions := divisions o;
     data_sections := data_sections o; paragraphs := paragraphs o; calls := v |}.

(** The parser object together with the locals [div], [sec] and [para] of
    [parse]. *)
Record pstate := {
  self : CobolParser;
  div : option str;
  sec : option str;
  para : option str
}.

Definition with_self (o : CobolParser) (st : pstate) : pstate :=
  {| self := o; div := div st; sec := sec st; para := para st |}.

(** [x not in xs] is [negb (str_in x xs)] *)
Definition str_in (x : str) (xs : list str) : bool := existsb (str_eqb x) xs.

(** [v == "..."] for a nullable local *)
Definition is_str (v : option str) (s : string) : bool :=
  match v with Some x => str_eqb x (L s) | None => false end.

(** [self.data_sections[sec].append(item)] on a [defaultdict(list)] *)
Definition dd_append (k : str) (item : DataItem) (d : dict (list DataItem))
  : dict (list DataItem) :=
  match dict_get k d with
  | Some items => dict_set k (items ++ [item]) d
  | None => dict_set k [item] d
  end.

(** [self.paragraphs[para]["statements"].append(s)] *)
Definition append_statement (k : str) (s : Statement) (d : dict Paragraph)
  : result (dict Paragraph) :=
  match dict_get k d with
  | Some pg => Ok (dict_set k {| statements := statements pg ++ [s] |} d)
  | None => Raise KeyError
  end.

(** The test [div == "DATA" and sec and (m := _VAR_RE.match(strip))]: the
    section, when it is neither null nor empty, and the match object. *)
Definition data_item_match (st : pstate) (strip_ : str) : option (str * Re.mstate) :=
  if is_str (div st) "DATA" then
    match sec st with
    | Some (c :: s) =>
        match Re.match_ _VAR_RE strip_ with
        | Some mo => Some (c :: s, mo)
        | None => None
        end
    | _ => None
    end
  else None.

(** The CALL detection of a statement line of paragraph [p] *)
Definition detect_call (lineno : nat) (strip_ : str) (p : str) (o : CobolParser)
  : result CobolParser :=
  match Re.search _CALL_RE strip_ with
  | Some mo =>
      let tgt := Re.group mo 1 in
      ps <- append_statement p {| type := CALL; target := tgt; line := lineno |}
                             (paragraphs o) ;;
      Ok (set_calls (calls o ++ [{| from_file := path o; from_paragraph := p;
                                    edge_line := lineno; to_program := tgt;
                                    to_file := None |}])
                    (set_paragraphs ps o))
  | None => Ok o
  end.

(** The PERFORM detection of a statement line of paragraph [p] *)
Definition detect_perform (lineno : nat) (strip_ : str) (p : str) (o : CobolParser)
  : result CobolParser :=
  match Re.search _PERF_RE strip_ with
  | Some mo =>
      let tgt := Re.group mo 1 in
      ps <- append_statement p {| type := PERFORM; target := tgt; line := lineno |}
                             (paragraphs o) ;;
      Ok (set_paragraphs ps o)
  | None => Ok o
  end.

(** The body of the loop of [CobolParser.parse] *)
Definition parse_line (st : pstate) (ln : nat * str) : result pstate :=
  let '(lineno, raw) := ln in
  if startswith_any (lstrip raw) _COMMENT then Ok st else
  let strip_ := strip (rstrip raw) in
  match strip_ with [] => Ok st | _ :: _ =>
  (* DIVISION, SECTION, PROGRAM-ID *)
  match Re.match_ _DIV_RE strip_ with
  | Some mo =>
      let d := str_upper (Re.group mo 1) in
      Ok {| self := if negb (str_in d (divisions (self st)))
                    then set_divisions (divisions (self st) ++ [d]) (self st)
                    else self st;
            div := Some d; sec := None; para := None |}
  | None =>
  match Re.match_ _SEC_RE strip_ with
  | Some mo =>
      Ok {| self := self st; div := div st;
            sec := Some (str_upper (Re.group mo 1)); para := para st |}
  | None =>
  match Re.match_ _PROGID_RE strip_ with
  | Some mo => Ok (with_self (set_program_id (Re.group mo 1) (self st)) st)
  | None =>
  (* DATA items *)
  match data_item_match st strip_ with
  | Some (s, mo) =>
      match py_int (Re.group mo 1) with
      | Some lv =>
          Ok (with_self
                (set_data_sections
                   (dd_append s {| level := lv; name := Re.group mo 2;
                                   pic := Re.group mo 3 |}
                              (data_sections (self st)))
                   (self st)) st)
      | None => Raise ValueError
      end
  | None =>
  (* PROCEDURE division *)
  if is_str (div st) "PROCEDURE" then
    match Re.match_ _PAR_RE strip_ with
    | Some mo =>
        let p := Re.group mo 1 in
        Ok {| self := set_paragraphs (dict_set p {| statements := [] |}
                                               (paragraphs (self st))) (self st);
              div := div st; sec := sec st; para := Some p |}
    | None =>
        match para st with
        | None => Ok st
        | Some p =>
            (* CALL / PERFORM detection *)
            o1 <- detect_call lineno strip_ p (self st) ;;
            o2 <- detect_perform lineno strip_ p o1 ;;
            Ok (with_self o2 st)
        end
    end
  else Ok st
  end end end end end.

Fixpoint parse_lines (st : pstate) (lns : list (nat * str)) : result pstate :=
  match lns with
  | [] => Ok st
  | ln :: lns' => st' <- parse_line st ln ;; parse_lines st' lns'
  end.

(** The lines [parse] iterates over, numbered from 1 *)
Definition numbered_lines (text : str) : list (nat * str) :=
  enumerate (splitlines text) 1.

Definition start (o : CobolParser) : pstate :=
  {| self := o; div := None; sec := None; para := None |}.

(** [parse] on the text of the file, once read *)
Definition parse_text (o : CobolParser) (text : str) : result CobolParser :=
  st <- parse_lines (start o) (numbered_lines text) ;; Ok (self st).

(** [CobolParser.parse] *)
Definition parse (fs : FileSystem) (o : CobolParser) : result CobolParser :=
  text <- read_text fs (path o) ;; parse_text o text.

(** ** sniff_program_id *)

Definition sniff_program_id (fs : FileSystem) (p : Path) : option str :=
  match read_text fs p with
  | Raise _ => None
  | Ok text =>
      match Re.search _PROGID_RE text with
      | Some mo => Some (Re.group mo 1)
      | None => None
      end
  end.

(** ** build_index *)

Fixpoint index_files (fs : FileSystem) (files : list Path) (idx : dict Path) : dict Path :=
  match files with
  | [] => idx
  | f :: files' =>
      index_files fs files'
        match sniff_program_id fs f with
        | Some (c :: pid) => dict_set (str_lower (c :: pid)) f idx
        | _ => idx
        end
  end.

Definition build_index (fs : FileSystem) (root : Path) : dict Path :=
  index_files fs (rglob_cbl fs root) [].

(** ** parse_repo *)

(** Pass 1: parse every COBOL file *)
Fixpoint parse_all (fs : FileSystem) (files : list Path) (structures : dict CobolParser)
  : result (dict CobolParser) :=
  match files with
  | [] => Ok structures
  | file :: files' =>
      parser <- parse fs (init file) ;;
      parse_all fs files' (dict_set file parser structures)
  end.

(** The body of the inner loop of pass 2 *)
Definition resolve_edge (program_index : dict Path) (edge : CallEdge) : CallEdge :=
  let tgt_prog := str_lower (to_program edge) in
  {| from_file := from_file edge; from_paragraph := from_paragraph edge;
     edge_line := edge_line edge; to_program := to_program edge;
     to_file := Some (if dict_mem tgt_prog program_index
                      then Some (py_str (dict_get tgt_prog program_index))
                      else None) |}.

(** Pass 2: resolve CALL edges to files (if known) *)
Definition resolve_all (program_index : dict Path) (structures : dict CobolParser)
  : list CallEdge :=
  flat_map (fun parser => map (resolve_edge program_index) (calls parser))
           (dict_values structures).

(** [parse_repo] from the building of the index to the end of pass 2: the
    parsers, in processing order, and the aggregated edge list.  The
    creation of the output directory, before, and the writing of the
    output files, after, are not part of it; what is proved of a run is
    proved of these two passes. *)
Definition parse_repo (fs : FileSystem) (repo_root : Path)
  : result (dict CobolParser * list CallEdge) :=
  let program_index := build_index fs repo_root in
  structures <- parse_all fs (rglob_cbl fs repo_root) [] ;;
  Ok (structures, resolve_all program_index structures).

(** ** Vocabulary of the statements

    How a raw line is classified before the parser state is consulted, and
    what the lines read so far say about the enclosing division and section. *)

(** The text the patterns are tried on: [raw.rstrip().strip()] *)
Definition stripped (raw : str) : str := strip (rstrip raw).

(** A comment line or a blank line *)
Definition skipped (raw : str) : bool :=
  startswith_any (lstrip raw) _COMMENT ||
  match stripped raw with [] => true | _ :: _ => false end.

(** The name a division header line sets, in upper case *)
Definition division_of (raw : str) : option str :=
  if skipped raw then None else
  match Re.match_ _DIV_RE (stripped raw) with
  | Some mo => Some (str_upper (Re.group mo 1))
  | None => None
  end.

(** The name a section header line sets, in upper case *)
Definition section_of (raw : str) : option str :=
  if skipped raw then None else
  match division_of raw with
  | Some _ => None
  | None =>
      match Re.match_ _SEC_RE (stripped raw) with
      | Some mo => Some (str_upper (Re.group mo 1))
      | None => None
      end
  end.

(** The name captured on a line that matches the PROGRAM-ID pattern *)
Definition declared_id (raw : str) : option str :=
  match Re.match_ _PROGID_RE (stripped raw) with
  | Some mo => Some (Re.group mo 1)
  | None => None
  end.

(** A line taken by one of the first four rules of the loop *)
Definition taken_early (raw : str) : bool :=
  skipped raw ||
  match division_of raw, section_of raw, declared_id raw with
  | None, None, None => false
  | _, _, _ => true
  end.

(** The name of the paragraph a line opens, in parser state [st] *)
Definition paragraph_header (st : pstate) (raw : str) : option str :=
  if taken_early raw then None else
  if is_str (div st) "PROCEDURE" then
    match Re.match_ _PAR_RE (stripped raw) with
    | Some mo => Some (Re.group mo 1)
    | None => None
    end
  else None.

(** The open paragraph, when the line reaches the CALL / PERFORM detection *)
Definition statement_line (st : pstate) (raw : str) : option str :=
  if taken_early raw then None else
  if is_str (div st) "PROCEDURE" then
    match Re.match_ _PAR_RE (stripped raw) with
    | Some _ => None
    | None => para st
    end
  else None.

(** The division and the section in force after a line *)
Definition next_div (d : option str) (raw : str) : option str :=
  match division_of raw with
  | Some d' => Some d'
  | None => d
  end.

Definition next_sec (s : option str) (raw : str) : option str :=
  match division_of raw, section_of raw with
  | Some _, _ => None
  | None, Some s' => Some s'
  | None, None => s
  end.

(** The most recent division header among [raws], and the section opened
    since that header *)
Definition last_division (raws : list str) : option str := fold_left next_div raws None.
Definition open_section (raws : list str) : option str := fold_left next_sec raws None.

(** The division names of the header lines, in order of appearance *)
Fixpoint division_names (raws : list str) : list str :=
  match raws with
  | [] => []
  | raw :: raws' =>
      match division_of raw with
      | Some d => d :: division_names raws'
      | None => division_names raws'
      end
  end.

(** The names of the declaration lines, in order of appearance *)
Fixpoint declared_names (raws : list str) : list str :=
  match raws with
  | [] => []
  | raw :: raws' =>
      match declared_id raw with
      | Some i => i :: declared_names raws'
      | None => declared_names raws'
      end
  end.

(** A list without its repetitions, each element kept where it first occurs *)
Fixpoint dedup_from (seen : list str) (xs : list str) : list str :=
  match xs with
  | [] => []
  | x :: xs' =>
      if str_in x seen then dedup_from seen xs'
      else x :: dedup_from (seen ++ [x]) xs'
  end.

Definition first_occurrences (xs : list str) : list str := dedup_from [] xs.

(** The data item a declaration line yields *)
Definition data_item_of (raw : str) : option DataItem :=
  match Re.match_ _VAR_RE (stripped raw) with
  | Some mo =>
      match py_int (Re.group mo 1) with
      | Some lv => Some {| level := lv; name := Re.group mo 2; pic := Re.group mo 3 |}
      | None => None
      end
  | None => None
  end.

(** One turn of the loop, by the rule that applies *)
Inductive line_step (st : pstate) (lineno : nat) (raw : str) : pstate -> Prop :=
| step_division d :
    division_of raw = Some d ->
    line_step st lineno raw
      {| self := if negb (str_in d (divisions (self st)))
                 then set_divisions (divisions (self st) ++ [d]) (self st)
                 else self st;
         div := Some d; sec := None; para := None |}
| step_section s :
    division_of raw = None -> section_of raw = Some s ->
    line_step st lineno raw
      {| self := self st; div := div st; sec := Some s; para := para st |}
| step_program_id i :
    division_of raw = None -> section_of raw = None -> declared_id raw = Some i ->
    line_step st lineno raw (with_self (set_program_id i (self st)) st)
| step_data_item s item :
    taken_early raw = false ->
    div st = Some (L "DATA") -> sec st = Some s -> s <> [] ->
    data_item_of raw = Some item ->
    line_step st lineno raw
      (with_self (set_data_sections (dd_append s item (data_sections (self st)))
                                    (self st)) st)
| step_paragraph p :
    paragraph_header st raw = Some p ->
    line_step st lineno raw
      {| self := set_paragraphs (dict_set p {| statements := [] |} (paragraphs (self st)))
                                (self st);
         div := div st; sec := sec st; para := Some p |}
| step_statement p o1 o2 :
    statement_line st raw = Some p ->
    detect_call lineno (stripped raw) p (self st) = Ok o1 ->
    detect_perform lineno (stripped raw) p o1 = Ok o2 ->
    line_step st lineno raw (with_self o2 st)
| step_ignored :
    division_of raw = None -> section_of raw = None -> declared_id raw = None ->
    paragraph_header st raw = None -> statement_line st raw = None ->
    line_step st lineno raw st.

(** A file system given by a table of files: the listed paths are what
    [rglob] yields under any root, and a path reads as its entry says. *)
Fixpoint table_read (files : list (Path * result str)) (p : Path) : result str :=
  match files with
  | [] => Raise OSError
  | (q, r) :: files' => if str_eqb q p then r else table_read files' p
  end.

Definition table_fs (files : list (Path * result str)) : FileSystem :=
  {| rglob_cbl := fun _ => map fst files; read_text := table_read files |}.

(** ** Sample inputs *)

Definition NL : ascii := ascii_of_nat 10.

(** A line of sample text, written with an apostrophe where the source
    has a double quote *)
Definition Lq (s : string) : str :=
  map (fun c => if Ascii.eqb c "'" then ascii_of_nat 34 else c) (L s).

(** Text from lines, each ended by a line feed *)
Fixpoint unlines (ls : list string) : str :=
  match ls with
  | [] => []
  | l :: ls' => Lq l ++ NL :: unlines ls'
  end.

Definition main_path : Path := L "/repo/main.cbl".
Definition sub1_path : Path := L "/repo/lib/sub1.cbl".
Definition locked_path : Path := L "/repo/locked.cbl".

Definition main_cbl : str := unlines [
  "       IDENTIFICATION DIVISION.";
  "       PROGRAM-ID. MAIN.";
  "       DATA DIVISION.";
  "       WORKING-STORAGE SECTION.";
  "       77 WS-COUNT PIC 9(4).";
  "       01 WS-NAME  PIC X(10).";
  "       PROCEDURE DIVISION.";
  "       START-UP.";
  "           CALL 'SUB1'";
  "           PERFORM CLEANUP";
  "       START-UP.";
  "           CALL 'sub2' PERFORM CLEANUP"
]%string.

Definition sub1_cbl : str := unlines [
  "       PROGRAM-ID. SUB1.";
  "       PROCEDURE DIVISION.";
  "       MAIN-PARA.";
  "           CALL NOWHERE"
]%string.

(** Two declaration lines *)
Definition two_ids_cbl : str := unlines [
  "PROGRAM-ID. A.";
  "PROGRAM-ID. B."
]%string.

(** A keyword with its name on the next line, then two declaration lines *)
Definition split_id_cbl : str := unlines [
  "PROGRAM-ID.";
  "X.";
  "PROGRAM-ID. A.";
  "PROGRAM-ID. B."
]%string.

Definition repo : FileSystem :=
  table_fs [(main_path, Ok main_cbl); (sub1_path, Ok sub1_cbl)].

(** A repository with a file that cannot be read *)
Definition locked_repo : FileSystem :=
  table_fs [(main_path, Ok main_cbl); (locked_path, Raise OSError)].

Definition one_file (p : Path) (text : str) : FileSystem := table_fs [(p, Ok text)].

Definition parsed_or_init (fs : FileSystem) (p : Path) : CobolParser :=
  match parse fs (init p) with Ok o => o | Raise _ => init p end.

(** The structure of [main.cbl], and the parser state before its line 11,
    the second header of START-UP *)
Definition main_parsed : CobolParser := Eval vm_compute in parsed_or_init repo main_path.

Definition main_before_reopen : pstate :=
  Eval vm_compute in
    match parse_lines (start (init main_path)) (firstn 10 (numbered_lines main_cbl)) with
    | Ok st => st
    | Raise _ => start (init main_path)
    end.

(** The results of [parse_repo] on the sample repository *)
Definition repo_run : dict CobolParser * list CallEdge :=
  Eval vm_compute in
    match parse_repo repo (L "/repo") with
    | Ok r => r
    | Raise _ => ([], [])
    end.

(** Once a header of [name] is read at line [n], the entry of [name] holds
    only statements of later lines. *)
Definition only_after (name : str) (n : nat) (st : pstate) : Prop :=
  exists pg, dict_get name (paragraphs (self st)) = Some pg /\
             Forall (fun s => n < line s) (statements pg).

(** Edge [r] is raw edge [e] after resolution against [idx]: the same four
    fields, and the path [idx] holds for the case-folded target, or null. *)
Definition resolves (idx : dict Path) (e r : CallEdge) : Prop :=
  from_file r = from_file e /\
  from_paragraph r = from_paragraph e /\
  edge_line r = edge_line e /\
  to_program r = to_program e /\
  to_file r = Some (dict_get (str_lower (to_program e)) idx).

(** Every character, for checking a property of characters by running it *)
Definition all_ascii : list ascii := map ascii_of_nat (seq 0 256).

(** A text accepted by the division or the section pattern: white space,
    a name, white space. *)
Definition header_shape (s : str) : Prop :=
  exists v0 x v1 sp tl,
    s = v0 ++ (x :: v1) ++ sp :: tl /\
    Forall (fun c => isspace c = true) v0 /\
    isword x = true /\
    Forall (fun c => Re.atom_match I Re.wh_ c = true) (x :: v1) /\
    isspace sp = true.

(** The edge that goes with a CALL statement of paragraph [p] *)
Definition edge_of (file : str) (p : str) (s : Statement) : CallEdge :=
  {| from_file := file; from_paragraph := p; edge_line := line s;
     to_program := target s; to_file := None |}.

Definition is_call (s : Statement) : bool :=
  match type s with CALL => true | PERFORM => false end.

(** What a detection may change: the statements of the open paragraph,
    at the end, and the edge list, at the end, by the edges of the new
    CALL statements. *)
Record extends (lineno : nat) (p : str) (o o' : CobolParser) : Prop := {
  ext_path : path o' = path o;
  ext_program_id : program_id o' = program_id o;
  ext_divisions : divisions o' = divisions o;
  ext_data_sections : data_sections o' = data_sections o;
  ext_new :
    exists pg new,
      dict_get p (paragraphs o) = Some pg /\
      Forall (fun s => line s = lineno) new /\
      paragraphs o' = dict_set p {| statements := statements pg ++ new |} (paragraphs o) /\
      calls o' = calls o ++ map (edge_of (path o) p) (filter is_call new)
}.

(** The open paragraph, if any, is a key of the dictionary. *)
Definition para_known (st : pstate) : Prop :=
  forall p, para st = Some p -> exists pg, dict_get p (paragraphs (self st)) = Some pg.

(** Where a recorded item comes from: a line read while the data division
    was the current division and section [s] was open. *)
Definition recorded_from (raws : list str) (s : str) (item : DataItem) : Prop :=
  exists pre raw post,
    raws = pre ++ raw :: post /\
    last_division pre = Some (L "DATA") /\
    open_section pre = Some s /\
    data_item_of raw = Some item.

(** The parser state agrees with the lines read so far. *)
Definition history (st : pstate) (raws : list str) : Prop :=
  div st = last_division raws /\
  sec st = open_section raws /\
  forall s items item,
    In (s, items) (data_sections (self st)) -> In item items ->
    recorded_from raws s item.

(** Line numbers in ascending order *)
Definition ascending (ns : list nat) : Prop := StronglySorted le ns.

(** The statements of every paragraph are in ascending line order, all
    before line [n]. *)
Definition sorted_below (st : pstate) (n : nat) : Prop :=
  forall name pg,
    In (name, pg) (paragraphs (self st)) ->
    ascending (map line (statements pg)) /\
    Forall (fun s => line s < n) (statements pg).

(** Every CALL statement on record has its edge in the edge list. *)
Definition edges_cover (st : pstate) : Prop :=
  forall name pg s,
    In (name, pg) (paragraphs (self st)) -> In s (statements pg) ->
    is_call s = true -> In (edge_of (path (self st)) name s) (calls (self st)).

(** ** Files that can be read *)

(** Every listed file can be read. *)
Definition all_readable (fs : FileSystem) (files : list Path) : Prop :=
  forall f, In f files -> exists text, read_text fs f = Ok text.

(** Every listed file that can be read holds 7-bit text. *)
Definition ascii_files (fs : FileSystem) (files : list Path) : Prop :=
  forall f text, In f files -> read_text fs f = Ok text -> isascii text = true.

(** A file with no declaration line *)
Definition no_id_cbl : str := unlines [
  "       PROCEDURE DIVISION.";
  "       MAIN-PARA.";
  "           CALL 'SUB1'"
]%string.

(** A text accepted by the division pattern (with [k] the letter D) or by
    the section pattern (with [k] the letter S): white space, the captured
    name, white space, the first letter of the keyword. *)
Definition header_full (k : ascii) (s : str) (mo : Re.mstate) : Prop :=
  exists v0 x v1 ws c tl,
    s = v0 ++ (x :: v1) ++ ws ++ c :: tl /\
    Forall (fun c => isspace c = true) v0 /\
    isword x = true /\
    Forall (fun c => Re.atom_match I Re.wh_ c = true) v1 /\
    Forall (fun c => isspace c = true) ws /\ ws <> [] /\
    Re.lit_match I k c = true /\
    Re.group mo 1 = x :: v1.


(** Whether [pattern.match(s)] finds a match *)
Definition accepts (pt : Re.pattern) (s : str) : bool :=
  match Re.match_ pt s with Some _ => true | None => false end.

(** The four patterns that classify a whole line as a header or a
    declaration *)
Definition line_patterns : list Re.pattern := [_DIV_RE; _SEC_RE; _PROGID_RE; _PAR_RE].

(** The statements the detection finds on a stripped line, in the order in
    which it records them: the CALL, then the PERFORM *)
Definition detected (lineno : nat) (strip_ : str) : list Statement :=
  match Re.search _CALL_RE strip_ with
  | Some mo => [{| type := CALL; target := Re.group mo 1; line := lineno |}]
  | None => []
  end ++
  match Re.search _PERF_RE strip_ with
  | Some mo => [{| type := PERFORM; target := Re.group mo 1; line := lineno |}]
  | None => []
  end.

(** The paragraph a line opens when [d] is the current division *)
Definition opens (d : option str) (raw : str) : option str :=
  if taken_early raw then None else
  if is_str d "PROCEDURE" then
    match Re.match_ _PAR_RE (stripped raw) with
    | Some mo => Some (Re.group mo 1)
    | None => None
    end
  else None.

(** The paragraph in force after a line read with [d] the current division *)
Definition next_para (d p : option str) (raw : str) : option str :=
  match division_of raw with
  | Some _ => None
  | None => match opens d raw with Some q => Some q | None => p end
  end.

(** The division and the paragraph in force after the lines [raws] *)
Definition context (raws : list str) : option str * option str :=
  fold_left (fun dp raw => (next_div (fst dp) raw, next_para (fst dp) (snd dp) raw))
            raws (None, None).

Definition open_paragraph (raws : list str) : option str := snd (context raws).

(** Where a statement of paragraph [name] comes from: the line of its
    number, read in the procedure division with [name] open, and on which
    the detection finds it. *)
Definition stated_in (raws : list str) (name : str) (s : Statement) : Prop :=
  exists pre raw post,
    raws = pre ++ raw :: post /\
    line s = 1 + List.length pre /\
    last_division pre = Some (L "PROCEDURE") /\
    open_paragraph pre = Some name /\
    In s (detected (line s) (stripped raw)).

(** Where a paragraph comes from: a header line read in the procedure
    division. *)
Definition opened_in (raws : list str) (name : str) : Prop :=
  exists pre raw post,
    raws = pre ++ raw :: post /\
    last_division pre = Some (L "PROCEDURE") /\
    opens (last_division pre) raw = Some name.

(** The parser state agrees with the lines read so far, as to the
    procedure division. *)
Record procedure_history (st : pstate) (raws : list str) : Prop := {
  ph_div : div st = last_division raws;
  ph_para : para st = open_paragraph raws;
  ph_keys : forall name pg, In (name, pg) (paragraphs (self st)) -> opened_in raws name;
  ph_statements :
    forall name pg s,
      In (name, pg) (paragraphs (self st)) -> In s (statements pg) ->
      stated_in raws name s;
  ph_edges :
    forall e, In e (calls (self st)) ->
      exists name s,
        e = edge_of (path (self st)) name s /\ is_call s = true /\
        stated_in raws name s /\
        exists pg, dict_get name (paragraphs (self st)) = Some pg;
  ph_order :
    ascending (map edge_line (calls (self st))) /\
    Forall (fun e => edge_line e <= List.length raws) (calls (self st))
}.

(** File [f] declares the program whose case-folded identifier is [k], as
    far as the sniffer sees. *)
Definition declares (fs : FileSystem) (k : str) (f : Path) : Prop :=
  exists pid, sniff_program_id fs f = Some pid /\ str_lower pid = k.

(** [f] is the last of [files] that declares [k]. *)
Definition last_declaring (fs : FileSystem) (files : list Path) (k : str) (f : Path) : Prop :=
  exists a b, files = a ++ f :: b /\ declares fs k f /\
              forall g, In g b -> ~ declares fs k g.

(** Two files that declare the same program, in two spellings *)
Definition twin_a : Path := L "/repo/a/sub.cbl".
Definition twin_b : Path := L "/repo/b/sub.cbl".
Definition twins_repo : FileSystem :=
  table_fs [(twin_a, Ok (unlines ["       PROGRAM-ID. Sub1."%string]));
            (main_path, Ok main_cbl);
            (twin_b, Ok (unlines ["       program-id. SUB1."%string]))].

(** The results of [parse_repo] on the repository of the twins *)
Definition twins_run : dict CobolParser * list CallEdge :=
  Eval vm_compute in
    match parse_repo twins_repo (L "/repo") with
    | Ok r => r
    | Raise _ => ([], [])
    end.

(** * Properties *)

(** ** The matcher against its specification *)

Module ReFacts.
Import Re.

Lemma rep_sound f g a : forall s lo hi p k r,
  rep f g a lo hi p s k = Some r ->
  exists w s', s = w ++ s' /\ Forall (fun c => atom_match f a c = true) w /\
               lo <= List.length w /\ within (List.length w) hi /\
               k (last_char p w) s' = Some r.
Proof.
  induction s as [|c s IH]; intros lo hi p k r H.
  - destruct lo; [|destruct g; simpl in H; discriminate].
    assert (Hk : k p [] = Some r).
    { destruct g; simpl in H; destruct (k p []); congruence. }
    exists [], []. repeat split; auto. destruct hi; simpl; lia.
  - assert (Hmore : (if atom_match f a c && more_allowed hi
                     then rep f g a (pred lo) (option_map pred hi) (Some c) s k
                     else None) = Some r ->
                    exists w s', c :: s = w ++ s' /\
                      Forall (fun c => atom_match f a c = true) w /\
                      lo <= List.length w /\ within (List.length w) hi /\
                      k (last_char p w) s' = Some r).
    { destruct (atom_match f a c) eqn:Ha; simpl; try discriminate.
      destruct (more_allowed hi) eqn:Hm; try discriminate.
      intros H'. apply IH in H' as (w & s' & -> & Hw & Hlo & Hhi & Hk).
      exists (c :: w), s'. repeat split; auto.
      - simpl. lia.
      - destruct hi as [[|h]|]; simpl in *; try discriminate; auto. lia. }
    assert (Hstop : match lo with 0 => k p (c :: s) | S _ => None end = Some r ->
                    exists w s', c :: s = w ++ s' /\
                      Forall (fun c => atom_match f a c = true) w /\
                      lo <= List.length w /\ within (List.length w) hi /\
                      k (last_char p w) s' = Some r).
    { destruct lo; try discriminate. intros H'.
      exists [], (c :: s). repeat split; auto. destruct hi; simpl; lia. }
    destruct g; simpl in H.
    + destruct (if atom_match f a c && more_allowed hi then _ else None) eqn:E.
      * inversion H; subst. auto.
      * auto.
    + destruct (match lo with 0 => _ | S _ => None end) eqn:E.
      * inversion H; subst. auto.
      * auto.
Qed.

Lemma rep_complete f g a : forall w s' lo hi p k r,
  Forall (fun c => atom_match f a c = true) w ->
  lo <= List.length w -> within (List.length w) hi ->
  k (last_char p w) s' = Some r ->
  exists r', rep f g a lo hi p (w ++ s') k = Some r'.
Proof.
  induction w as [|c w IH]; intros s' lo hi p k r Hw Hlo Hhi Hk.
  - simpl in *. assert (lo = 0) by lia. subst lo.
    destruct s' as [|d s']; destruct g; simpl; rewrite ?Hk; eauto.
    + destruct (if atom_match f a d && more_allowed hi then _ else None); eauto.
  - inversion Hw as [|? ? Hc Hw']; subst.
    assert (Hm : more_allowed hi = true).
    { destruct hi as [[|h]|]; simpl in *; auto; lia. }
    assert (Hrec : exists r', rep f g a (pred lo) (option_map pred hi) (Some c) (w ++ s') k = Some r').
    { eapply IH; eauto.
      - simpl in Hlo. lia.
      - destruct hi as [h|]; simpl in *; auto. lia. }
    destruct Hrec as [r' Hr'].
    destruct g; simpl; rewrite Hc, Hm; simpl; rewrite Hr'; eauto.
    destruct (match lo with 0 => _ | S _ => None end); eauto.
Qed.

Theorem m_sound f : forall r st k res,
  m f r st k = Some res -> exists st', matches f r st st' /\ k st' = Some res.
Proof.
  induction r; intros st k res H; simpl in H.
  - eexists; split; [constructor|]; auto.
  - destruct (at_bol f st) eqn:E; try discriminate. eexists; split; [constructor|]; auto.
  - destruct (at_eol f st) eqn:E; try discriminate. eexists; split; [constructor|]; auto.
  - destruct (at_boundary st) eqn:E; try discriminate. eexists; split; [constructor|]; auto.
  - destruct (rest st) as [|c s'] eqn:E; try discriminate.
    destruct (atom_match f a c) eqn:Ha; try discriminate.
    eexists; split; [econstructor; eauto|]; auto.
  - apply rep_sound in H as (w & s' & Hs & Hw & Hlo & Hhi & Hk).
    eexists; split; [econstructor; eauto|]; auto.
  - apply IHr1 in H as (st1 & H1 & H). apply IHr2 in H as (st2 & H2 & H).
    eexists; split; [econstructor; eauto|]; auto.
  - apply IHr in H as (st1 & H1 & H).
    eexists; split; [econstructor; eauto|]; auto.
Qed.

Theorem m_complete f : forall r st st' k res,
  matches f r st st' -> k st' = Some res -> exists res', m f r st k = Some res'.
Proof.
  induction r; intros st st' k res Hm Hk; inversion Hm; subst; simpl;
    repeat match goal with
           | E : _ = true |- _ => rewrite E
           | E : rest _ = _ |- _ => rewrite E
           end; eauto.
  - eapply rep_complete; eauto.
  - match goal with
    | H2 : matches _ r2 _ _ |- _ => destruct (IHr2 _ _ _ _ H2 Hk) as [r2' H2']
    end.
    eapply IHr1; eauto.
Qed.

(** [match_at] succeeds exactly where the pattern can match. *)
Corollary match_at_spec pt p s :
  (exists mo, match_at pt p s = Some mo) <->
  (exists st', matches (fl pt) (re pt) {| prev := p; rest := s; groups := [] |} st').
Proof.
  unfold match_at. split.
  - intros [mo H]. apply m_sound in H as (st' & Hm & _). eauto.
  - intros [st' Hm]. eapply m_complete; eauto.
Qed.

End ReFacts.

(** ** Characters and stripping *)

Lemma all_ascii_complete (c : ascii) : In c all_ascii.
Proof.
  unfold all_ascii. rewrite <- (ascii_nat_embedding c).
  apply in_map, in_seq. pose proof (nat_ascii_bounded c). lia.
Qed.

Lemma every_ascii (P : ascii -> bool) :
  forallb P all_ascii = true -> forall c, P c = true.
Proof.
  intros H c. rewrite forallb_forall in H. apply H, all_ascii_complete.
Qed.

Lemma str_eqb_eq a b : str_eqb a b = true <-> a = b.
Proof. unfold str_eqb. destruct (list_eq_dec ascii_dec a b); split; congruence. Qed.

Lemma str_eqb_refl a : str_eqb a a = true.
Proof. apply str_eqb_eq; reflexivity. Qed.

Lemma str_eqb_neq a b : str_eqb a b = false <-> a <> b.
Proof. unfold str_eqb. destruct (list_eq_dec ascii_dec a b); split; congruence. Qed.

Lemma space_not_word c : isspace c = true -> isword c = false.
Proof.
  intros H. generalize (fun P => every_ascii P) as E; intros E.
  specialize (E (fun c => implb (isspace c) (negb (isword c))) eq_refl c).
  simpl in E. rewrite H in E. simpl in E. now apply negb_true_iff.
Qed.

Lemma lstrip_head c s raw : lstrip raw = c :: s -> isspace c = false.
Proof.
  induction raw as [|d raw IH]; simpl; [discriminate|].
  destruct (isspace d) eqn:E; auto. intros H; inversion H; subst; auto.
Qed.

Lemma lstrip_suffix raw : exists a, raw = a ++ lstrip raw.
Proof.
  induction raw as [|d raw [a IH]]; simpl.
  - exists []; reflexivity.
  - destruct (isspace d).
    + exists (d :: a). simpl. congruence.
    + exists []. reflexivity.
Qed.

Lemma rstrip_prefix raw : exists t, raw = rstrip raw ++ t.
Proof.
  unfold rstrip. destruct (lstrip_suffix (rev raw)) as [a Ha].
  exists (rev a). rewrite <- rev_app_distr, <- Ha, rev_involutive. reflexivity.
Qed.

Lemma lstrip_app a t : lstrip a <> [] -> lstrip (a ++ t) = lstrip a ++ t.
Proof.
  induction a as [|d a IH]; simpl; [congruence|].
  destruct (isspace d); auto.
Qed.

Lemma rstrip_nil_inv x : rstrip x <> [] -> x <> [].
Proof. intros H E; subst; apply H; reflexivity. Qed.

(** A line that is not blank once stripped starts, after its leading
    white space, with its stripped text. *)
Lemma stripped_prefix raw :
  stripped raw <> [] -> exists t, lstrip raw = stripped raw ++ t.
Proof.
  unfold stripped, strip. intros H.
  destruct (rstrip_prefix raw) as [t Ht].
  destruct (rstrip_prefix (lstrip (rstrip raw))) as [t' Ht'].
  assert (Hne : lstrip (rstrip raw) <> []).
  { intros E. rewrite E in H. apply H. reflexivity. }
  exists (t' ++ t). rewrite Ht at 1. rewrite lstrip_app by assumption.
  rewrite Ht' at 1. now rewrite app_assoc.
Qed.

Lemma stripped_head c s raw : stripped raw = c :: s -> isspace c = false.
Proof.
  intros H. destruct (stripped_prefix raw) as [t Ht]; [congruence|].
  rewrite H in Ht. simpl in Ht. eapply lstrip_head; eauto.
Qed.

(** Two ways of cutting a text after a run of characters of a class, each
    followed by a character outside it, are the same way. *)
Lemma span_unique (P : ascii -> bool) : forall w w' c c' r r',
  w ++ c :: r = w' ++ c' :: r' ->
  Forall (fun x => P x = true) w -> Forall (fun x => P x = true) w' ->
  P c = false -> P c' = false ->
  w = w' /\ c = c' /\ r = r'.
Proof.
  induction w as [|x w IH]; intros [|x' w'] c c' r r' E Hw Hw' Hc Hc'; simpl in E.
  - inversion E; auto.
  - inversion E; subst. inversion Hw'; subst. congruence.
  - inversion E; subst. inversion Hw; subst. congruence.
  - inversion E; subst. inversion Hw; inversion Hw'; subst.
    destruct (IH _ _ _ _ _ H1) as (-> & -> & ->); auto.
Qed.

(** ** What the patterns accept *)

Section Shapes.
Import Re ReFacts.

Ltac inv_matches :=
  unfold star, plus, opt, exactly, lazy_star, dot_ in *;
  repeat (match goal with
          | H : matches _ (RSeq _ _) _ _ |- _ => inversion H; clear H
          | H : matches _ (RGroup _ _) _ _ |- _ => inversion H; clear H
          | H : matches _ (RAtom _) _ _ |- _ => inversion H; clear H
          | H : matches _ (RRep _ _ _ _) _ _ |- _ => inversion H; clear H
          | H : matches _ RBol _ _ |- _ => inversion H; clear H
          | H : matches _ REol _ _ |- _ => inversion H; clear H
          | H : matches _ RWordB _ _ |- _ => inversion H; clear H
          | H : matches _ REps _ _ |- _ => inversion H; clear H
          end; subst; cbn [rest prev groups] in *; subst).

Lemma match_sound pt s mo :
  match_ pt s = Some mo ->
  matches (fl pt) (re pt) {| prev := None; rest := s; groups := [] |} mo.
Proof.
  unfold match_, match_at. intros H.
  apply m_sound in H as (st' & Hm & Hk). now inversion Hk; subst.
Qed.

Lemma wh_of_space c : isspace c = true -> atom_match I wh_ c = false.
Proof.
  intros H.
  pose proof (every_ascii (fun c => implb (isspace c) (negb (atom_match I wh_ c))) eq_refl c) as E.
  simpl in E. rewrite H in E. now apply negb_true_iff.
Qed.

Lemma wh_of_word c : isword c = true -> atom_match I wh_ c = true.
Proof. intros H. simpl. now rewrite H. Qed.

Lemma space_set c f : atom_match f s_ c = isspace c.
Proof. simpl. now rewrite orb_false_r. Qed.

Lemma digit_set c f : atom_match f d_ c = isdigit c.
Proof. simpl. now rewrite orb_false_r. Qed.

(** A character matched by a letter or the hyphen of the keyword is a
    character of the set of [\w] and [-]; one matched by the dot is
    neither in that set nor white space. *)
Lemma keyword_char k c :
  In k (L "PROGRAM-ID") -> lit_match IM k c = true -> atom_match I wh_ c = true.
Proof.
  intros Hk H.
  pose proof (every_ascii
    (fun c => forallb (fun k => implb (lit_match IM k c) (atom_match I wh_ c))
                      (L "PROGRAM-ID")) eq_refl c) as E.
  rewrite forallb_forall in E. specialize (E k Hk). rewrite H in E. exact E.
Qed.

Lemma dot_char c :
  lit_match IM "." c = true -> atom_match I wh_ c = false /\ isspace c = false.
Proof.
  intros H.
  pose proof (every_ascii
    (fun c => implb (lit_match IM "." c)
                    (negb (atom_match I wh_ c) && negb (isspace c))) eq_refl c) as E.
  simpl in E. simpl in H. rewrite H in E. simpl in E.
  apply andb_true_iff in E as [E1 E2]. split; now apply negb_true_iff.
Qed.

Lemma p_char c : lit_match IM "P" c = true -> isspace c = false /\ c <> "*"%char.
Proof.
  intros H.
  pose proof (every_ascii
    (fun c => implb (lit_match IM "P" c)
                    (negb (isspace c) && negb (Ascii.eqb c "*"))) eq_refl c) as E.
  simpl in E. simpl in H. rewrite H in E. simpl in E.
  apply andb_true_iff in E as [E1 E2]. split; [now apply negb_true_iff|].
  intros ->. discriminate.
Qed.

Lemma space_not_star c : isspace c = true -> c <> "*"%char.
Proof. intros H ->. discriminate. Qed.

Lemma Forall_space w f :
  Forall (fun c => atom_match f s_ c = true) w -> Forall (fun c => isspace c = true) w.
Proof. apply Forall_impl. intros c. now rewrite space_set. Qed.

(** A text accepted by the PROGRAM-ID pattern: white space, the keyword,
    a dot. *)
Lemma progid_shape s mo :
  match_ _PROGID_RE s = Some mo ->
  exists w0 p kw d tl,
    s = w0 ++ (p :: kw) ++ d :: tl /\
    Forall (fun c => isspace c = true) w0 /\
    lit_match IM "P" p = true /\
    Forall (fun c => atom_match I wh_ c = true) (p :: kw) /\
    lit_match IM "." d = true.
Proof.
  intros H. apply match_sound in H.
  cbn [_PROGID_RE re fl seq lit L list_ascii_of_string map] in H.
  inv_matches.
  match goal with
  | |- exists _ _ _ _ _, ?w ++ ?p :: ?c1 :: ?c2 :: ?c3 :: ?c4 :: ?c5 :: ?c6 :: ?c7 :: ?c8 :: ?c9 :: ?d :: ?tl = _ /\ _ =>
      exists w, p, [c1; c2; c3; c4; c5; c6; c7; c8; c9], d, tl
  end.
  repeat split; auto.
  - now apply Forall_space with (f := IM).
  - repeat constructor;
      match goal with
      | H : atom_match IM (ALit ?k) ?c = true |- atom_match I wh_ ?c = true =>
          apply (@keyword_char k c); [simpl; tauto | exact H]
      end.
Qed.

Ltac header_shape_tac :=
  match goal with
  | Hlen : 1 <= List.length ?w0
    |- header_shape (?w1 ++ ?c :: ?w ++ ?w0 ++ ?tl) =>
      destruct w0 as [|sp w0']; [simpl in Hlen; lia|];
      exists w1, c, w, sp, (w0' ++ tl)
  end;
  repeat match goal with
         | H : Forall (fun c => atom_match _ s_ c = true) _ |- _ =>
             apply Forall_space in H
         end;
  match goal with
  | H : atom_match I w_ ?c = true |- _ => simpl in H; rewrite orb_false_r in H
  end;
  match goal with
  | H : Forall _ (_ :: _) |- _ => inversion H; subst
  end;
  repeat split; auto using wh_of_word.

Lemma div_shape s mo : match_ _DIV_RE s = Some mo -> header_shape s.
Proof.
  intros H. apply match_sound in H.
  cbn [_DIV_RE re fl seq lit L list_ascii_of_string map] in H.
  inv_matches. header_shape_tac.
Qed.

Lemma sec_shape s mo : match_ _SEC_RE s = Some mo -> header_shape s.
Proof.
  intros H. apply match_sound in H.
  cbn [_SEC_RE re fl seq lit L list_ascii_of_string map] in H.
  inv_matches. header_shape_tac.
Qed.

(** No text is accepted both by the PROGRAM-ID pattern and by the
    division or section pattern: the first has a dot where the others
    have white space. *)
Lemma progid_not_header s mo : match_ _PROGID_RE s = Some mo -> ~ header_shape s.
Proof.
  intros H (v0 & x & v1 & sp & tl & E & Hv0 & Hx & Hv1 & Hsp).
  apply progid_shape in H as (w0 & p & kw & d & tl' & E' & Hw0 & Hp & Hkw & Hd).
  rewrite E' in E. simpl in E.
  destruct (@p_char _ Hp) as [Hps _].
  apply (span_unique isspace) in E as (-> & -> & E); auto.
  2:{ destruct (isspace x) eqn:Ex; auto. apply space_not_word in Ex. congruence. }
  destruct (@dot_char _ Hd) as [Hdw Hds].
  assert (E2 : (x :: kw) ++ d :: tl' = (x :: v1) ++ sp :: tl) by (simpl; congruence).
  apply (span_unique (atom_match I wh_)) in E2 as (_ & -> & _); auto.
  - congruence.
  - now apply wh_of_space.
Qed.

Lemma declared_not_division raw i : declared_id raw = Some i -> division_of raw = None.
Proof.
  unfold declared_id, division_of. intros H.
  destruct (match_ _PROGID_RE (stripped raw)) as [mo|] eqn:E; [|discriminate].
  destruct (skipped raw); auto.
  destruct (match_ _DIV_RE (stripped raw)) as [mo'|] eqn:E'; auto.
  exfalso. eapply progid_not_header; eauto using div_shape.
Qed.

Lemma declared_not_section raw i : declared_id raw = Some i -> section_of raw = None.
Proof.
  unfold declared_id, section_of. intros H.
  destruct (match_ _PROGID_RE (stripped raw)) as [mo|] eqn:E; [|discriminate].
  destruct (skipped raw); auto. destruct (division_of raw); auto.
  destruct (match_ _SEC_RE (stripped raw)) as [mo'|] eqn:E'; auto.
  exfalso. eapply progid_not_header; eauto using sec_shape.
Qed.

(** A declaration line is neither a comment nor blank. *)
Lemma declared_not_skipped raw i : declared_id raw = Some i -> skipped raw = false.
Proof.
  unfold declared_id, skipped. intros H.
  destruct (match_ _PROGID_RE (stripped raw)) as [mo|] eqn:E; [|discriminate].
  apply progid_shape in E as (w0 & p & kw & d & tl' & E' & Hw0 & Hp & Hkw & Hd).
  destruct (stripped_prefix raw) as [t Ht].
  { rewrite E'. destruct w0; discriminate. }
  rewrite E'. rewrite E' in Ht.
  assert (Hhd : exists c r, lstrip raw = c :: r /\ c <> "*"%char).
  { destruct w0 as [|c w0]; simpl in Ht.
    - exists p. eexists. split; eauto. now apply p_char.
    - exists c. eexists. split; eauto. inversion Hw0; subst. now apply space_not_star. }
  destruct Hhd as (c & r & -> & Hc).
  assert (Ec : Ascii.eqb "*" c = false).
  { apply Ascii.eqb_neq. congruence. }
  unfold startswith_any, _COMMENT, L.
  cbn [existsb startswith list_ascii_of_string]. rewrite Ec. cbn [andb orb].
  destruct w0; reflexivity.
Qed.
End Shapes.

Section Levels.
Import Re ReFacts.

Lemma consumed_app p g p' g' (w s' : str) :
  consumed {| prev := p; rest := w ++ s'; groups := g |}
           {| prev := p'; rest := s'; groups := g' |} = w.
Proof.
  unfold consumed. cbn [rest]. rewrite length_app.
  replace (List.length w + List.length s' - List.length s') with (List.length w) by lia.
  rewrite firstn_app, Nat.sub_diag, firstn_all. simpl. apply app_nil_r.
Qed.

Lemma digit_value c : isdigit c = true -> code c - 48 <= 9.
Proof.
  unfold isdigit, in_range. intros H. apply andb_true_iff in H as [_ H].
  apply Nat.leb_le in H. lia.
Qed.

Lemma py_int_two_digits a b :
  isdigit a = true -> isdigit b = true ->
  exists lv, py_int [a; b] = Some lv /\ lv <= 99.
Proof.
  intros Ha Hb. unfold py_int, int_digits. rewrite Ha, Hb.
  eexists; split; [reflexivity|].
  pose proof (digit_value a Ha). pose proof (digit_value b Hb). lia.
Qed.

(** The first group of the data-item pattern is two digits, so its level
    is a number of at most two digits. *)
Lemma var_level s mo :
  match_ _VAR_RE s = Some mo ->
  exists lv, py_int (group mo 1) = Some lv /\ lv <= 99.
Proof.
  intros H. apply match_sound in H.
  cbn [_VAR_RE re fl seq lit L list_ascii_of_string map] in H.
  unfold star, plus, opt, exactly, lazy_star, dot_ in *.
  repeat (match goal with
          | H : matches _ (RSeq _ _) _ _ |- _ => inversion H; clear H
          | H : matches _ (RGroup _ _) _ _ |- _ => inversion H; clear H
          | H : matches _ (RAtom _) _ _ |- _ => inversion H; clear H
          | H : matches _ (RRep _ _ _ _) _ _ |- _ => inversion H; clear H
          | H : matches _ RBol _ _ |- _ => inversion H; clear H
          | H : matches _ RWordB _ _ |- _ => inversion H; clear H
          end; subst; cbn [rest prev groups] in *; subst).
  unfold group. cbn [groups].
  repeat rewrite consumed_app.
  cbn [set_group get_group Nat.eqb].
  match goal with
  | H : Forall (fun c => atom_match I d_ c = true) ?w |- exists lv, py_int ?w = _ /\ _ =>
      destruct w as [|a [|b [|c' w']]];
      cbn [List.length within] in *; try lia;
      inversion H as [|? ? Ha Hr]; subst; inversion Hr as [|? ? Hb Hr']; subst;
      rewrite digit_set in Ha, Hb
  end.
  now apply py_int_two_digits.
Qed.
End Levels.

(** ** One line of the loop *)

Section Lines.

Lemma skipped_division raw : skipped raw = true -> division_of raw = None.
Proof. unfold division_of. now intros ->. Qed.

Lemma skipped_section raw : skipped raw = true -> section_of raw = None.
Proof. unfold section_of. now intros ->. Qed.

Lemma skipped_declared raw : skipped raw = true -> declared_id raw = None.
Proof.
  intros H. destruct (declared_id raw) eqn:E; auto.
  apply declared_not_skipped in E. congruence.
Qed.

Lemma section_not_division raw s : section_of raw = Some s -> division_of raw = None.
Proof.
  unfold section_of. destruct (skipped raw) eqn:E.
  - discriminate.
  - destruct (division_of raw); [discriminate|auto].
Qed.

(** The loop body, rule by rule, in the vocabulary of the statements *)
Lemma parse_line_eq st lineno raw :
  parse_line st (lineno, raw) =
  if skipped raw then Ok st else
  match division_of raw with
  | Some d =>
      Ok {| self := if negb (str_in d (divisions (self st)))
                    then set_divisions (divisions (self st) ++ [d]) (self st)
                    else self st;
            div := Some d; sec := None; para := None |}
  | None =>
  match section_of raw with
  | Some s => Ok {| self := self st; div := div st; sec := Some s; para := para st |}
  | None =>
  match declared_id raw with
  | Some i => Ok (with_self (set_program_id i (self st)) st)
  | None =>
  match data_item_match st (stripped raw) with
  | Some (s, mo) =>
      match py_int (Re.group mo 1) with
      | Some lv =>
          Ok (with_self
                (set_data_sections
                   (dd_append s {| level := lv; name := Re.group mo 2;
                                   pic := Re.group mo 3 |}
                              (data_sections (self st)))
                   (self st)) st)
      | None => Raise ValueError
      end
  | None =>
  if is_str (div st) "PROCEDURE" then
    match Re.match_ _PAR_RE (stripped raw) with
    | Some mo =>
        Ok {| self := set_paragraphs
                        (dict_set (Re.group mo 1) {| statements := [] |}
                                  (paragraphs (self st))) (self st);
              div := div st; sec := sec st; para := Some (Re.group mo 1) |}
    | None =>
        match para st with
        | None => Ok st
        | Some p =>
            o1 <- detect_call lineno (stripped raw) p (self st) ;;
            o2 <- detect_perform lineno (stripped raw) p o1 ;;
            Ok (with_self o2 st)
        end
    end
  else Ok st
  end end end end.
Proof.
  unfold parse_line, section_of, division_of, declared_id, skipped.
  change (strip (rstrip raw)) with (stripped raw).
  destruct (startswith_any (lstrip raw) _COMMENT); [reflexivity|].
  cbn [orb].
  destruct (stripped raw) as [|c s] eqn:Es; [reflexivity|].
  destruct (Re.match_ _DIV_RE (c :: s)); [reflexivity|].
  destruct (Re.match_ _SEC_RE (c :: s)); [reflexivity|].
  destruct (Re.match_ _PROGID_RE (c :: s)); reflexivity.
Qed.

Lemma taken_early_false raw :
  skipped raw = false -> division_of raw = None -> section_of raw = None ->
  declared_id raw = None -> taken_early raw = false.
Proof. unfold taken_early. now intros -> -> -> ->. Qed.

Lemma taken_early_inv raw :
  taken_early raw = false ->
  skipped raw = false /\ division_of raw = None /\ section_of raw = None /\
  declared_id raw = None.
Proof.
  unfold taken_early. destruct (skipped raw); [discriminate|].
  destruct (division_of raw), (section_of raw), (declared_id raw);
    try discriminate; auto.
Qed.

Lemma is_str_eq v s : is_str v s = true <-> v = Some (L s).
Proof.
  unfold is_str. destruct v as [x|]; [|split; discriminate].
  rewrite str_eqb_eq. split; congruence.
Qed.

Lemma data_not_procedure st :
  is_str (div st) "DATA" = true -> is_str (div st) "PROCEDURE" = false.
Proof.
  rewrite is_str_eq. intros ->. reflexivity.
Qed.

Lemma data_item_match_inv st s x mo :
  data_item_match st s = Some (x, mo) ->
  div st = Some (L "DATA") /\ sec st = Some x /\ x <> [] /\
  Re.match_ _VAR_RE s = Some mo.
Proof.
  unfold data_item_match. destruct (is_str (div st) "DATA") eqn:Ed; [|discriminate].
  apply is_str_eq in Ed. destruct (sec st) as [[|c y]|]; try discriminate.
  destruct (Re.match_ _VAR_RE s); [|discriminate].
  intros H; inversion H; subst. repeat split; auto. discriminate.
Qed.

Lemma procedure_no_data_item st s :
  is_str (div st) "PROCEDURE" = true -> data_item_match st s = None.
Proof.
  unfold data_item_match. rewrite is_str_eq. intros ->. reflexivity.
Qed.

(** A paragraph header opens its paragraph with no statement. *)
Lemma parse_line_paragraph st lineno raw p :
  paragraph_header st raw = Some p ->
  parse_line st (lineno, raw) =
  Ok {| self := set_paragraphs (dict_set p {| statements := [] |} (paragraphs (self st)))
                               (self st);
        div := div st; sec := sec st; para := Some p |}.
Proof.
  unfold paragraph_header. destruct (taken_early raw) eqn:Et; [discriminate|].
  destruct (taken_early_inv _ Et) as (Hs & Hd & Hc & Hi).
  destruct (is_str (div st) "PROCEDURE") eqn:Ep; [|discriminate].
  destruct (Re.match_ _PAR_RE (stripped raw)) as [mo|] eqn:Em; [|discriminate].
  intros H; inversion H; subst.
  rewrite parse_line_eq, Hs, Hd, Hc, Hi, procedure_no_data_item, Ep, Em by assumption.
  reflexivity.
Qed.

(** A statement line goes through the two detections, in this order. *)
Lemma parse_line_statement st lineno raw p :
  statement_line st raw = Some p ->
  parse_line st (lineno, raw) =
  (o1 <- detect_call lineno (stripped raw) p (self st) ;;
   o2 <- detect_perform lineno (stripped raw) p o1 ;;
   Ok (with_self o2 st)).
Proof.
  unfold statement_line. destruct (taken_early raw) eqn:Et; [discriminate|].
  destruct (taken_early_inv _ Et) as (Hs & Hd & Hc & Hi).
  destruct (is_str (div st) "PROCEDURE") eqn:Ep; [|discriminate].
  destruct (Re.match_ _PAR_RE (stripped raw)) as [mo|] eqn:Em; [discriminate|].
  intros H.
  rewrite parse_line_eq, Hs, Hd, Hc, Hi, procedure_no_data_item, Ep, Em, H by assumption.
  reflexivity.
Qed.

(** Every turn of the loop that returns is one of the steps. *)
Lemma parse_line_step st lineno raw st' :
  parse_line st (lineno, raw) = Ok st' -> line_step st lineno raw st'.
Proof.
  rewrite parse_line_eq.
  destruct (skipped raw) eqn:Hs.
  { intros H; inversion H; subst.
    apply step_ignored; auto using skipped_division, skipped_section, skipped_declared.
    - unfold paragraph_header, taken_early. now rewrite Hs.
    - unfold statement_line, taken_early. now rewrite Hs. }
  destruct (division_of raw) as [d|] eqn:Hd.
  { intros H; inversion H; subst. now apply step_division. }
  destruct (section_of raw) as [s|] eqn:Hc.
  { intros H; inversion H; subst. now apply step_section. }
  destruct (declared_id raw) as [i|] eqn:Hi.
  { intros H; inversion H; subst. now apply step_program_id. }
  pose proof (taken_early_false _ Hs Hd Hc Hi) as Et.
  destruct (data_item_match st (stripped raw)) as [[s mo]|] eqn:Hm.
  { apply data_item_match_inv in Hm as (Hdiv & Hsec & Hne & Hv).
    destruct (py_int (Re.group mo 1)) as [lv|] eqn:Hl; [|discriminate].
    intros H; inversion H; subst.
    apply step_data_item; auto.
    unfold data_item_of. now rewrite Hv, Hl. }
  destruct (is_str (div st) "PROCEDURE") eqn:Ep.
  - destruct (Re.match_ _PAR_RE (stripped raw)) as [mo|] eqn:Em.
    + intros H; inversion H; subst. apply step_paragraph.
      unfold paragraph_header. now rewrite Et, Ep, Em.
    + destruct (para st) as [p|] eqn:Epara.
      * destruct (detect_call lineno (stripped raw) p (self st)) as [o1|] eqn:E1;
          [|discriminate].
        cbn [bind].
        destruct (detect_perform lineno (stripped raw) p o1) as [o2|] eqn:E2;
          [|discriminate].
        cbn [bind]. intros H; inversion H; subst.
        eapply step_statement; eauto.
        unfold statement_line. now rewrite Et, Ep, Em.
      * intros H; inversion H; subst. apply step_ignored; auto.
        -- unfold paragraph_header. now rewrite Et, Ep, Em.
        -- unfold statement_line. now rewrite Et, Ep, Em.
  - intros H; inversion H; subst. apply step_ignored; auto.
    + unfold paragraph_header. now rewrite Et, Ep.
    + unfold statement_line. now rewrite Et, Ep.
Qed.

End Lines.

(** ** Dictionaries *)

Section Dicts.
Context {V : Type}.

Lemma dict_get_set_same k (v : V) d : dict_get k (dict_set k v d) = Some v.
Proof.
  induction d as [|[k' v'] d IH]; simpl.
  - now rewrite str_eqb_refl.
  - destruct (str_eqb k' k) eqn:E; simpl; rewrite ?str_eqb_refl, ?E; auto.
Qed.

Lemma dict_get_set_other k k' (v : V) d :
  k <> k' -> dict_get k' (dict_set k v d) = dict_get k' d.
Proof.
  intros Hne. induction d as [|[k0 v0] d IH]; simpl.
  - apply str_eqb_neq in Hne. now rewrite Hne.
  - destruct (str_eqb k0 k) eqn:E; simpl.
    + apply str_eqb_eq in E; subst k0.
      apply str_eqb_neq in Hne. now rewrite Hne.
    + destruct (str_eqb k0 k'); auto.
Qed.

Lemma dict_get_set k k' (v : V) d :
  dict_get k' (dict_set k v d) = if str_eqb k k' then Some v else dict_get k' d.
Proof.
  destruct (str_eqb k k') eqn:E.
  - apply str_eqb_eq in E; subst. apply dict_get_set_same.
  - apply str_eqb_neq in E. now apply dict_get_set_other.
Qed.

Lemma dict_get_In k (v : V) d : dict_get k d = Some v -> In (k, v) d.
Proof.
  induction d as [|[k' v'] d IH]; simpl; [discriminate|].
  destruct (str_eqb k' k) eqn:E.
  - apply str_eqb_eq in E; subst. intros H; inversion H; auto.
  - auto.
Qed.

Lemma dict_get_fresh k d : ~ In k (dict_keys d) -> dict_get k d = @None V.
Proof.
  induction d as [|[k' v'] d IH]; simpl; auto.
  intros H. destruct (str_eqb k' k) eqn:E.
  - apply str_eqb_eq in E. tauto.
  - tauto.
Qed.

Lemma dict_set_fresh k (v : V) d :
  ~ In k (dict_keys d) -> dict_set k v d = d ++ [(k, v)].
Proof.
  induction d as [|[k' v'] d IH]; simpl; auto.
  intros H. destruct (str_eqb k' k) eqn:E.
  - apply str_eqb_eq in E. tauto.
  - rewrite IH; tauto.
Qed.
End Dicts.

(** ** The two detections *)

Section Detections.

Lemma dict_set_same_value {V} k (v : V) d :
  dict_get k d = Some v -> dict_set k v d = d.
Proof.
  induction d as [|[k' v'] d IH]; simpl; [discriminate|].
  destruct (str_eqb k' k) eqn:E.
  - apply str_eqb_eq in E; subst. intros H; inversion H; auto.
  - intros H. now rewrite IH.
Qed.

Lemma dict_set_twice {V} k (v w : V) d :
  dict_set k w (dict_set k v d) = dict_set k w d.
Proof.
  induction d as [|[k' v'] d IH]; simpl.
  - now rewrite str_eqb_refl.
  - destruct (str_eqb k' k) eqn:E; simpl; rewrite ?str_eqb_refl, ?E, ?IH; auto.
Qed.

Lemma extends_refl lineno p o pg :
  dict_get p (paragraphs o) = Some pg -> extends lineno p o o.
Proof.
  intros H. split; auto.
  exists pg, []. repeat split; auto.
  - rewrite app_nil_r. destruct pg. symmetry. now apply dict_set_same_value.
  - simpl. now rewrite app_nil_r.
Qed.

Lemma extends_trans lineno p o1 o2 o3 :
  extends lineno p o1 o2 -> extends lineno p o2 o3 -> extends lineno p o1 o3.
Proof.
  intros [A1 A2 A3 A4 (pg1 & n1 & G1 & F1 & E1 & C1)]
         [B1 B2 B3 B4 (pg2 & n2 & G2 & F2 & E2 & C2)].
  split; try congruence.
  exists pg1, (n1 ++ n2). repeat split; auto.
  - apply Forall_app; auto.
  - rewrite E1, dict_get_set_same in G2. inversion G2; subst pg2.
    rewrite E2, E1. cbn [statements]. rewrite dict_set_twice.
    now rewrite app_assoc.
  - rewrite C2, C1, A1, filter_app, map_app. now rewrite app_assoc.
Qed.

Lemma detect_call_ok lineno s p o pg :
  dict_get p (paragraphs o) = Some pg ->
  exists o', detect_call lineno s p o = Ok o' /\ extends lineno p o o'.
Proof.
  intros Hg. unfold detect_call.
  destruct (Re.search _CALL_RE s) as [mo|].
  - unfold append_statement. rewrite Hg. cbn [bind].
    eexists; split; [reflexivity|]. split; cbn; auto.
    exists pg, [{| type := CALL; target := Re.group mo 1; line := lineno |}].
    repeat split; auto.
  - exists o; split; auto. eapply extends_refl; eauto.
Qed.

Lemma detect_perform_ok lineno s p o pg :
  dict_get p (paragraphs o) = Some pg ->
  exists o', detect_perform lineno s p o = Ok o' /\ extends lineno p o o'.
Proof.
  intros Hg. unfold detect_perform.
  destruct (Re.search _PERF_RE s) as [mo|].
  - unfold append_statement. rewrite Hg. cbn [bind].
    eexists; split; [reflexivity|]. split; cbn; auto.
    exists pg, [{| type := PERFORM; target := Re.group mo 1; line := lineno |}].
    repeat split; auto. cbn. now rewrite app_nil_r.
  - exists o; split; auto. eapply extends_refl; eauto.
Qed.

(** A detection that returns found the open paragraph in the dictionary. *)
Lemma detect_call_inv lineno s p o o' :
  detect_call lineno s p o = Ok o' ->
  o' = o \/ exists pg, dict_get p (paragraphs o) = Some pg.
Proof.
  unfold detect_call. destruct (Re.search _CALL_RE s); [|intros H; inversion H; auto].
  unfold append_statement. destruct (dict_get p (paragraphs o)) eqn:E; [|discriminate].
  eauto.
Qed.

Lemma detect_perform_inv lineno s p o o' :
  detect_perform lineno s p o = Ok o' ->
  o' = o \/ exists pg, dict_get p (paragraphs o) = Some pg.
Proof.
  unfold detect_perform. destruct (Re.search _PERF_RE s); [|intros H; inversion H; auto].
  unfold append_statement. destruct (dict_get p (paragraphs o)) eqn:E; [|discriminate].
  eauto.
Qed.

End Detections.

(** ** The loop *)

Section Loop.

Lemma parse_lines_app st a b :
  parse_lines st (a ++ b) = (st1 <- parse_lines st a ;; parse_lines st1 b).
Proof.
  revert st. induction a as [|ln a IH]; intros st; cbn [parse_lines app]; auto.
  destruct (parse_line st ln); cbn [bind]; auto.
Qed.

Lemma detections_extend lineno s p o o1 o2 :
  detect_call lineno s p o = Ok o1 ->
  detect_perform lineno s p o1 = Ok o2 ->
  o2 = o \/ extends lineno p o o2.
Proof.
  intros H1 H2.
  destruct (dict_get p (paragraphs o)) as [pg|] eqn:Eg.
  - right.
    destruct (detect_call_ok lineno s p o _ Eg) as (o1' & E1 & X1).
    rewrite H1 in E1; inversion E1; subst o1'.
    destruct X1 as [? ? ? ? (pg1 & n1 & G1 & F1 & P1 & C1)] eqn:EX.
    assert (Eg1 : dict_get p (paragraphs o1) = Some {| statements := statements pg1 ++ n1 |}).
    { rewrite P1. apply dict_get_set_same. }
    destruct (detect_perform_ok lineno s p o1 _ Eg1) as (o2' & E2 & X2).
    rewrite H2 in E2; inversion E2; subst o2'.
    eapply extends_trans; eauto.
  - left.
    apply detect_call_inv in H1 as [->|[pg Hpg]]; [|congruence].
    apply detect_perform_inv in H2 as [->|[pg Hpg]]; [|congruence].
    reflexivity.
Qed.

Lemma parse_line_total st lineno raw :
  para_known st ->
  exists st', parse_line st (lineno, raw) = Ok st' /\ para_known st'.
Proof.
  intros Hk. rewrite parse_line_eq.
  destruct (skipped raw); [eauto|].
  destruct (division_of raw); [eexists; split; [reflexivity|]; intros p; discriminate|].
  destruct (section_of raw); [eexists; split; [reflexivity|]; exact Hk|].
  destruct (declared_id raw); [eexists; split; [reflexivity|]; exact Hk|].
  destruct (data_item_match st (stripped raw)) as [[s mo]|] eqn:Em.
  { apply data_item_match_inv in Em as (_ & _ & _ & Hv).
    destruct (var_level _ _ Hv) as (lv & -> & _).
    eexists; split; [reflexivity|]; exact Hk. }
  destruct (is_str (div st) "PROCEDURE"); [|eauto].
  destruct (Re.match_ _PAR_RE (stripped raw)) as [mo|].
  { eexists; split; [reflexivity|]. intros p H; inversion H; subst.
    cbn. rewrite dict_get_set_same. eauto. }
  destruct (para st) as [p|] eqn:Ep; [|eauto].
  destruct (Hk p Ep) as [pg Hpg].
  destruct (detect_call_ok lineno (stripped raw) p (self st) _ Hpg) as (o1 & -> & X1).
  cbn [bind].
  destruct X1 as [? ? ? ? (pg1 & n1 & G1 & F1 & P1 & C1)] eqn:EX.
  assert (Eg1 : dict_get p (paragraphs o1) = Some {| statements := statements pg1 ++ n1 |}).
  { rewrite P1. apply dict_get_set_same. }
  destruct (detect_perform_ok lineno (stripped raw) p o1 _ Eg1) as (o2 & -> & X2).
  cbn [bind]. eexists; split; [reflexivity|].
  intros q Hq. cbn in Hq. rewrite Ep in Hq. inversion Hq; subst q.
  destruct X2 as [? ? ? ? (pg2 & n2 & G2 & F2 & P2 & C2)].
  cbn. rewrite P2, dict_get_set_same. eauto.
Qed.

Lemma parse_lines_total lns : forall st,
  para_known st ->
  exists st', parse_lines st lns = Ok st' /\ para_known st'.
Proof.
  induction lns as [|[n raw] lns IH]; intros st Hk; cbn [parse_lines]; [eauto|].
  destruct (parse_line_total st n raw Hk) as (st1 & -> & Hk1).
  cbn [bind]. auto.
Qed.

(** [parse] raises nothing once the file is read. *)
Lemma parse_text_total o text : exists o', parse_text o text = Ok o'.
Proof.
  unfold parse_text.
  destruct (parse_lines_total (numbered_lines text) (start o)) as (st' & -> & _).
  - intros p; discriminate.
  - cbn [bind]. eauto.
Qed.

Lemma parse_text_inv o text o' :
  parse_text o text = Ok o' ->
  exists st', parse_lines (start o) (numbered_lines text) = Ok st' /\ o' = self st'.
Proof.
  unfold parse_text. destruct (parse_lines _ _) as [st'|]; [|discriminate].
  cbn [bind]. intros H; inversion H; eauto.
Qed.

Lemma paragraph_header_early st raw p :
  paragraph_header st raw = Some p -> taken_early raw = false.
Proof. unfold paragraph_header. destruct (taken_early raw); [discriminate|auto]. Qed.

Lemma statement_line_early st raw p :
  statement_line st raw = Some p -> taken_early raw = false.
Proof. unfold statement_line. destruct (taken_early raw); [discriminate|auto]. Qed.

Lemma statement_line_para st raw p : statement_line st raw = Some p -> para st = Some p.
Proof.
  unfold statement_line. destruct (taken_early raw); [discriminate|].
  destruct (is_str (div st) "PROCEDURE"); [|discriminate].
  destruct (Re.match_ _PAR_RE (stripped raw)); [discriminate|auto].
Qed.

(** What kind of header a line is, whichever rule took it *)
Lemma line_step_headers st n raw st' :
  line_step st n raw st' ->
  div st' = next_div (div st) raw /\
  sec st' = next_sec (sec st) raw /\
  path (self st') = path (self st) /\
  program_id (self st') =
    match declared_id raw with Some i => i | None => program_id (self st) end /\
  divisions (self st') =
    match division_of raw with
    | Some d => if str_in d (divisions (self st)) then divisions (self st)
                else divisions (self st) ++ [d]
    | None => divisions (self st)
    end.
Proof.
  unfold next_div, next_sec.
  destruct 1 as [d Hd|s Hd Hs|i Hd Hs Hi|s item Ht|p Hp|p o1 o2 Hp H1 H2|Hd Hs Hi _ _].
  - rewrite Hd. cbn.
    destruct (declared_id raw) as [i|] eqn:Ei.
    { apply declared_not_division in Ei. congruence. }
    destruct (str_in d (divisions (self st))); cbn; auto.
  - rewrite Hd, Hs. cbn.
    destruct (declared_id raw) as [i|] eqn:Ei.
    { apply declared_not_section in Ei. congruence. }
    auto.
  - rewrite Hd, Hs, Hi. cbn. auto.
  - destruct (taken_early_inv _ Ht) as (_ & -> & -> & ->). cbn. auto.
  - destruct (taken_early_inv _ (paragraph_header_early _ _ _ Hp)) as (_ & -> & -> & ->).
    cbn. auto.
  - destruct (taken_early_inv _ (statement_line_early _ _ _ Hp)) as (_ & -> & -> & ->).
    cbn.
    destruct (detections_extend _ _ _ _ _ _ H1 H2) as [->|[]]; auto.
  - rewrite Hd, Hs, Hi. auto.
Qed.

(** Edges are only ever added, at the end. *)
Lemma line_step_calls st n raw st' :
  line_step st n raw st' -> exists es, calls (self st') = calls (self st) ++ es.
Proof.
  destruct 1 as [d Hd|s Hd Hs|i Hd Hs Hi|s item Ht|p Hp|p o1 o2 Hp H1 H2|Hd Hs Hi _ _];
    cbn; try (exists []; now rewrite app_nil_r).
  - destruct (str_in d (divisions (self st))); cbn; exists []; now rewrite app_nil_r.
  - destruct (detections_extend _ _ _ _ _ _ H1 H2)
      as [->|[? ? ? ? (pg & new & _ & _ & _ & C)]]; eauto.
    exists []; now rewrite app_nil_r.
Qed.

(** The data sections change only by a data item recorded in the open
    section of the data division. *)
Lemma line_step_data st n raw st' :
  line_step st n raw st' ->
  data_sections (self st') = data_sections (self st) \/
  exists s item,
    div st = Some (L "DATA") /\ sec st = Some s /\ data_item_of raw = Some item /\
    data_sections (self st') = dd_append s item (data_sections (self st)).
Proof.
  destruct 1 as [d Hd|s Hd Hs|i Hd Hs Hi|s item Ht Hdiv Hsec Hne Hitem|p Hp
                |p o1 o2 Hp H1 H2|Hd Hs Hi _ _]; cbn; auto.
  - destruct (str_in d (divisions (self st))); cbn; auto.
  - right. exists s, item. auto.
  - destruct (detections_extend _ _ _ _ _ _ H1 H2) as [->|[]]; auto.
Qed.

(** The paragraphs and the edges change only by a header, which opens
    an empty paragraph, or by statements of the current line added to
    the open paragraph, with the edges of the CALL statements among
    them. *)
Lemma line_step_procedure st n raw st' :
  line_step st n raw st' ->
  (paragraphs (self st') = paragraphs (self st) /\
   calls (self st') = calls (self st)) \/
  (exists p, paragraph_header st raw = Some p /\
             paragraphs (self st') =
             dict_set p {| statements := [] |} (paragraphs (self st)) /\
             calls (self st') = calls (self st)) \/
  (exists p pg new,
      statement_line st raw = Some p /\
      dict_get p (paragraphs (self st)) = Some pg /\
      Forall (fun s => line s = n) new /\
      paragraphs (self st') =
      dict_set p {| statements := statements pg ++ new |} (paragraphs (self st)) /\
      calls (self st') =
      calls (self st) ++ map (edge_of (path (self st)) p) (filter is_call new)).
Proof.
  destruct 1 as [d Hd|s Hd Hs|i Hd Hs Hi|s item Ht Hdiv Hsec Hne Hitem|p Hp
                |p o1 o2 Hp H1 H2|Hd Hs Hi _ _]; cbn; auto.
  - destruct (str_in d (divisions (self st))); cbn; auto.
  - right; left. eauto.
  - destruct (detections_extend _ _ _ _ _ _ H1 H2)
      as [->|[? ? ? ? (pg & new & G & F & P & C)]]; auto.
    right; right. exists p, pg, new. auto.
Qed.

(** A property kept by every step is kept by the loop. *)
Lemma parse_lines_invariant (P : pstate -> Prop) (Q : nat -> str -> Prop) :
  (forall st n raw st', Q n raw -> P st -> line_step st n raw st' -> P st') ->
  forall lns st st',
    Forall (fun ln => Q (fst ln) (snd ln)) lns ->
    P st -> parse_lines st lns = Ok st' -> P st'.
Proof.
  intros Hstep. induction lns as [|[n raw] lns IH]; intros st st' HQ HP H;
    cbn [parse_lines] in H.
  - inversion H; subst; auto.
  - destruct (parse_line st (n, raw)) as [st1|] eqn:E; [|discriminate].
    cbn [bind] in H. inversion HQ; subst.
    apply (IH st1 st'); auto.
    apply (Hstep st n raw st1); auto using parse_line_step.
Qed.

Lemma Forall_trivial_lines (lns : list (nat * str)) :
  Forall (fun ln => (fun _ _ => True) (fst ln) (snd ln)) lns.
Proof. apply Forall_forall. auto. Qed.

Lemma parse_lines_calls lns st st' :
  parse_lines st lns = Ok st' -> exists es, calls (self st') = calls (self st) ++ es.
Proof.
  intros H.
  apply (parse_lines_invariant
           (fun s => exists es, calls (self s) = calls (self st) ++ es)
           (fun _ _ => True)) with (lns := lns) (st := st); auto.
  - intros s n raw s' _ [es Hes] Hstep.
    destruct (line_step_calls _ _ _ _ Hstep) as [es' Hes'].
    exists (es ++ es'). rewrite Hes', Hes. now rewrite app_assoc.
  - apply Forall_trivial_lines.
  - exists []. now rewrite app_nil_r.
Qed.

End Loop.

(** ** Numbered lines *)

Section Numbering.
Context {A : Type}.

Lemma enumerate_snd (xs : list A) : forall k, map snd (enumerate xs k) = xs.
Proof. induction xs as [|x xs IH]; intros k; simpl; auto. now rewrite IH. Qed.

Lemma enumerate_from (xs : list A) : forall k,
  Forall (fun ln => k <= fst ln) (enumerate xs k).
Proof.
  induction xs as [|x xs IH]; intros k; simpl; constructor; auto.
  eapply Forall_impl; [|apply IH]. simpl. intros; lia.
Qed.

(** What comes after line [n] has a greater number. *)
Lemma enumerate_split (xs : list A) : forall k pre n x post,
  enumerate xs k = pre ++ (n, x) :: post ->
  Forall (fun ln => fst ln < n) pre /\ Forall (fun ln => n < fst ln) post.
Proof.
  induction xs as [|y xs IH]; intros k pre n x post E; simpl in E.
  - destruct pre; discriminate.
  - destruct pre as [|[m z] pre]; simpl in E; inversion E; subst.
    + split; auto. eapply Forall_impl; [|apply enumerate_from]. simpl; intros; lia.
    + destruct (IH _ _ _ _ _ H2) as [Hpre Hpost]. split; auto.
      constructor; auto. simpl.
      pose proof (enumerate_from xs (S m)) as F. rewrite H2 in F.
      apply Forall_app in F as [_ F]. inversion F; subst. simpl in *. lia.
Qed.
End Numbering.

Lemma str_in_In x xs : str_in x xs = true <-> In x xs.
Proof.
  unfold str_in. rewrite existsb_exists. split.
  - intros (y & Hy & E). apply str_eqb_eq in E. now subst.
  - intros H. exists x. split; auto. apply str_eqb_refl.
Qed.

Lemma str_in_not_In x xs : str_in x xs = false <-> ~ In x xs.
Proof.
  rewrite <- str_in_In. destruct (str_in x xs); split; congruence.
Qed.

(** ** Divisions *)

Section Divisions.

Lemma dedup_from_NoDup xs : forall seen,
  NoDup seen -> NoDup (seen ++ dedup_from seen xs).
Proof.
  induction xs as [|x xs IH]; intros seen Hs; simpl.
  - now rewrite app_nil_r.
  - destruct (str_in x seen) eqn:E; auto.
    apply str_in_not_In in E.
    replace (seen ++ x :: dedup_from (seen ++ [x]) xs)
      with ((seen ++ [x]) ++ dedup_from (seen ++ [x]) xs)
      by (now rewrite <- app_assoc).
    apply IH. apply NoDup_app; auto.
    + repeat constructor. simpl. tauto.
    + intros y Hy [<-|[]]. tauto.
Qed.

Lemma dedup_from_In xs : forall seen x,
  In x (dedup_from seen xs) <-> In x xs /\ ~ In x seen.
Proof.
  induction xs as [|y xs IH]; intros seen x; simpl; [tauto|].
  destruct (str_in y seen) eqn:E.
  - apply str_in_In in E. rewrite IH. split; [tauto|].
    intros [[<-|H] Hn]; tauto.
  - apply str_in_not_In in E. simpl. rewrite IH, in_app_iff. simpl.
    destruct (list_eq_dec ascii_dec y x) as [->|Hne]; tauto.
Qed.

(** The division list grows by the new names of the header lines. *)
Lemma divisions_track lns : forall st st',
  parse_lines st lns = Ok st' ->
  divisions (self st') =
  divisions (self st) ++ dedup_from (divisions (self st)) (division_names (map snd lns)).
Proof.
  induction lns as [|[n raw] lns IH]; intros st st' H; cbn [parse_lines] in H.
  - inversion H; subst. simpl. now rewrite app_nil_r.
  - destruct (parse_line st (n, raw)) as [st1|] eqn:E; [|discriminate].
    cbn [bind] in H. apply IH in H. apply parse_line_step in E.
    apply line_step_headers in E as (_ & _ & _ & _ & Hd).
    rewrite H, Hd. cbn [map snd division_names].
    destruct (division_of raw) as [d|]; auto.
    cbn [dedup_from]. destruct (str_in d (divisions (self st))); auto.
    now rewrite <- app_assoc.
Qed.

End Divisions.

(** C5. For every input file that can be read and holds 7-bit text, the
    division list of its structure record has no duplicate name, and it is
    the list of the division names of the header lines of the file in the
    order in which each name first occurs. *)
Theorem C5_divisions_first_occurrence_order fs p text :
  read_text fs p = Ok text ->
  isascii text = true ->
  exists o',
    parse fs (init p) = Ok o' /\
    NoDup (divisions o') /\
    divisions o' = first_occurrences (division_names (splitlines text)) /\
    (forall d, In d (divisions o') <-> In d (division_names (splitlines text))).
Proof.
  intros Hr _. unfold parse. cbn [path init]. rewrite Hr. cbn [bind].
  destruct (parse_text_total (init p) text) as [o' Ho'].
  exists o'. split; auto.
  apply parse_text_inv in Ho' as (st' & Hl & ->).
  apply divisions_track in Hl. cbn in Hl.
  unfold numbered_lines in Hl. rewrite enumerate_snd in Hl.
  rewrite Hl. unfold first_occurrences. repeat split.
  - apply (dedup_from_NoDup (division_names (splitlines text)) []). constructor.
  - rewrite dedup_from_In. tauto.
  - intros H. rewrite dedup_from_In. simpl. tauto.
Qed.

(** ** Paths *)

Section Paths.

Lemma path_name_from_plain b : forall cur,
  ~ In "/"%char b -> path_name_from cur b = rev cur ++ b.
Proof.
  induction b as [|c b IH]; intros cur H; simpl.
  - now rewrite app_nil_r.
  - destruct (Ascii.eqb c "/") eqn:E.
    + apply Ascii.eqb_eq in E. subst. simpl in H. tauto.
    + rewrite IH by (simpl in H; tauto). simpl. now rewrite <- app_assoc.
Qed.

Lemma path_name_from_slash a b : forall cur,
  path_name_from cur (a ++ "/"%char :: b) = path_name_from [] b.
Proof.
  induction a as [|c a IH]; intros cur; simpl; auto.
  destruct (Ascii.eqb c "/"); auto.
Qed.

Lemma rfind_dot_none s : forall i, ~ In "."%char s -> rfind_dot i s = None.
Proof.
  induction s as [|c s IH]; intros i H; simpl; auto.
  rewrite IH by (simpl in H; tauto).
  destruct (Ascii.eqb c ".") eqn:E; auto.
  apply Ascii.eqb_eq in E. subst. simpl in H. tauto.
Qed.

Lemma rfind_dot_last a b : forall i,
  ~ In "."%char b -> rfind_dot i (a ++ "."%char :: b) = Some (i + List.length a).
Proof.
  induction a as [|c a IH]; intros i H; simpl.
  - rewrite rfind_dot_none by assumption. f_equal. lia.
  - rewrite IH by assumption. f_equal. lia.
Qed.

(** The stem of [dir/base.cbl] is [base]. *)
Lemma stem_cbl dir base :
  base <> [] -> ~ In "/"%char base ->
  stem (dir ++ "/"%char :: base ++ L ".cbl") = base.
Proof.
  intros Hne Hs. unfold stem, path_name.
  rewrite path_name_from_slash, path_name_from_plain.
  2:{ rewrite in_app_iff. simpl. intros [H|H]; [tauto|].
      repeat (destruct H as [H|H]; [discriminate|]). exact H. }
  cbn [rev app L list_ascii_of_string].
  rewrite rfind_dot_last.
  2:{ simpl. intros H. repeat (destruct H as [H|H]; [discriminate|]). exact H. }
  rewrite length_app. cbn [List.length Nat.add].
  destruct base as [|c base]; [congruence|].
  replace (0 <? List.length (c :: base)) with true by (symmetry; apply Nat.ltb_lt; simpl; lia).
  replace (List.length (c :: base) <? List.length (c :: base) + 4 - 1) with true
    by (symmetry; apply Nat.ltb_lt; lia).
  cbn [andb]. rewrite firstn_app, Nat.sub_diag, firstn_all. simpl. now rewrite app_nil_r.
Qed.

End Paths.

(** ** Program identifiers *)

Section ProgramIds.

Lemma last_cons_default (xs : list str) x d : last (x :: xs) d = last xs x.
Proof.
  revert x d. induction xs as [|y xs IH]; intros x d; auto.
  change (last (x :: y :: xs) d) with (last (y :: xs) d).
  rewrite (IH y d), (IH y x). reflexivity.
Qed.

(** The identifier is the name of the last declaration line read, or
    what it was before the first one. *)
Lemma program_id_track lns : forall st st',
  parse_lines st lns = Ok st' ->
  program_id (self st') = last (declared_names (map snd lns)) (program_id (self st)).
Proof.
  induction lns as [|[n raw] lns IH]; intros st st' H; cbn [parse_lines] in H.
  - inversion H; subst. reflexivity.
  - destruct (parse_line st (n, raw)) as [st1|] eqn:E; [|discriminate].
    cbn [bind] in H. apply IH in H. apply parse_line_step in E.
    apply line_step_headers in E as (_ & _ & _ & Hi & _).
    rewrite H, Hi. cbn [map snd declared_names].
    destruct (declared_id raw) as [i|]; auto.
    now rewrite last_cons_default.
Qed.

Lemma declared_names_nil raws :
  (forall raw, In raw raws -> declared_id raw = None) -> declared_names raws = [].
Proof.
  induction raws as [|raw raws IH]; intros H; simpl; auto.
  rewrite (H raw) by (simpl; auto). apply IH. intros; apply H; simpl; auto.
Qed.

Lemma declared_names_In raws i :
  In i (declared_names raws) <-> exists raw, In raw raws /\ declared_id raw = Some i.
Proof.
  induction raws as [|raw raws IH]; simpl.
  - split; [tauto|]. intros (? & [] & _).
  - destruct (declared_id raw) as [j|] eqn:E; simpl; rewrite IH; split.
    + intros [<-|(r & Hr & Hi)]; eauto.
    + intros (r & [<-|Hr] & Hi); [left; congruence|eauto].
    + intros (r & Hr & Hi); eauto.
    + intros (r & [<-|Hr] & Hi); [congruence|eauto].
Qed.

Lemma last_In (xs : list str) d : xs <> [] -> In (last xs d) xs.
Proof.
  induction xs as [|x xs IH]; [congruence|]. intros _.
  destruct xs as [|y xs]; [simpl; auto|].
  right. apply IH. discriminate.
Qed.

Lemma parse_program_id fs p text :
  read_text fs p = Ok text ->
  exists o',
    parse fs (init p) = Ok o' /\
    program_id o' = last (declared_names (splitlines text)) (stem p).
Proof.
  intros Hr. unfold parse. cbn [path init]. rewrite Hr. cbn [bind].
  destruct (parse_text_total (init p) text) as [o' Ho'].
  exists o'. split; auto.
  apply parse_text_inv in Ho' as (st' & Hl & ->).
  apply program_id_track in Hl. unfold numbered_lines in Hl.
  now rewrite enumerate_snd in Hl.
Qed.

End ProgramIds.

(** C7. For every readable input file of 7-bit text with no line that
    matches the PROGRAM-ID pattern, the program identifier of the structure
    record is the stem of the path, which for [dir/base.cbl] is [base]; if
    such a line is present the identifier is a captured name instead: the
    name of the last such line. *)
Theorem C7_program_id_defaults_to_stem fs p text :
  read_text fs p = Ok text ->
  isascii text = true ->
  exists o',
    parse fs (init p) = Ok o' /\
    ((forall raw, In raw (splitlines text) -> declared_id raw = None) ->
     program_id o' = stem p) /\
    (forall dir base, p = dir ++ "/"%char :: base ++ L ".cbl" ->
                      base <> [] -> ~ In "/"%char base -> stem p = base) /\
    ((exists raw i, In raw (splitlines text) /\ declared_id raw = Some i) ->
     program_id o' = last (declared_names (splitlines text)) (stem p) /\
     exists raw, In raw (splitlines text) /\ declared_id raw = Some (program_id o')).
Proof.
  intros Hr _. destruct (parse_program_id fs p text Hr) as (o' & Ho' & Hid).
  exists o'. split; auto. repeat split.
  - intros Hnone. rewrite Hid, declared_names_nil; auto.
  - intros dir base -> Hne Hs. now apply stem_cbl.
  - exact Hid.
  - destruct H as (raw & i & Hin & Hi).
    apply declared_names_In. rewrite Hid. apply last_In.
    intros E. assert (In i (declared_names (splitlines text))).
    { apply declared_names_In; eauto. }
    rewrite E in H. contradiction.
Qed.

(** ** Data items *)

Section DataItems.

Lemma dict_set_In {V} k (v : V) d k' v' :
  In (k', v') (dict_set k v d) -> (k', v') = (k, v) \/ In (k', v') d.
Proof.
  induction d as [|[k0 v0] d IH]; simpl.
  - intros [H|[]]; auto.
  - destruct (str_eqb k0 k); simpl; intros [H|H]; auto.
    destruct (IH H); auto.
Qed.

Lemma dd_append_In k item d k' items' it :
  In (k', items') (dd_append k item d) -> In it items' ->
  (k' = k /\ it = item) \/ exists items, In (k', items) d /\ In it items.
Proof.
  unfold dd_append. destruct (dict_get k d) as [old|] eqn:E; intros H Hit.
  - apply dict_set_In in H as [H|H]; [|eauto].
    inversion H; subst. apply in_app_iff in Hit as [Hit|[<-|[]]]; auto.
    right. exists old. split; auto. now apply dict_get_In.
  - apply dict_set_In in H as [H|H]; [|eauto].
    inversion H; subst. destruct Hit as [<-|[]]. auto.
Qed.

Lemma last_division_snoc pre raw :
  last_division (pre ++ [raw]) = next_div (last_division pre) raw.
Proof. unfold last_division. now rewrite fold_left_app. Qed.

Lemma open_section_snoc pre raw :
  open_section (pre ++ [raw]) = next_sec (open_section pre) raw.
Proof. unfold open_section. now rewrite fold_left_app. Qed.

(** The most recent division header: a header line with no division
    header after it. *)
Lemma last_division_spec pre d :
  last_division pre = Some d ->
  exists a raw b, pre = a ++ raw :: b /\ division_of raw = Some d /\
                  Forall (fun r => division_of r = None) b.
Proof.
  induction pre as [|raw pre IH] using rev_ind.
  - discriminate.
  - rewrite last_division_snoc. unfold next_div.
    destruct (division_of raw) as [d'|] eqn:E.
    + intros H; inversion H; subst. exists pre, raw, []. auto.
    + intros H. destruct (IH H) as (a & r & b & -> & Hr & Hb).
      exists a, r, (b ++ [raw]). rewrite <- app_assoc. repeat split; auto.
      apply Forall_app; auto.
Qed.

(** The open section: a section header line with neither a division
    header nor another section header after it. *)
Lemma open_section_spec pre s :
  open_section pre = Some s ->
  exists a raw b, pre = a ++ raw :: b /\ section_of raw = Some s /\
                  Forall (fun r => division_of r = None /\ section_of r = None) b.
Proof.
  induction pre as [|raw pre IH] using rev_ind.
  - discriminate.
  - rewrite open_section_snoc. unfold next_sec.
    destruct (division_of raw) as [d'|] eqn:E; [discriminate|].
    destruct (section_of raw) as [s'|] eqn:E'.
    + intros H; inversion H; subst. exists pre, raw, []. auto.
    + intros H. destruct (IH H) as (a & r & b & -> & Hr & Hb).
      exists a, r, (b ++ [raw]). rewrite <- app_assoc. repeat split; auto.
      apply Forall_app; auto.
Qed.

Lemma recorded_from_snoc raws raw s item :
  recorded_from raws s item -> recorded_from (raws ++ [raw]) s item.
Proof.
  intros (pre & r & post & -> & H).
  exists pre, r, (post ++ [raw]). now rewrite <- app_assoc.
Qed.

Lemma history_step st n raw st' raws :
  history st raws -> line_step st n raw st' -> history st' (raws ++ [raw]).
Proof.
  intros (Hd & Hs & Hi) Hstep.
  pose proof (line_step_headers _ _ _ _ Hstep) as (Hd' & Hs' & _).
  repeat split.
  - rewrite last_division_snoc. congruence.
  - rewrite open_section_snoc. congruence.
  - intros s items item Hin Hit.
    destruct (line_step_data _ _ _ _ Hstep) as [E|(s0 & it0 & Ediv & Esec & Eit & E)];
      rewrite E in Hin.
    + apply recorded_from_snoc. eauto.
    + destruct (dd_append_In _ _ _ _ _ _ Hin Hit) as [[-> ->]|(old & Hold & Hit')].
      * exists raws, raw, []. repeat split; congruence.
      * apply recorded_from_snoc. eauto.
Qed.

Lemma history_loop lns : forall st st' raws,
  history st raws -> parse_lines st lns = Ok st' ->
  history st' (raws ++ map snd lns).
Proof.
  induction lns as [|[n raw] lns IH]; intros st st' raws Hh H; cbn [parse_lines] in H.
  - inversion H; subst. simpl. now rewrite app_nil_r.
  - destruct (parse_line st (n, raw)) as [st1|] eqn:E; [|discriminate].
    cbn [bind] in H. apply parse_line_step in E.
    cbn [map snd].
    replace (raws ++ raw :: map snd lns) with ((raws ++ [raw]) ++ map snd lns)
      by (now rewrite <- app_assoc).
    eapply IH; eauto using history_step.
Qed.

Lemma data_items_provenance fs p text :
  read_text fs p = Ok text ->
  exists o',
    parse fs (init p) = Ok o' /\
    forall s items item,
      In (s, items) (data_sections o') -> In item items ->
      recorded_from (splitlines text) s item.
Proof.
  intros Hr. unfold parse. cbn [path init]. rewrite Hr. cbn [bind].
  destruct (parse_text_total (init p) text) as [o' Ho'].
  exists o'. split; auto.
  apply parse_text_inv in Ho' as (st' & Hl & ->).
  apply (history_loop _ _ _ []) in Hl.
  - unfold numbered_lines in Hl. rewrite enumerate_snd in Hl. apply Hl.
  - repeat split. intros s items item [].
Qed.

Lemma data_item_level raw item : data_item_of raw = Some item -> level item <= 99.
Proof.
  unfold data_item_of.
  destruct (Re.match_ _VAR_RE (stripped raw)) as [mo|] eqn:E; [|discriminate].
  destruct (var_level _ _ E) as (lv & -> & Hlv).
  intros H; inversion H; subst. exact Hlv.
Qed.

Lemma not_data_no_item st n raw st' :
  parse_line st (n, raw) = Ok st' -> div st <> Some (L "DATA") ->
  data_sections (self st') = data_sections (self st).
Proof.
  intros H Hd. apply parse_line_step in H.
  destruct (line_step_data _ _ _ _ H) as [E|(s & it & Ediv & _)]; auto. congruence.
Qed.

End DataItems.

(** C6. For every readable input file of 7-bit text, every data item of
    its structure record was recorded, under the section that holds it,
    from a line read when the most recent division header was that of the
    data division and that section was the one opened since this header;
    and a line of 7-bit text read while the current division is not the
    data division records nothing. *)
Theorem C6_data_items_inside_data_division fs p text :
  read_text fs p = Ok text ->
  isascii text = true ->
  exists o',
    parse fs (init p) = Ok o' /\
    (forall s items item,
        In (s, items) (data_sections o') -> In item items ->
        exists pre raw post,
          splitlines text = pre ++ raw :: post /\
          last_division pre = Some (L "DATA") /\
          open_section pre = Some s /\
          data_item_of raw = Some item) /\
    (forall st n raw st',
        isascii raw = true ->
        parse_line st (n, raw) = Ok st' -> div st <> Some (L "DATA") ->
        data_sections (self st') = data_sections (self st)).
Proof.
  intros Hr _. destruct (data_items_provenance fs p text Hr) as (o' & Ho' & Hp).
  exists o'. repeat split; auto. intros st n raw st' _. apply not_data_no_item.
Qed.

(** C2, as the code has it. For every data item recorded from any readable
    input file, the level number is between 0 and 99 inclusive: the two
    digits of the source, as a number. *)
Theorem C2_level_is_two_digits fs p text :
  read_text fs p = Ok text ->
  exists o',
    parse fs (init p) = Ok o' /\
    forall s items item,
      In (s, items) (data_sections o') -> In item items ->
      0 <= level item /\ level item <= 99.
Proof.
  intros Hr. destruct (data_items_provenance fs p text Hr) as (o' & Ho' & Hp).
  exists o'. split; auto. intros s items item Hin Hit.
  destruct (Hp s items item Hin Hit) as (pre & raw & post & _ & _ & _ & Hitem).
  split; [lia|]. eapply data_item_level; eauto.
Qed.

(** ** Statements *)

Section Statements.

Lemma ascending_snoc ns new n :
  ascending ns -> Forall (fun m => m < n) ns -> Forall (fun m => m = n) new ->
  ascending (ns ++ new).
Proof.
  unfold ascending. intros Hs Hb Hn. induction ns as [|m ns IH]; simpl.
  - induction new as [|x new IHn]; constructor; inversion Hn; subst; auto.
    eapply Forall_impl; [|eassumption]. simpl. intros; lia.
  - inversion Hs; subst. inversion Hb; subst. constructor; auto.
    apply Forall_app. split; auto.
    eapply Forall_impl; [|exact Hn]. simpl. intros; lia.
Qed.

Lemma sorted_below_step st n raw st' :
  sorted_below st n -> line_step st n raw st' -> sorted_below st' (S n).
Proof.
  intros Hb Hstep name pg Hin.
  assert (Hold : forall name pg, In (name, pg) (paragraphs (self st)) ->
                   ascending (map line (statements pg)) /\
                   Forall (fun s => line s < S n) (statements pg)).
  { intros nm q Hq. destruct (Hb nm q Hq) as [A B]. split; auto.
    eapply Forall_impl; [|exact B]. simpl. intros; lia. }
  destruct (line_step_procedure _ _ _ _ Hstep)
    as [[E _]|[(p & _ & E & _)|(p & q & new & _ & G & F & E & _)]];
    rewrite E in Hin.
  - now apply (Hold name pg).
  - apply dict_set_In in Hin as [Hin|Hin]; [|now apply (Hold name pg)].
    inversion Hin; subst. cbn. split; constructor.
  - apply dict_set_In in Hin as [Hin|Hin]; [|now apply (Hold name pg)].
    inversion Hin; subst. cbn [statements].
    apply dict_get_In in G. destruct (Hb _ _ G) as [A B]. split.
    + rewrite map_app. apply ascending_snoc with (n := n); auto.
      * apply Forall_map. exact B.
      * apply Forall_map. exact F.
    + apply Forall_app. split.
      * eapply Forall_impl; [|exact B]. simpl. intros; lia.
      * eapply Forall_impl; [|exact F]. simpl. intros; lia.
Qed.

Lemma sorted_below_loop raws : forall k st st',
  sorted_below st k -> parse_lines st (enumerate raws k) = Ok st' ->
  sorted_below st' (k + List.length raws).
Proof.
  induction raws as [|raw raws IH]; intros k st st' Hb H;
    cbn [enumerate parse_lines] in H.
  - inversion H; subst. simpl. now rewrite Nat.add_0_r.
  - destruct (parse_line st (k, raw)) as [st1|] eqn:E; [|discriminate].
    cbn [bind] in H. apply parse_line_step in E.
    cbn [List.length]. rewrite Nat.add_succ_r.
    apply (IH (S k) st1 st'); auto. eapply sorted_below_step; eauto.
Qed.

Lemma sorted_below_start o n : paragraphs o = [] -> sorted_below (start o) n.
Proof. intros E name pg Hin. cbn in Hin. rewrite E in Hin. destruct Hin. Qed.


End Statements.


(** ** Paragraphs opened more than once *)

Section Reopened.

Lemma enumerate_cut {A} (xs : list A) : forall k pre n x post,
  enumerate xs k = pre ++ (n, x) :: post ->
  exists a b, xs = a ++ x :: b /\ pre = enumerate a k /\
              n = k + List.length a /\ post = enumerate b (S n).
Proof.
  induction xs as [|y xs IH]; intros k pre n x post E; simpl in E.
  - destruct pre; discriminate.
  - destruct pre as [|[m z] pre]; simpl in E; inversion E; subst.
    + exists [], xs. simpl. rewrite Nat.add_0_r. auto.
    + destruct (IH _ _ _ _ _ H2) as (a & b & -> & -> & -> & ->).
      match goal with
      | |- exists a' b', ?h :: _ = _ /\ _ => exists (h :: a), b
      end.
      simpl. rewrite Nat.add_succ_r. auto.
Qed.

Lemma path_kept lns st st' :
  parse_lines st lns = Ok st' -> path (self st') = path (self st).
Proof.
  intros H.
  apply (parse_lines_invariant (fun s => path (self s) = path (self st))
                               (fun _ _ => True)) with (lns := lns) (st := st); auto.
  - intros s n raw s' _ Hs Hstep.
    apply line_step_headers in Hstep as (_ & _ & Hp & _). congruence.
  - apply Forall_trivial_lines.
Qed.

Lemma para_known_kept lns st st' :
  para_known st -> parse_lines st lns = Ok st' -> para_known st'.
Proof.
  intros Hk H. destruct (parse_lines_total lns st Hk) as (st2 & E & Hk2).
  rewrite H in E. inversion E; subst. exact Hk2.
Qed.

Lemma edges_cover_step st n raw st' :
  edges_cover st -> line_step st n raw st' -> edges_cover st'.
Proof.
  intros Hc Hstep name pg s Hin Hs Hcall.
  pose proof (line_step_headers _ _ _ _ Hstep) as (_ & _ & Hpath & _).
  rewrite Hpath.
  destruct (line_step_procedure _ _ _ _ Hstep)
    as [[E C]|[(p & _ & E & C)|(p & q & new & _ & G & F & E & C)]];
    rewrite E in Hin; rewrite C.
  - eapply Hc; eauto.
  - apply dict_set_In in Hin as [Hin|Hin]; [|eapply Hc; eauto].
    inversion Hin; subst. destruct Hs.
  - apply in_app_iff.
    apply dict_set_In in Hin as [Hin|Hin]; [|left; eapply Hc; eauto].
    inversion Hin; subst. cbn [statements] in Hs.
    apply in_app_iff in Hs as [Hs|Hs].
    + left. apply dict_get_In in G. eapply Hc; eauto.
    + right. apply in_map, filter_In. auto.
Qed.

Lemma edges_cover_loop lns st st' :
  edges_cover st -> parse_lines st lns = Ok st' -> edges_cover st'.
Proof.
  intros Hc H.
  apply (parse_lines_invariant edges_cover (fun _ _ => True))
    with (lns := lns) (st := st); auto.
  - intros s n raw s' _. apply edges_cover_step.
  - apply Forall_trivial_lines.
Qed.

Lemma only_after_step name n0 st n raw st' :
  n0 < n -> only_after name n0 st -> line_step st n raw st' -> only_after name n0 st'.
Proof.
  intros Hn (pg & Hg & Hf) Hstep. unfold only_after.
  destruct (line_step_procedure _ _ _ _ Hstep)
    as [[E _]|[(p & _ & E & _)|(p & q & new & _ & G & F & E & _)]];
    rewrite E.
  - eauto.
  - rewrite dict_get_set. destruct (str_eqb p name); eauto.
  - rewrite dict_get_set. destruct (str_eqb p name) eqn:Ep; eauto.
    apply str_eqb_eq in Ep. subst p. rewrite Hg in G. inversion G; subst q.
    eexists; split; [reflexivity|]. cbn [statements].
    apply Forall_app. split; auto.
    eapply Forall_impl; [|exact F]. simpl. intros; lia.
Qed.

Lemma only_after_loop name n0 lns st st' :
  Forall (fun ln => n0 < fst ln) lns ->
  only_after name n0 st -> parse_lines st lns = Ok st' -> only_after name n0 st'.
Proof.
  intros Hl Ho H.
  apply (parse_lines_invariant (only_after name n0) (fun n _ => n0 < n))
    with (lns := lns) (st := st); auto.
  intros s n raw s' Hn. now apply only_after_step.
Qed.

End Reopened.

(** C10. In every readable input file of 7-bit text, a paragraph-header
    line met in the procedure division replaces the entry of its name by a
    paragraph with no statement, so that, when the name already had an
    entry, every statement recorded under the earlier header is gone from
    the final structure record, which keeps for that name only statements
    of lines after this header; the edges of the discarded CALL statements
    are still in the edge list. *)
Theorem C10_reopened_paragraph_starts_empty fs p text pre n raw post st name :
  read_text fs p = Ok text ->
  isascii text = true ->
  numbered_lines text = pre ++ (n, raw) :: post ->
  parse_lines (start (init p)) pre = Ok st ->
  paragraph_header st raw = Some name ->
  exists st1 o' pg,
    parse_line st (n, raw) = Ok st1 /\
    dict_get name (paragraphs (self st1)) = Some {| statements := [] |} /\
    calls (self st1) = calls (self st) /\
    parse fs (init p) = Ok o' /\
    dict_get name (paragraphs o') = Some pg /\
    Forall (fun s => n < line s) (statements pg) /\
    (forall old s,
        dict_get name (paragraphs (self st)) = Some old -> In s (statements old) ->
        ~ In s (statements pg) /\
        (is_call s = true -> In (edge_of p name s) (calls o'))).
Proof.
  intros Hr _ Hsplit Hpre Hhdr.
  pose proof (parse_line_paragraph st n raw name Hhdr) as Hline.
  set (st1 := {| self := set_paragraphs
                           (dict_set name {| statements := [] |} (paragraphs (self st)))
                           (self st);
                 div := div st; sec := sec st; para := Some name |}) in *.
  assert (Hk0 : para_known (start (init p))) by (intros q; discriminate).
  assert (Hk : para_known st) by (eapply para_known_kept; eauto).
  assert (Hk1 : para_known st1).
  { intros q Hq. inversion Hq; subst q. cbn. rewrite dict_get_set_same. eauto. }
  destruct (parse_lines_total post st1 Hk1) as (st2 & Hpost & _).
  assert (Hall : parse_lines (start (init p)) (numbered_lines text) = Ok st2).
  { rewrite Hsplit, parse_lines_app, Hpre. cbn [bind parse_lines].
    rewrite Hline. cbn [bind]. exact Hpost. }
  unfold numbered_lines in Hsplit.
  destruct (enumerate_cut _ _ _ _ _ _ Hsplit) as (a & b & Hraws & -> & -> & ->).
  assert (Hafter : only_after name (1 + List.length a) st2).
  { eapply only_after_loop; [| |exact Hpost].
    - eapply Forall_impl; [|apply enumerate_from]. simpl. intros; lia.
    - exists {| statements := [] |}. split; [|constructor].
      cbn. apply dict_get_set_same. }
  destruct Hafter as (pg & Hpg & Hlines).
  exists st1, (self st2), pg. repeat split; auto.
  - cbn. apply dict_get_set_same.
  - unfold parse. cbn [path init]. rewrite Hr. cbn [bind].
    unfold parse_text. now rewrite Hall.
  - intros Hin.
    assert (Hb : sorted_below st (1 + List.length a)).
    { eapply sorted_below_loop; [|exact Hpre]. now apply sorted_below_start. }
    apply dict_get_In in H. destruct (Hb _ _ H) as [_ Hlt].
    rewrite Forall_forall in Hlt, Hlines.
    specialize (Hlt s H0). specialize (Hlines s Hin). lia.
  - intros Hcall.
    assert (Hc : edges_cover st).
    { eapply edges_cover_loop; [|exact Hpre]. intros nm q s' []. }
    apply dict_get_In in H. pose proof (Hc _ _ _ H H0 Hcall) as Hedge.
    rewrite (path_kept _ _ _ Hpre) in Hedge. cbn [path init start self] in Hedge.
    assert (Hcalls : exists es, calls (self st2) = calls (self st) ++ es).
    { destruct (parse_lines_calls _ _ _ Hpost) as [es Hes]. exists es. exact Hes. }
    destruct Hcalls as [es ->]. apply in_app_iff. auto.
Qed.

(** ** The sniffer and the index *)

Section Sniffer.
Import Re.

Lemma search_from_none pt : forall s q,
  search_from pt q s = None ->
  forall a b, s = a ++ b -> match_at pt (last_char q a) b = None.
Proof.
  induction s as [|c s IH]; intros q H a b E; cbn [search_from] in H.
  - destruct a; [|discriminate]. simpl in *. subst b.
    destruct (match_at pt q []); congruence.
  - destruct (match_at pt q (c :: s)) eqn:Em; [discriminate|].
    destruct a as [|x a]; simpl in E.
    + subst b. exact Em.
    + inversion E; subst. simpl. now apply IH.
Qed.

Lemma search_from_some pt : forall s q mo,
  search_from pt q s = Some mo ->
  exists a b,
    s = a ++ b /\ match_at pt (last_char q a) b = Some mo /\
    forall a' b', s = a' ++ b' -> List.length a' < List.length a ->
                  match_at pt (last_char q a') b' = None.
Proof.
  induction s as [|c s IH]; intros q mo H; cbn [search_from] in H.
  - destruct (match_at pt q []) eqn:Em; [|discriminate].
    exists [], []. simpl. repeat split; [congruence|]. intros; lia.
  - destruct (match_at pt q (c :: s)) eqn:Em.
    + exists [], (c :: s). simpl. repeat split; [congruence|]. intros; lia.
    + destruct (IH _ _ H) as (a & b & -> & Hm & Hfirst).
      exists (c :: a), b. repeat split; auto.
      intros [|x a'] b' E Hlen; simpl in *.
      * now subst b'.
      * inversion E; subst. apply Hfirst; auto. lia.
Qed.

Lemma sniff_unreadable fs p e :
  read_text fs p = Raise e -> sniff_program_id fs p = None.
Proof. unfold sniff_program_id. now intros ->. Qed.

Lemma sniff_readable fs p text :
  read_text fs p = Ok text ->
  sniff_program_id fs p =
  match search _PROGID_RE text with Some mo => Some (group mo 1) | None => None end.
Proof. unfold sniff_program_id. now intros ->. Qed.

(** The sniffer on a file that is read: the leftmost match, or none. *)
Lemma sniff_leftmost fs p text :
  read_text fs p = Ok text ->
  (sniff_program_id fs p = None /\
   forall a b, text = a ++ b -> match_at _PROGID_RE (last_char None a) b = None) \/
  (exists a b mo,
     text = a ++ b /\
     match_at _PROGID_RE (last_char None a) b = Some mo /\
     sniff_program_id fs p = Some (group mo 1) /\
     forall a' b', text = a' ++ b' -> List.length a' < List.length a ->
                   match_at _PROGID_RE (last_char None a') b' = None).
Proof.
  intros Hr. rewrite (sniff_readable _ _ _ Hr). unfold search.
  destruct (search_from _PROGID_RE None text) as [mo|] eqn:E.
  - right. destruct (search_from_some _ _ _ _ E) as (a & b & Ht & Hm & Hf).
    exists a, b, mo. auto.
  - left. split; auto. now apply search_from_none.
Qed.

Lemma index_files_sound fs files : forall acc k f,
  dict_get k (index_files fs files acc) = Some f ->
  dict_get k acc = Some f \/
  (In f files /\ exists pid, sniff_program_id fs f = Some pid /\ str_lower pid = k).
Proof.
  induction files as [|g files IH]; intros acc k f H; cbn [index_files] in H; auto.
  apply IH in H as [H|(Hin & pid & Hs & Hl)].
  - destruct (sniff_program_id fs g) as [[|c pid]|] eqn:Es; auto.
    rewrite dict_get_set in H.
    destruct (str_eqb (str_lower (c :: pid)) k) eqn:Ek; auto.
    apply str_eqb_eq in Ek. inversion H; subst.
    right. split; [simpl; auto|]. eauto.
  - right. split; [simpl; auto|]. eauto.
Qed.

Lemma index_files_complete fs files : forall acc k,
  (exists g, dict_get k acc = Some g) \/
  (exists f pid, In f files /\ sniff_program_id fs f = Some pid /\ pid <> [] /\
                 str_lower pid = k) ->
  exists g, dict_get k (index_files fs files acc) = Some g.
Proof.
  induction files as [|g files IH]; intros acc k H; cbn [index_files].
  - destruct H as [H|(f & pid & [] & _)]. exact H.
  - apply IH.
    destruct H as [[h Hh]|(f & pid & [<-|Hin] & Hs & Hne & Hk)].
    + left. destruct (sniff_program_id fs g) as [[|c pid]|]; eauto.
      rewrite dict_get_set. destruct (str_eqb _ k); eauto.
    + left. rewrite Hs. destruct pid as [|c pid]; [congruence|].
      rewrite Hk, dict_get_set_same. eauto.
    + right. exists f, pid. auto.
Qed.

Lemma build_index_sound fs root k f :
  dict_get k (build_index fs root) = Some f ->
  In f (rglob_cbl fs root) /\
  exists pid, sniff_program_id fs f = Some pid /\ str_lower pid = k.
Proof.
  unfold build_index. intros H.
  apply index_files_sound in H as [H|H]; [discriminate|auto].
Qed.

End Sniffer.

(** ** The resolver *)

Section Resolver.

Lemma resolve_edge_resolves idx e : resolves idx e (resolve_edge idx e).
Proof.
  unfold resolves, resolve_edge, dict_mem. cbn.
  destruct (dict_get (str_lower (to_program e)) idx); auto.
Qed.

Lemma parse_all_readable fs files : forall acc,
  NoDup files ->
  (forall f, In f files -> ~ In f (dict_keys acc)) ->
  (forall f, In f files -> exists text, read_text fs f = Ok text) ->
  exists parsed,
    parse_all fs files acc = Ok (acc ++ parsed) /\
    map fst parsed = files /\
    Forall (fun fo => parse fs (init (fst fo)) = Ok (snd fo)) parsed.
Proof.
  induction files as [|f files IH]; intros acc Hnd Hfresh Hread; cbn [parse_all].
  - exists []. rewrite app_nil_r. auto.
  - destruct (Hread f (or_introl eq_refl)) as [text Ht].
    assert (Hp : exists o, parse fs (init f) = Ok o).
    { unfold parse. cbn [path init]. rewrite Ht. cbn [bind]. apply parse_text_total. }
    destruct Hp as [o Ho]. rewrite Ho. cbn [bind].
    rewrite dict_set_fresh by (apply Hfresh; simpl; auto).
    inversion Hnd; subst.
    destruct (IH (acc ++ [(f, o)])) as (parsed & Hp & Hk & Hall); auto.
    + intros g Hg. unfold dict_keys. rewrite map_app, in_app_iff. simpl.
      intros [H|[H|[]]].
      * apply (Hfresh g); simpl; auto.
      * congruence.
    + intros g Hg. apply Hread. simpl; auto.
    + exists ((f, o) :: parsed). rewrite Hp, <- app_assoc. simpl.
      repeat split; auto. now rewrite Hk.
Qed.

Lemma parse_all_unreadable fs files : forall acc f e,
  In f files -> read_text fs f = Raise e ->
  exists e', parse_all fs files acc = Raise e'.
Proof.
  induction files as [|g files IH]; intros acc f e Hin Hr; [destruct Hin|].
  cbn [parse_all].
  destruct (parse fs (init g)) as [o|e'] eqn:Ep; cbn [bind]; [|eauto].
  destruct Hin as [->|Hin]; [|eauto].
  unfold parse in Ep. cbn [path init] in Ep. rewrite Hr in Ep. discriminate.
Qed.

End Resolver.

(** C1, on the code. A file that cannot be read makes [parse] raise the
    error of the read, and with it the whole run: [parse_repo] returns
    neither structure records nor edges for any file. *)
Theorem C1_unreadable_file_aborts_run fs root f e :
  In f (rglob_cbl fs root) ->
  read_text fs f = Raise e ->
  parse fs (init f) = Raise e /\
  sniff_program_id fs f = None /\
  exists e', parse_repo fs root = Raise e'.
Proof.
  intros Hin Hr. repeat split.
  - unfold parse. cbn [path init]. now rewrite Hr.
  - eapply sniff_unreadable; eauto.
  - unfold parse_repo.
    destruct (parse_all_unreadable fs (rglob_cbl fs root) [] f e Hin Hr) as [e' ->].
    cbn [bind]. eauto.
Qed.

(** C3. In a run over files of 7-bit text whose two passes return,
    [parse_repo] has one parser per file and one edge per raw edge of the
    parsers, in the same order; each edge keeps its four fields and gets as
    resolved path the path the index holds for its case-folded target, or
    null when the index has no such key; a path the index holds for a key
    is a file of the repository whose sniffed identifier case-folds to the
    key, and the case-folded identifier sniffed in any file is a key. *)
Theorem C3_edges_resolved_against_index fs root structures edges :
  NoDup (rglob_cbl fs root) ->
  ascii_files fs (rglob_cbl fs root) ->
  parse_repo fs root = Ok (structures, edges) ->
  map fst structures = rglob_cbl fs root /\
  Forall (fun fo => parse fs (init (fst fo)) = Ok (snd fo)) structures /\
  Forall2 (resolves (build_index fs root))
          (flat_map (fun fo => calls (snd fo)) structures) edges /\
  (forall k f, dict_get k (build_index fs root) = Some f ->
               In f (rglob_cbl fs root) /\
               exists pid, sniff_program_id fs f = Some pid /\ str_lower pid = k) /\
  (forall f pid, In f (rglob_cbl fs root) ->
                 sniff_program_id fs f = Some pid -> pid <> [] ->
                 exists g, dict_get (str_lower pid) (build_index fs root) = Some g).
Proof.
  intros Hnd _ Hrun. unfold parse_repo in Hrun.
  destruct (parse_all fs (rglob_cbl fs root) []) as [parsed|e] eqn:Hp; [|discriminate].
  cbn [bind] in Hrun. inversion Hrun; subst structures edges. clear Hrun.
  assert (Hread : forall f, In f (rglob_cbl fs root) -> exists text, read_text fs f = Ok text).
  { intros f Hin. destruct (read_text fs f) as [text|e] eqn:E; [eauto|].
    destruct (parse_all_unreadable fs (rglob_cbl fs root) [] f e Hin E) as [e' He'].
    congruence. }
  destruct (parse_all_readable fs (rglob_cbl fs root) [] Hnd) as (parsed' & Hp' & Hk & Hall);
    auto.
  rewrite Hp in Hp'. cbn [app] in Hp'. inversion Hp'; subst parsed'. clear Hp'.
  repeat split; auto.
  - unfold resolve_all, dict_values. clear.
    induction parsed as [|[f o] parsed IH]; cbn; [constructor|].
    apply Forall2_app; auto.
    induction (calls o) as [|e es IHe]; cbn; constructor; auto.
    apply resolve_edge_resolves.
  - eapply build_index_sound; eauto.
  - eapply build_index_sound; eauto.
  - intros f pid Hin Hs Hne. apply index_files_complete. right. eauto 6.
Qed.

(** C8. The sniffer returns no identifier, and raises nothing, when the
    read fails; when the file is read, and holds 7-bit text, it returns the
    name captured by the match of the PROGRAM-ID pattern at the first
    position of the text where the pattern matches, and no identifier when
    it matches nowhere. *)
Theorem C8_sniffer_first_occurrence_or_none fs p :
  (forall e, read_text fs p = Raise e -> sniff_program_id fs p = None) /\
  (forall text, read_text fs p = Ok text -> isascii text = true ->
     (sniff_program_id fs p = None /\
      forall a b, text = a ++ b ->
                  Re.match_at _PROGID_RE (Re.last_char None a) b = None) \/
     (exists a b mo,
        text = a ++ b /\
        Re.match_at _PROGID_RE (Re.last_char None a) b = Some mo /\
        sniff_program_id fs p = Some (Re.group mo 1) /\
        forall a' b', text = a' ++ b' -> List.length a' < List.length a ->
                      Re.match_at _PROGID_RE (Re.last_char None a') b' = None)).
Proof.
  split.
  - intros e. apply sniff_unreadable.
  - intros text Hr _. now apply sniff_leftmost.
Qed.

(** C9, as the code has it. For every readable file of 7-bit text with
    more than one line matching the PROGRAM-ID pattern, the parser leaves
    as program identifier the name of the last such line, while the sniffer
    returns the name captured at the first position of the whole text where
    the pattern matches, or nothing when it matches nowhere; in
    [two_ids_cbl] that is the name of the first such line, and the indexed
    and the recorded identifier differ. *)
Theorem C9_last_line_against_leftmost_match :
  (forall fs p text,
      read_text fs p = Ok text ->
      isascii text = true ->
      1 < List.length (declared_names (splitlines text)) ->
      (exists o', parse fs (init p) = Ok o' /\
                  program_id o' = last (declared_names (splitlines text)) (stem p) /\
                  In (program_id o') (declared_names (splitlines text))) /\
      ((sniff_program_id fs p = None /\
        forall a b, text = a ++ b ->
                    Re.match_at _PROGID_RE (Re.last_char None a) b = None) \/
       (exists a b mo,
          text = a ++ b /\
          Re.match_at _PROGID_RE (Re.last_char None a) b = Some mo /\
          sniff_program_id fs p = Some (Re.group mo 1) /\
          forall a' b', text = a' ++ b' -> List.length a' < List.length a ->
                        Re.match_at _PROGID_RE (Re.last_char None a') b' = None))) /\
  (exists o',
      declared_names (splitlines two_ids_cbl) = [L "A"; L "B"] /\
      parse (one_file main_path two_ids_cbl) (init main_path) = Ok o' /\
      program_id o' = L "B" /\
      sniff_program_id (one_file main_path two_ids_cbl) main_path = Some (L "A")).
Proof.
  split.
  - intros fs p text Hr _ Hlen.
    destruct (parse_program_id fs p text Hr) as (o' & Ho' & Hid).
    split; [|now apply sniff_leftmost].
    exists o'. repeat split; auto. rewrite Hid. apply last_In.
    intros E. rewrite E in Hlen. simpl in Hlen. lia.
  - exists (parsed_or_init (one_file main_path two_ids_cbl) main_path).
    repeat split; vm_compute; reflexivity.
Qed.

(** C9 as it was stated fails: in [split_id_cbl] the lines matching the
    pattern declare A and B, and the sniffer returns X, the name after the
    keyword that stands alone on the first line. *)
Lemma C9_counterexample :
  ~ (forall fs p text,
        read_text fs p = Ok text ->
        1 < List.length (declared_names (splitlines text)) ->
        sniff_program_id fs p = Some (hd [] (declared_names (splitlines text)))).
Proof.
  intros H.
  specialize (H (one_file main_path split_id_cbl) main_path split_id_cbl eq_refl).
  vm_compute in H. specialize (H (le_n _)). discriminate.
Qed.

(** C2 as it was stated fails: the item of level 77 in [main.cbl]. *)
Lemma C2_counterexample :
  ~ (forall fs p text o',
        read_text fs p = Ok text -> parse fs (init p) = Ok o' ->
        forall s items item,
          In (s, items) (data_sections o') -> In item items ->
          1 <= level item /\ level item <= 49).
Proof.
  intros H.
  assert (Hp : parse repo (init main_path) = Ok main_parsed) by (vm_compute; reflexivity).
  pose proof (H repo main_path main_cbl main_parsed eq_refl Hp
                (L "WORKING-STORAGE") _
                {| level := 77; name := L "WS-COUNT"; pic := L "9(4)" |}
                (or_introl eq_refl) (or_introl eq_refl)) as [_ X].
  simpl in X. lia.
Qed.

(** ** The theorems at the sample inputs *)

(** C1 at a sample input *)
Lemma C1_witness :
  In locked_path (rglob_cbl locked_repo (L "/repo")) /\
  read_text locked_repo locked_path = Raise OSError /\
  parse locked_repo (init locked_path) = Raise OSError /\
  sniff_program_id locked_repo locked_path = None /\
  exists e', parse_repo locked_repo (L "/repo") = Raise e'.
Proof.
  assert (Hin : In locked_path (rglob_cbl locked_repo (L "/repo")))
    by (right; left; reflexivity).
  assert (Hr : read_text locked_repo locked_path = Raise OSError) by reflexivity.
  split; [exact Hin|]. split; [exact Hr|].
  exact (C1_unreadable_file_aborts_run locked_repo (L "/repo") locked_path OSError Hin Hr).
Defined.

(** C2 at a sample input *)
Lemma C2_witness :
  read_text repo main_path = Ok main_cbl /\
  exists o',
    parse repo (init main_path) = Ok o' /\
    forall s items item,
      In (s, items) (data_sections o') -> In item items ->
      0 <= level item /\ level item <= 99.
Proof.
  split; [reflexivity|].
  exact (C2_level_is_two_digits repo main_path main_cbl eq_refl).
Defined.

(** C3 at a sample input *)
Lemma C3_witness :
  NoDup (rglob_cbl repo (L "/repo")) /\
  ascii_files repo (rglob_cbl repo (L "/repo")) /\
  parse_repo repo (L "/repo") = Ok (fst repo_run, snd repo_run) /\
  map fst (fst repo_run) = rglob_cbl repo (L "/repo") /\
  Forall (fun fo => parse repo (init (fst fo)) = Ok (snd fo)) (fst repo_run) /\
  Forall2 (resolves (build_index repo (L "/repo")))
          (flat_map (fun fo => calls (snd fo)) (fst repo_run)) (snd repo_run) /\
  (forall k f, dict_get k (build_index repo (L "/repo")) = Some f ->
               In f (rglob_cbl repo (L "/repo")) /\
               exists pid, sniff_program_id repo f = Some pid /\ str_lower pid = k) /\
  (forall f pid, In f (rglob_cbl repo (L "/repo")) ->
                 sniff_program_id repo f = Some pid -> pid <> [] ->
                 exists g, dict_get (str_lower pid) (build_index repo (L "/repo")) = Some g).
Proof.
  assert (Hnd : NoDup (rglob_cbl repo (L "/repo"))).
  { repeat constructor; simpl; intuition discriminate. }
  assert (Ha : ascii_files repo (rglob_cbl repo (L "/repo"))).
  { intros f text [<-|[<-|[]]] H; inversion H; reflexivity. }
  assert (Hrun : parse_repo repo (L "/repo") = Ok (fst repo_run, snd repo_run))
    by (vm_compute; reflexivity).
  split; [exact Hnd|]. split; [exact Ha|]. split; [exact Hrun|].
  exact (C3_edges_resolved_against_index repo (L "/repo") (fst repo_run) (snd repo_run)
                                         Hnd Ha Hrun).
Defined.


(** C5 at a sample input *)
Lemma C5_witness :
  read_text repo main_path = Ok main_cbl /\
  isascii main_cbl = true /\
  exists o',
    parse repo (init main_path) = Ok o' /\
    NoDup (divisions o') /\
    divisions o' = first_occurrences (division_names (splitlines main_cbl)) /\
    (forall d, In d (divisions o') <-> In d (division_names (splitlines main_cbl))).
Proof.
  split; [reflexivity|]. split; [reflexivity|].
  exact (C5_divisions_first_occurrence_order repo main_path main_cbl eq_refl eq_refl).
Defined.

(** C6 at a sample input *)
Lemma C6_witness :
  read_text repo main_path = Ok main_cbl /\
  isascii main_cbl = true /\
  exists o',
    parse repo (init main_path) = Ok o' /\
    (forall s items item,
        In (s, items) (data_sections o') -> In item items ->
        exists pre raw post,
          splitlines main_cbl = pre ++ raw :: post /\
          last_division pre = Some (L "DATA") /\
          open_section pre = Some s /\
          data_item_of raw = Some item) /\
    (forall st n raw st',
        isascii raw = true ->
        parse_line st (n, raw) = Ok st' -> div st <> Some (L "DATA") ->
        data_sections (self st') = data_sections (self st)).
Proof.
  split; [reflexivity|]. split; [reflexivity|].
  exact (C6_data_items_inside_data_division repo main_path main_cbl eq_refl eq_refl).
Defined.

(** C7 at a file with no declaration line: the identifier is the stem *)
Lemma C7_witness :
  read_text (one_file sub1_path no_id_cbl) sub1_path = Ok no_id_cbl /\
  isascii no_id_cbl = true /\
  (forall raw, In raw (splitlines no_id_cbl) -> declared_id raw = None) /\
  exists o',
    parse (one_file sub1_path no_id_cbl) (init sub1_path) = Ok o' /\
    program_id o' = stem sub1_path /\
    stem sub1_path = L "sub1".
Proof.
  assert (Hb : forallb (fun raw => match declared_id raw with None => true | Some _ => false end)
                       (splitlines no_id_cbl) = true) by (vm_compute; reflexivity).
  assert (Hnone : forall raw, In raw (splitlines no_id_cbl) -> declared_id raw = None).
  { intros raw Hin. rewrite forallb_forall in Hb. specialize (Hb raw Hin).
    destruct (declared_id raw); [discriminate Hb|reflexivity]. }
  split; [reflexivity|]. split; [reflexivity|]. split; [exact Hnone|].
  destruct (C7_program_id_defaults_to_stem
              (one_file sub1_path no_id_cbl) sub1_path no_id_cbl eq_refl eq_refl)
    as (o' & Hp & Hdefault & Hstem & _).
  exists o'. split; [exact Hp|]. split; [exact (Hdefault Hnone)|].
  apply (Hstem (L "/repo/lib") (L "sub1")); [reflexivity|discriminate|].
  simpl. intuition discriminate.
Defined.

(** C8 at a sample input *)
Lemma C8_witness :
  read_text repo main_path = Ok main_cbl /\
  isascii main_cbl = true /\
  ((sniff_program_id repo main_path = None /\
    forall a b, main_cbl = a ++ b ->
                Re.match_at _PROGID_RE (Re.last_char None a) b = None) \/
   (exists a b mo,
      main_cbl = a ++ b /\
      Re.match_at _PROGID_RE (Re.last_char None a) b = Some mo /\
      sniff_program_id repo main_path = Some (Re.group mo 1) /\
      forall a' b', main_cbl = a' ++ b' -> List.length a' < List.length a ->
                    Re.match_at _PROGID_RE (Re.last_char None a') b' = None)).
Proof.
  split; [reflexivity|]. split; [reflexivity|].
  exact (proj2 (C8_sniffer_first_occurrence_or_none repo main_path) main_cbl eq_refl eq_refl).
Defined.

(** C9 at a sample input *)
Lemma C9_witness :
  read_text (one_file main_path split_id_cbl) main_path = Ok split_id_cbl /\
  isascii split_id_cbl = true /\
  1 < List.length (declared_names (splitlines split_id_cbl)) /\
  (exists o', parse (one_file main_path split_id_cbl) (init main_path) = Ok o' /\
              program_id o' = last (declared_names (splitlines split_id_cbl)) (stem main_path) /\
              In (program_id o') (declared_names (splitlines split_id_cbl))) /\
  ((sniff_program_id (one_file main_path split_id_cbl) main_path = None /\
    forall a b, split_id_cbl = a ++ b ->
                Re.match_at _PROGID_RE (Re.last_char None a) b = None) \/
   (exists a b mo,
      split_id_cbl = a ++ b /\
      Re.match_at _PROGID_RE (Re.last_char None a) b = Some mo /\
      sniff_program_id (one_file main_path split_id_cbl) main_path = Some (Re.group mo 1) /\
      forall a' b', split_id_cbl = a' ++ b' -> List.length a' < List.length a ->
                    Re.match_at _PROGID_RE (Re.last_char None a') b' = None)).
Proof.
  assert (Hlen : 1 < List.length (declared_names (splitlines split_id_cbl)))
    by (vm_compute; constructor).
  split; [reflexivity|]. split; [reflexivity|]. split; [exact Hlen|].
  exact (proj1 C9_last_line_against_leftmost_match
               (one_file main_path split_id_cbl) main_path split_id_cbl
               eq_refl eq_refl Hlen).
Defined.

(** C10 at a sample input *)
Lemma C10_witness :
  read_text repo main_path = Ok main_cbl /\
  isascii main_cbl = true /\
  numbered_lines main_cbl =
    firstn 10 (numbered_lines main_cbl) ++
    (11, L "       START-UP.") :: skipn 11 (numbered_lines main_cbl) /\
  parse_lines (start (init main_path)) (firstn 10 (numbered_lines main_cbl)) =
    Ok main_before_reopen /\
  paragraph_header main_before_reopen (L "       START-UP.") = Some (L "START-UP") /\
  exists st1 o' pg,
    parse_line main_before_reopen (11, L "       START-UP.") = Ok st1 /\
    dict_get (L "START-UP") (paragraphs (self st1)) = Some {| statements := [] |} /\
    calls (self st1) = calls (self main_before_reopen) /\
    parse repo (init main_path) = Ok o' /\
    dict_get (L "START-UP") (paragraphs o') = Some pg /\
    Forall (fun s => 11 < line s) (statements pg) /\
    (forall old s,
        dict_get (L "START-UP") (paragraphs (self main_before_reopen)) = Some old ->
        In s (statements old) ->
        ~ In s (statements pg) /\
        (is_call s = true -> In (edge_of main_path (L "START-UP") s) (calls o'))).
Proof.
  assert (H1 : read_text repo main_path = Ok main_cbl) by reflexivity.
  assert (H0 : isascii main_cbl = true) by reflexivity.
  assert (H2 : numbered_lines main_cbl =
               firstn 10 (numbered_lines main_cbl) ++
               (11, L "       START-UP.") :: skipn 11 (numbered_lines main_cbl))
    by (vm_compute; reflexivity).
  assert (H3 : parse_lines (start (init main_path)) (firstn 10 (numbered_lines main_cbl)) =
               Ok main_before_reopen) by (vm_compute; reflexivity).
  assert (H4 : paragraph_header main_before_reopen (L "       START-UP.") =
               Some (L "START-UP")) by (vm_compute; reflexivity).
  repeat (split; [assumption|]).
  exact (C10_reopened_paragraph_starts_empty
           repo main_path main_cbl _ 11 (L "       START-UP.") _
           main_before_reopen (L "START-UP") H1 H0 H2 H3 H4).
Defined.

(** ** The sample repository, run *)

Example main_cbl_structure :
  program_id main_parsed = L "MAIN" /\
  divisions main_parsed = [L "IDENTIFICATION"; L "DATA"; L "PROCEDURE"] /\
  data_sections main_parsed =
    [(L "WORKING-STORAGE",
      [{| level := 77; name := L "WS-COUNT"; pic := L "9(4)" |};
       {| level := 1; name := L "WS-NAME"; pic := L "X(10)" |}])] /\
  paragraphs main_parsed =
    [(L "START-UP",
      {| statements := [{| type := CALL; target := L "sub2"; line := 12 |};
                        {| type := PERFORM; target := L "CLEANUP"; line := 12 |}] |})] /\
  map to_program (calls main_parsed) = [L "SUB1"; L "sub2"].
Proof. repeat split. Qed.

Example main_cbl_before_line_11 :
  paragraphs (self main_before_reopen) =
    [(L "START-UP",
      {| statements := [{| type := CALL; target := L "SUB1"; line := 9 |};
                        {| type := PERFORM; target := L "CLEANUP"; line := 10 |}] |})].
Proof. reflexivity. Qed.

Example repo_resolved :
  exists structures edges,
    parse_repo repo (L "/repo") = Ok (structures, edges) /\
    map (fun e => (to_program e, to_file e)) edges =
      [(L "SUB1", Some (Some sub1_path)); (L "sub2", Some None);
       (L "NOWHERE", Some None)].
Proof. eexists. eexists. split; vm_compute; reflexivity. Qed.

Example locked_repo_raises : parse_repo locked_repo (L "/repo") = Raise OSError.
Proof. vm_compute. reflexivity. Qed.

Example sniffed :
  sniff_program_id repo main_path = Some (L "MAIN") /\
  sniff_program_id repo sub1_path = Some (L "SUB1") /\
  sniff_program_id locked_repo locked_path = None /\
  sniff_program_id (one_file main_path (unlines ["       PROCEDURE DIVISION."%string])) main_path
  = None /\
  sniff_program_id (one_file main_path split_id_cbl) main_path = Some (L "X") /\
  build_index repo (L "/repo") = [(L "main", main_path); (L "sub1", sub1_path)].
Proof. repeat split; vm_compute; reflexivity. Qed.

Example no_declaration_defaults_to_stem :
  program_id (parsed_or_init repo sub1_path) = L "SUB1" /\
  program_id (parsed_or_init (one_file sub1_path (unlines ["       PROCEDURE DIVISION."%string]))
                             sub1_path) = L "sub1".
Proof. split; vm_compute; reflexivity. Qed.

(** * Further properties *)

(** ** How a run can fail *)

Section Failures.

Lemma parse_all_total fs files : forall acc,
  all_readable fs files -> exists s, parse_all fs files acc = Ok s.
Proof.
  induction files as [|f files IH]; intros acc Hr; cbn [parse_all]; [eauto|].
  destruct (Hr f (or_introl eq_refl)) as [text Ht].
  unfold parse at 1. cbn [path init]. rewrite Ht. cbn [bind].
  destruct (parse_text_total (init f) text) as [o ->]. cbn [bind].
  apply IH. intros g Hg. apply Hr. now right.
Qed.

Lemma parse_all_first_error fs a f b e : forall acc,
  all_readable fs a -> read_text fs f = Raise e ->
  parse_all fs (a ++ f :: b) acc = Raise e.
Proof.
  induction a as [|g a IH]; intros acc Hr He; cbn [parse_all app].
  - unfold parse. cbn [path init]. now rewrite He.
  - destruct (Hr g (or_introl eq_refl)) as [text Ht].
    unfold parse at 1. cbn [path init]. rewrite Ht. cbn [bind].
    destruct (parse_text_total (init g) text) as [o ->]. cbn [bind].
    apply IH; auto. intros h Hh. apply Hr. now right.
Qed.

Lemma parse_all_ok_readable fs files acc s :
  parse_all fs files acc = Ok s -> all_readable fs files.
Proof.
  intros H f Hin. destruct (read_text fs f) as [text|e] eqn:E; [eauto|].
  destruct (parse_all_unreadable fs files acc f e Hin E) as [e' He']. congruence.
Qed.

End Failures.

(** X1. [parse] raises exactly when the read of its file raises, and then
    the same exception: no line of any text makes the loop raise. *)
Theorem X1_parse_raises_only_the_read_error fs o e :
  parse fs o = Raise e <-> read_text fs (path o) = Raise e.
Proof.
  unfold parse. destruct (read_text fs (path o)) as [text|e'] eqn:E; cbn [bind].
  - destruct (parse_text_total o text) as [o' ->]. split; discriminate.
  - split; intros H; inversion H; reflexivity.
Qed.

(** X2. Pass 1 of [parse_repo], the loop that parses every listed file,
    returns exactly when every listed file can be read; otherwise it raises
    the exception of the first listed file that cannot, whatever the files
    listed after it are and whatever was parsed before it. *)
Theorem X2_pass_one_stops_at_first_unreadable fs files structures :
  ((exists parsed, parse_all fs files structures = Ok parsed) <-> all_readable fs files) /\
  (forall a f b e,
      files = a ++ f :: b -> all_readable fs a ->
      read_text fs f = Raise e -> parse_all fs files structures = Raise e).
Proof.
  split; [split|].
  - intros [parsed H]. eapply parse_all_ok_readable; eauto.
  - apply parse_all_total.
  - intros a f b e -> Ha He. now apply parse_all_first_error.
Qed.

(** ** The line patterns, one against another *)

Section Patterns.
Import Re ReFacts.

Ltac inv_matches :=
  unfold star, plus, opt, exactly, lazy_star, dot_ in *;
  repeat (match goal with
          | H : matches _ (RSeq _ _) _ _ |- _ => inversion H; clear H
          | H : matches _ (RGroup _ _) _ _ |- _ => inversion H; clear H
          | H : matches _ (RAtom _) _ _ |- _ => inversion H; clear H
          | H : matches _ (RRep _ _ _ _) _ _ |- _ => inversion H; clear H
          | H : matches _ RBol _ _ |- _ => inversion H; clear H
          | H : matches _ REol _ _ |- _ => inversion H; clear H
          | H : matches _ RWordB _ _ |- _ => inversion H; clear H
          | H : matches _ REps _ _ |- _ => inversion H; clear H
          end; subst; cbn [rest prev groups] in *; subst).

Lemma match_at_sound pt q s mo :
  match_at pt q s = Some mo ->
  matches (fl pt) (re pt) {| prev := q; rest := s; groups := [] |} mo.
Proof.
  unfold match_at. intros H.
  apply m_sound in H as (st' & Hm & Hk). now inversion Hk; subst.
Qed.

Lemma consumed_cons p g p' g' c (w s' : str) :
  consumed {| prev := p; rest := c :: w ++ s'; groups := g |}
           {| prev := p'; rest := s'; groups := g' |} = c :: w.
Proof. apply (consumed_app p g p' g' (c :: w) s'). Qed.

Lemma nonempty_length (w : str) : 1 <= List.length w -> w <> [].
Proof. destruct w; simpl; [lia|discriminate]. Qed.

Lemma Forall_wh w f :
  Forall (fun c => atom_match f wh_ c = true) w ->
  ignorecase f = true ->
  Forall (fun c => atom_match I wh_ c = true) w.
Proof.
  intros H Hf. eapply Forall_impl; [|exact H]. intros c. cbn.
  unfold lit_match. now rewrite Hf.
Qed.

(** A match of the PROGRAM-ID pattern, wherever it starts: white space, the
    keyword, a dot, white space, the captured name, a dot. *)
Lemma progid_full q s mo :
  match_at _PROGID_RE q s = Some mo ->
  exists w0 kw d ws nm d2 tl,
    s = w0 ++ kw ++ d :: ws ++ nm ++ d2 :: tl /\
    Forall (fun c => isspace c = true) w0 /\
    Forall (fun c => atom_match I wh_ c = true) kw /\ kw <> [] /\
    lit_match I "." d = true /\
    Forall (fun c => isspace c = true) ws /\ ws <> [] /\
    Forall (fun c => atom_match I wh_ c = true) nm /\ nm <> [] /\
    lit_match I "." d2 = true /\
    group mo 1 = nm.
Proof.
  intros H. apply match_at_sound in H.
  cbn [_PROGID_RE re fl seq lit L list_ascii_of_string map] in H.
  inv_matches.
  match goal with
  | |- exists _ _ _ _ _ _ _,
        ?w ++ ?p :: ?c1 :: ?c2 :: ?c3 :: ?c4 :: ?c5 :: ?c6 :: ?c7 :: ?c8 :: ?c9 :: ?d
           :: ?ws ++ ?nm ++ ?d2 :: ?tl = _ /\ _ =>
      exists w, [p; c1; c2; c3; c4; c5; c6; c7; c8; c9], d, ws, nm, d2, tl
  end.
  unfold group. cbn [groups]. rewrite consumed_app. cbn [set_group get_group Nat.eqb].
  repeat split; auto using nonempty_length;
    try (now apply Forall_space with (f := IM));
    try (now apply Forall_wh with (f := IM));
    try discriminate.
  repeat constructor;
    match goal with
    | H : atom_match IM (ALit ?k) ?c = true |- atom_match I wh_ ?c = true =>
        apply (keyword_char k c); [simpl; tauto | exact H]
    end.
Qed.

Lemma eol_rest f st : at_eol f st = true -> multiline f = false ->
  Forall (fun c => isspace c = true) (rest st).
Proof.
  unfold at_eol. destruct (rest st) as [|c [|d s]]; intros H Hm; auto.
  - apply andb_true_iff in H as [H _]. apply Nat.eqb_eq in H.
    repeat constructor. unfold isspace, in_range. rewrite H. reflexivity.
  - rewrite Hm in H. apply andb_true_iff in H as [_ H]. discriminate.
Qed.

(** A text accepted by the paragraph pattern: white space, the captured
    name, a dot, white space to the end. *)
Lemma par_full s mo :
  match_ _PAR_RE s = Some mo ->
  exists v0 nm d tl,
    s = v0 ++ nm ++ d :: tl /\
    Forall (fun c => isspace c = true) v0 /\
    Forall (fun c => atom_match I wh_ c = true) nm /\ nm <> [] /\
    lit_match I "." d = true /\
    Forall (fun c => isspace c = true) tl /\
    group mo 1 = nm.
Proof.
  intros H. apply match_sound in H.
  cbn [_PAR_RE re fl seq lit L list_ascii_of_string map] in H.
  inv_matches.
  match goal with
  | He : at_eol I _ = true
    |- exists _ _ _ _, ?v0 ++ ?nm ++ ?d :: ?w ++ ?r = _ /\ _ =>
      exists v0, nm, d, (w ++ r); apply eol_rest in He; [|reflexivity]; cbn [rest] in He
  end.
  unfold group. cbn [groups]. rewrite consumed_app. cbn [set_group get_group Nat.eqb].
  repeat split; auto using nonempty_length;
    try (now apply Forall_space with (f := I)).
  apply Forall_app. split; auto. now apply Forall_space with (f := I).
Qed.

Ltac header_full_tac :=
  match goal with
  | |- header_full _ (?v0 ++ ?x :: ?v1 ++ ?ws ++ ?c :: ?tl) _ =>
      exists v0, x, v1, ws, c, tl
  end;
  unfold group; cbn [groups]; rewrite consumed_cons;
  cbn [set_group get_group Nat.eqb];
  repeat match goal with
         | H : Forall (fun c => atom_match _ s_ c = true) _ |- _ =>
             apply Forall_space in H
         end;
  match goal with
  | H : atom_match I w_ ?c = true |- _ => simpl in H; rewrite orb_false_r in H
  end;
  repeat split; auto using nonempty_length.

Lemma div_full s mo : match_ _DIV_RE s = Some mo -> header_full "D" s mo.
Proof.
  intros H. apply match_sound in H.
  cbn [_DIV_RE re fl seq lit L list_ascii_of_string map] in H.
  inv_matches. header_full_tac.
Qed.

Lemma sec_full s mo : match_ _SEC_RE s = Some mo -> header_full "S" s mo.
Proof.
  intros H. apply match_sound in H.
  cbn [_SEC_RE re fl seq lit L list_ascii_of_string map] in H.
  inv_matches. header_full_tac.
Qed.

End Patterns.

Section Exclusive.
Import Re ReFacts.

Lemma isspace_lower c : isspace (lower c) = isspace c.
Proof.
  pose proof (every_ascii (fun c => Bool.eqb (isspace (lower c)) (isspace c)) eq_refl c) as E.
  now apply Bool.eqb_prop in E.
Qed.

Lemma lit_same_space k c : lit_match I k c = true -> isspace c = isspace k.
Proof.
  unfold lit_match. cbn. intros H. apply Ascii.eqb_eq in H.
  now rewrite <- (isspace_lower c), <- H, isspace_lower.
Qed.

Lemma wh_not_space c : atom_match I wh_ c = true -> isspace c = false.
Proof.
  intros H. destruct (isspace c) eqn:E; auto.
  apply wh_of_space in E. congruence.
Qed.

Lemma dot_not_wh d : lit_match I "." d = true -> atom_match I wh_ d = false /\ isspace d = false.
Proof. apply dot_char. Qed.

Lemma header_full_shape k s mo : header_full k s mo -> header_shape s.
Proof.
  intros (v0 & x & v1 & ws & c & tl & E & Hv0 & Hx & Hv1 & Hws & Hne & _).
  destruct ws as [|sp ws]; [congruence|]. inversion Hws; subst.
  exists v0, x, v1, sp, (ws ++ c :: tl). repeat split; auto.
  constructor; auto using wh_of_word.
Qed.

(** The division and the section pattern cut a text in the same way up to
    the keyword, so a text cannot have both keywords. *)
Lemma header_full_unique k k' s mo mo' :
  isspace k = false -> isspace k' = false ->
  header_full k s mo -> header_full k' s mo' ->
  group mo 1 = group mo' 1 /\ exists c, lit_match I k c = true /\ lit_match I k' c = true.
Proof.
  intros Hk Hk'
    (v0 & x & v1 & ws & c & tl & E & Hv0 & Hx & Hv1 & Hws & Hne & Hc & Hg)
    (v0' & x' & v1' & ws' & c' & tl' & E' & Hv0' & Hx' & Hv1' & Hws' & Hne' & Hc' & Hg').
  rewrite E in E'. simpl in E'.
  apply (span_unique isspace) in E' as (_ & -> & E'); auto.
  2,3: match goal with
       | |- isspace ?y = false =>
           apply wh_not_space, wh_of_word; assumption
       end.
  destruct ws as [|sp ws]; [congruence|]. destruct ws' as [|sp' ws']; [congruence|].
  inversion Hws; inversion Hws'; subst.
  simpl in E'.
  apply (span_unique (atom_match I wh_)) in E' as (-> & -> & E'); auto using wh_of_space.
  assert (E2 : (sp' :: ws) ++ c :: tl = (sp' :: ws') ++ c' :: tl') by (simpl; congruence).
  apply (span_unique isspace) in E2 as (_ & -> & _); auto.
  - split; [congruence|]. eauto.
  - rewrite (lit_same_space _ _ Hc). exact Hk.
  - rewrite (lit_same_space _ _ Hc'). exact Hk'.
Qed.

Lemma div_not_sec s mo mo' :
  match_ _DIV_RE s = Some mo -> match_ _SEC_RE s = Some mo' -> False.
Proof.
  intros H H'. apply div_full in H. apply sec_full in H'.
  destruct (header_full_unique "D" "S" s mo mo' eq_refl eq_refl H H') as (_ & c & Hd & Hs).
  unfold lit_match in Hd, Hs. cbn in Hd, Hs.
  apply Ascii.eqb_eq in Hd, Hs. rewrite <- Hd in Hs. discriminate.
Qed.

Lemma par_not_header s mo : match_ _PAR_RE s = Some mo -> ~ header_shape s.
Proof.
  intros H (v0 & x & v1 & sp & tl & E & Hv0 & Hx & Hv1 & Hsp).
  apply par_full in H as (w0 & nm & d & ptl & E' & Hw0 & Hnm & Hne & Hd & _).
  destruct nm as [|n0 nm]; [congruence|]. inversion Hnm; subst.
  simpl in E.
  apply (span_unique isspace) in E as (_ & -> & E); auto using wh_not_space, wh_of_word.
  destruct (dot_not_wh _ Hd) as [Hdw Hds].
  assert (E2 : (x :: nm) ++ d :: ptl = (x :: v1) ++ sp :: tl) by (simpl; congruence).
  apply (span_unique (atom_match I wh_)) in E2 as (_ & -> & _); auto using wh_of_space.
  congruence.
Qed.

Lemma progid_not_par s mo mo' :
  match_ _PROGID_RE s = Some mo -> match_ _PAR_RE s = Some mo' -> False.
Proof.
  intros H H'.
  apply progid_full in H
    as (w0 & kw & d & ws & nm & d2 & tl & E & Hw0 & Hkw & Hkne & Hd & Hws & Hwne & Hnm & Hnne & _).
  apply par_full in H' as (v0 & pn & e & ptl & E' & Hv0 & Hpn & Hpne & He & Hptl & _).
  destruct kw as [|k0 kw]; [congruence|]. destruct pn as [|p0 pn]; [congruence|].
  destruct nm as [|n0 nm]; [congruence|].
  inversion Hkw; inversion Hpn; inversion Hnm; subst.
  simpl in E'.
  apply (span_unique isspace) in E' as (_ & -> & E'); auto using wh_not_space.
  destruct (dot_not_wh _ Hd) as [Hdw _]. destruct (dot_not_wh _ He) as [Hew _].
  assert (E2 : (p0 :: kw) ++ d :: ws ++ (n0 :: nm) ++ d2 :: tl = (p0 :: pn) ++ e :: ptl)
    by (simpl; congruence).
  apply (span_unique (atom_match I wh_)) in E2 as (_ & _ & E2); auto.
  rewrite <- E2 in Hptl. apply Forall_app in Hptl as [_ Hptl].
  inversion Hptl; subst.
  match goal with
  | Hs : isspace n0 = true, Hw : atom_match I wh_ n0 = true |- _ =>
      apply wh_not_space in Hw; congruence
  end.
Qed.

Lemma filter_at_most_one {A} (f : A -> bool) a b c d :
  (f a = true -> f b = true -> False) ->
  (f a = true -> f c = true -> False) ->
  (f a = true -> f d = true -> False) ->
  (f b = true -> f c = true -> False) ->
  (f b = true -> f d = true -> False) ->
  (f c = true -> f d = true -> False) ->
  List.length (filter f [a; b; c; d]) <= 1.
Proof.
  intros Hab Hac Had Hbc Hbd Hcd. cbn [filter].
  destruct (f a), (f b), (f c), (f d); cbn [List.length]; try lia; exfalso; auto.
Qed.

Lemma accepts_true pt s : accepts pt s = true -> exists mo, match_ pt s = Some mo.
Proof. unfold accepts. destruct (match_ pt s); [eauto|discriminate]. Qed.

End Exclusive.

(** X4. No text is accepted by two of the division, section, PROGRAM-ID and
    paragraph patterns: the order in which [parse] tries them decides
    nothing. *)
Theorem X4_line_patterns_exclusive s :
  List.length (filter (fun pt => accepts pt s) line_patterns) <= 1.
Proof.
  unfold line_patterns. apply filter_at_most_one; intros H H';
    apply accepts_true in H as [mo H]; apply accepts_true in H' as [mo' H'].
  - exact (div_not_sec s mo mo' H H').
  - exact (progid_not_header s mo' H' (div_shape s mo H)).
  - exact (par_not_header s mo' H' (div_shape s mo H)).
  - exact (progid_not_header s mo' H' (sec_shape s mo H)).
  - exact (par_not_header s mo' H' (sec_shape s mo H)).
  - exact (progid_not_par s mo mo' H H').
Qed.

(** ** Where statements and edges come from *)

Section Provenance.

Lemma detect_call_exact n s p o pg :
  dict_get p (paragraphs o) = Some pg ->
  exists o1 new,
    detect_call n s p o = Ok o1 /\
    new = match Re.search _CALL_RE s with
          | Some mo => [{| type := CALL; target := Re.group mo 1; line := n |}]
          | None => []
          end /\
    path o1 = path o /\
    paragraphs o1 = dict_set p {| statements := statements pg ++ new |} (paragraphs o) /\
    calls o1 = calls o ++ map (edge_of (path o) p) new.
Proof.
  intros Hg. unfold detect_call, append_statement.
  destruct (Re.search _CALL_RE s) as [mc|].
  - rewrite Hg. cbn [bind]. eexists. eexists. repeat split.
  - exists o, []. repeat split; cbn; rewrite ?app_nil_r; auto.
    destruct pg. symmetry. now apply dict_set_same_value.
Qed.

Lemma detect_perform_exact n s p o pg :
  dict_get p (paragraphs o) = Some pg ->
  exists o2 new,
    detect_perform n s p o = Ok o2 /\
    new = match Re.search _PERF_RE s with
          | Some mo => [{| type := PERFORM; target := Re.group mo 1; line := n |}]
          | None => []
          end /\
    path o2 = path o /\
    paragraphs o2 = dict_set p {| statements := statements pg ++ new |} (paragraphs o) /\
    calls o2 = calls o /\
    filter is_call new = [].
Proof.
  intros Hg. unfold detect_perform, append_statement.
  destruct (Re.search _PERF_RE s) as [mp|].
  - rewrite Hg. cbn [bind]. eexists. eexists. repeat split.
  - exists o, []. repeat split; cbn; rewrite ?app_nil_r; auto.
    destruct pg. symmetry. now apply dict_set_same_value.
Qed.

Lemma detections_exact n s p o pg :
  dict_get p (paragraphs o) = Some pg ->
  exists o1 o2,
    detect_call n s p o = Ok o1 /\
    detect_perform n s p o1 = Ok o2 /\
    path o2 = path o /\
    paragraphs o2 =
      dict_set p {| statements := statements pg ++ detected n s |} (paragraphs o) /\
    calls o2 = calls o ++ map (edge_of (path o) p) (filter is_call (detected n s)).
Proof.
  intros Hg.
  destruct (detect_call_exact n s p o pg Hg) as (o1 & new1 & E1 & N1 & P1 & G1 & C1).
  assert (Hg1 : dict_get p (paragraphs o1) = Some {| statements := statements pg ++ new1 |}).
  { rewrite G1. apply dict_get_set_same. }
  destruct (detect_perform_exact n s p o1 _ Hg1) as (o2 & new2 & E2 & N2 & P2 & G2 & C2 & F2).
  exists o1, o2. repeat split; auto; try congruence.
  - rewrite G2, G1, dict_set_twice. cbn [statements]. rewrite <- app_assoc.
    unfold detected. now rewrite <- N1, <- N2.
  - rewrite C2, C1. unfold detected. rewrite <- N1, <- N2, filter_app, F2, app_nil_r.
    f_equal. f_equal. rewrite N1. destruct (Re.search _CALL_RE s); reflexivity.
Qed.

(** What a turn of the loop does to the paragraphs and the edges *)
Lemma parse_line_procedure st n raw st' :
  parse_line st (n, raw) = Ok st' ->
  (paragraphs (self st') = paragraphs (self st) /\ calls (self st') = calls (self st)) \/
  (exists p, paragraph_header st raw = Some p /\
             paragraphs (self st') =
               dict_set p {| statements := [] |} (paragraphs (self st)) /\
             calls (self st') = calls (self st)) \/
  (exists p pg,
      statement_line st raw = Some p /\
      dict_get p (paragraphs (self st)) = Some pg /\
      paragraphs (self st') =
        dict_set p {| statements := statements pg ++ detected n (stripped raw) |}
                 (paragraphs (self st)) /\
      calls (self st') =
        calls (self st) ++
        map (edge_of (path (self st)) p) (filter is_call (detected n (stripped raw)))).
Proof.
  intros H. pose proof (parse_line_step _ _ _ _ H) as Hs.
  destruct (line_step_procedure _ _ _ _ Hs) as [A|[B|(p & pg & new & Hl & Hg & _)]]; auto.
  right; right. exists p, pg.
  rewrite (parse_line_statement _ _ _ _ Hl) in H.
  destruct (detections_exact n (stripped raw) p (self st) pg Hg)
    as (o1 & o2 & E1 & E2 & _ & Hp & Hc).
  rewrite E1 in H. cbn [bind] in H. rewrite E2 in H. cbn [bind] in H.
  inversion H; subst. cbn. auto.
Qed.

Lemma paragraph_header_opens st raw : paragraph_header st raw = opens (div st) raw.
Proof. reflexivity. Qed.

Lemma opens_early d raw p : opens d raw = Some p -> taken_early raw = false.
Proof. unfold opens. destruct (taken_early raw); [discriminate|auto]. Qed.

Lemma opens_procedure d raw p : opens d raw = Some p -> d = Some (L "PROCEDURE").
Proof.
  unfold opens. destruct (taken_early raw); [discriminate|].
  destruct (is_str d "PROCEDURE") eqn:E; [|discriminate].
  intros _. now apply is_str_eq.
Qed.

Lemma statement_line_opens st raw p :
  statement_line st raw = Some p ->
  opens (div st) raw = None /\ div st = Some (L "PROCEDURE").
Proof.
  unfold statement_line, opens. destruct (taken_early raw); [discriminate|].
  destruct (is_str (div st) "PROCEDURE") eqn:E; [|discriminate].
  destruct (Re.match_ _PAR_RE (stripped raw)); [discriminate|].
  intros _. split; auto. now apply is_str_eq.
Qed.

Lemma taken_early_opens d raw : taken_early raw = true -> opens d raw = None.
Proof. unfold opens. now intros ->. Qed.

Lemma line_step_para st n raw st' :
  line_step st n raw st' -> para st' = next_para (div st) (para st) raw.
Proof.
  unfold next_para.
  destruct 1 as [d Hd|s Hd Hs|i Hd Hs Hi|s item Ht Hdiv Hsec Hne Hitem|p Hp
                |p o1 o2 Hp H1 H2|Hd Hs Hi Hp Hl]; cbn [para with_self].
  - now rewrite Hd.
  - rewrite Hd, taken_early_opens; auto.
    unfold taken_early. rewrite Hd, Hs. apply orb_true_r.
  - rewrite Hd, taken_early_opens; auto.
    unfold taken_early. rewrite Hd, Hs, Hi. apply orb_true_r.
  - destruct (taken_early_inv _ Ht) as (_ & -> & _).
    unfold opens. rewrite Ht, Hdiv. reflexivity.
  - rewrite paragraph_header_opens in Hp.
    destruct (taken_early_inv _ (opens_early _ _ _ Hp)) as (_ & -> & _).
    now rewrite Hp.
  - destruct (taken_early_inv _ (statement_line_early _ _ _ Hp)) as (_ & -> & _).
    destruct (statement_line_opens _ _ _ Hp) as [-> _]. reflexivity.
  - rewrite paragraph_header_opens in Hp. now rewrite Hd, Hp.
Qed.

Lemma context_snoc raws raw :
  context (raws ++ [raw]) =
  (next_div (fst (context raws)) raw,
   next_para (fst (context raws)) (snd (context raws)) raw).
Proof. unfold context. now rewrite fold_left_app. Qed.

Lemma context_division raws : fst (context raws) = last_division raws.
Proof.
  induction raws as [|raw raws IH] using rev_ind; [reflexivity|].
  rewrite context_snoc, last_division_snoc. cbn. now rewrite IH.
Qed.

Lemma open_paragraph_snoc raws raw :
  open_paragraph (raws ++ [raw]) =
  next_para (last_division raws) (open_paragraph raws) raw.
Proof.
  unfold open_paragraph. rewrite context_snoc. cbn. now rewrite context_division.
Qed.

Lemma stated_in_snoc raws raw name s :
  stated_in raws name s -> stated_in (raws ++ [raw]) name s.
Proof.
  intros (pre & r & post & -> & H).
  exists pre, r, (post ++ [raw]). now rewrite <- app_assoc.
Qed.

Lemma opened_in_snoc raws raw name :
  opened_in raws name -> opened_in (raws ++ [raw]) name.
Proof.
  intros (pre & r & post & -> & H).
  exists pre, r, (post ++ [raw]). now rewrite <- app_assoc.
Qed.

Lemma stated_in_bound raws name s : stated_in raws name s -> line s <= List.length raws.
Proof.
  intros (pre & r & post & -> & Hl & _). rewrite Hl, length_app. simpl. lia.
Qed.

Lemma detected_line n s x : In x (detected n s) -> line x = n.
Proof.
  unfold detected. intros H. apply in_app_iff in H.
  destruct (Re.search _CALL_RE s), (Re.search _PERF_RE s);
    destruct H as [H|H]; simpl in H; try tauto;
    destruct H as [<-|[]]; reflexivity.
Qed.

Lemma ascending_edges es new n :
  ascending (map edge_line es) -> Forall (fun e => edge_line e <= n) es ->
  Forall (fun e => edge_line e = S n) new ->
  ascending (map edge_line (es ++ new)).
Proof.
  intros Ha Hb Hn. rewrite map_app.
  apply ascending_snoc with (n := S n); auto.
  - apply Forall_map. eapply Forall_impl; [|exact Hb]. simpl. intros; lia.
  - apply Forall_map. exact Hn.
Qed.

Lemma procedure_history_step st raws raw st' :
  para_known st ->
  procedure_history st raws ->
  parse_line st (1 + List.length raws, raw) = Ok st' ->
  procedure_history st' (raws ++ [raw]).
Proof.
  intros Hk [Hd Hp Hkeys Hst Hed [Hasc Hbound]] H.
  pose proof (parse_line_step _ _ _ _ H) as Hs.
  pose proof (line_step_headers _ _ _ _ Hs) as (Hd' & _ & Hpath & _).
  pose proof (line_step_para _ _ _ _ Hs) as Hp'.
  assert (Hlen : List.length (raws ++ [raw]) = S (List.length raws))
    by (rewrite length_app; simpl; lia).
  assert (Hbound' : Forall (fun e => edge_line e <= S (List.length raws)) (calls (self st))).
  { eapply Forall_impl; [|exact Hbound]. simpl. intros; lia. }
  assert (Hold_keys : forall name pg, In (name, pg) (paragraphs (self st)) ->
                                      opened_in (raws ++ [raw]) name)
    by (intros; eapply opened_in_snoc; eauto).
  assert (Hold_st : forall name pg s, In (name, pg) (paragraphs (self st)) ->
                      In s (statements pg) -> stated_in (raws ++ [raw]) name s)
    by (intros; eapply stated_in_snoc; eauto).
  destruct (parse_line_procedure _ _ _ _ H)
    as [[E C]|[(p & Hh & E & C)|(p & pg & Hl & Hg & E & C)]].
  - split.
    + rewrite last_division_snoc. congruence.
    + rewrite open_paragraph_snoc. congruence.
    + rewrite E. exact Hold_keys.
    + rewrite E. exact Hold_st.
    + rewrite C, E, Hpath. intros e He.
      destruct (Hed e He) as (name & s & -> & Hc & Hin & Hpg).
      exists name, s. repeat split; auto. now apply stated_in_snoc.
    + rewrite C, Hlen. auto.
  - assert (Hopen : opened_in (raws ++ [raw]) p).
    { rewrite paragraph_header_opens, Hd in Hh.
      exists raws, raw, []. repeat split; auto.
      eapply opens_procedure; eauto. }
    split.
    + rewrite last_division_snoc. congruence.
    + rewrite open_paragraph_snoc. congruence.
    + rewrite E. intros name q Hin.
      apply dict_set_In in Hin as [Hin|Hin]; [inversion Hin; subst; auto|eauto].
    + rewrite E. intros name q s Hin Hs'.
      apply dict_set_In in Hin as [Hin|Hin]; [inversion Hin; subst; destruct Hs'|eauto].
    + rewrite C, E, Hpath. intros e He.
      destruct (Hed e He) as (name & s & -> & Hc & Hin & q & Hq).
      exists name, s. repeat split; auto using stated_in_snoc.
      rewrite dict_get_set. destruct (str_eqb p name); eauto.
    + rewrite C, Hlen. auto.
  - destruct (statement_line_opens _ _ _ Hl) as [_ Hproc].
    assert (Hnew : forall s, In s (detected (1 + List.length raws) (stripped raw)) ->
                             stated_in (raws ++ [raw]) p s).
    { intros s Hs'. pose proof (detected_line _ _ _ Hs') as Hline.
      exists raws, raw, []. repeat split; auto.
      - congruence.
      - rewrite <- Hp. eapply statement_line_para; eauto.
      - now rewrite Hline. }
    split.
    + rewrite last_division_snoc. congruence.
    + rewrite open_paragraph_snoc. congruence.
    + rewrite E. intros name q Hin.
      apply dict_set_In in Hin as [Hin|Hin]; [|eauto].
      inversion Hin; subst. apply Hold_keys with (pg := pg). now apply dict_get_In.
    + rewrite E. intros name q s Hin Hs'.
      apply dict_set_In in Hin as [Hin|Hin]; [|eauto].
      inversion Hin; subst. cbn [statements] in Hs'.
      apply in_app_iff in Hs' as [Hs'|Hs']; auto.
      apply Hold_st with (pg := pg); auto. now apply dict_get_In.
    + rewrite C, E, Hpath. intros e He. apply in_app_iff in He as [He|He].
      * destruct (Hed e He) as (name & s & -> & Hc & Hin & q & Hq).
        exists name, s. repeat split; auto using stated_in_snoc.
        rewrite dict_get_set. destruct (str_eqb p name); eauto.
      * apply in_map_iff in He as (s & <- & Hs'). apply filter_In in Hs' as [Hs' Hc].
        exists p, s. repeat split; auto.
        rewrite dict_get_set_same. eauto.
    + rewrite C, Hlen. split.
      * apply ascending_edges with (n := List.length raws); auto.
        apply Forall_forall. intros e He.
        apply in_map_iff in He as (s & <- & Hs'). apply filter_In in Hs' as [Hs' _].
        cbn. now apply detected_line in Hs'.
      * apply Forall_app. split; auto.
        apply Forall_forall. intros e He.
        apply in_map_iff in He as (s & <- & Hs'). apply filter_In in Hs' as [Hs' _].
        cbn. apply detected_line in Hs'. lia.
Qed.

Lemma procedure_history_loop rest : forall raws st st',
  para_known st -> procedure_history st raws ->
  parse_lines st (enumerate rest (1 + List.length raws)) = Ok st' ->
  procedure_history st' (raws ++ rest).
Proof.
  induction rest as [|raw rest IH]; intros raws st st' Hk Hh H;
    cbn [enumerate parse_lines] in H.
  - inversion H; subst. now rewrite app_nil_r.
  - destruct (parse_line st (1 + List.length raws, raw)) as [st1|] eqn:E; [|discriminate].
    cbn [bind] in H.
    replace (raws ++ raw :: rest) with ((raws ++ [raw]) ++ rest)
      by (now rewrite <- app_assoc).
    apply (IH (raws ++ [raw]) st1 st').
    + destruct (parse_line_total st (1 + List.length raws) raw Hk) as (st2 & E2 & Hk2).
      rewrite E in E2. now inversion E2; subst.
    + eapply procedure_history_step; eauto.
    + rewrite length_app. simpl.
      replace (S (List.length raws + 1)) with (S (S (List.length raws))) by lia.
      exact H.
Qed.

Lemma procedure_history_start p : procedure_history (start (init p)) [].
Proof.
  split; cbn; auto.
  - intros name pg [].
  - intros name pg s [].
  - intros e [].
  - split; constructor.
Qed.

Lemma parse_procedure_history fs p text :
  read_text fs p = Ok text ->
  exists st,
    parse fs (init p) = Ok (self st) /\
    path (self st) = p /\
    procedure_history st (splitlines text).
Proof.
  intros Hr. unfold parse. cbn [path init]. rewrite Hr. cbn [bind].
  destruct (parse_text_total (init p) text) as [o' Ho'].
  pose proof Ho' as Ho. apply parse_text_inv in Ho as (st & Hl & ->).
  exists st. split; auto. split.
  - rewrite (path_kept _ _ _ Hl). reflexivity.
  - apply (procedure_history_loop (splitlines text) [] (start (init p)) st).
    + intros q; discriminate.
    + apply procedure_history_start.
    + exact Hl.
Qed.

End Provenance.

(** X5. Every statement of the structure record of a readable file of
    7-bit text comes from the line whose number it bears: a line read while PROCEDURE was
    the most recent division header and the paragraph that holds the
    statement was the open one, and on which the detection finds that
    statement. *)
Theorem X5_statements_come_from_their_lines fs p text :
  read_text fs p = Ok text ->
  isascii text = true ->
  exists o',
    parse fs (init p) = Ok o' /\
    forall name pg s,
      In (name, pg) (paragraphs o') -> In s (statements pg) ->
      exists pre raw post,
        splitlines text = pre ++ raw :: post /\
        line s = 1 + List.length pre /\
        last_division pre = Some (L "PROCEDURE") /\
        open_paragraph pre = Some name /\
        In s (detected (line s) (stripped raw)).
Proof.
  intros Hr _. destruct (parse_procedure_history fs p text Hr) as (st & Hp & _ & Hh).
  exists (self st). split; auto. intros name pg s Hin Hs.
  exact (ph_statements _ _ Hh name pg s Hin Hs).
Qed.

(** X6. Every raw edge of a readable file of 7-bit text names that file as
    its origin,
    has no resolved path yet, names as origin paragraph a key of the
    paragraphs of the record, and repeats the line number and the target of
    a CALL statement found on the line of that number while that paragraph
    was open; the edges are in ascending line order and their line numbers
    lie between 1 and the number of lines. *)
Theorem X6_edges_point_into_the_file fs p text :
  read_text fs p = Ok text ->
  isascii text = true ->
  exists o',
    parse fs (init p) = Ok o' /\
    (forall e, In e (calls o') ->
       from_file e = p /\ to_file e = None /\
       (exists pg, dict_get (from_paragraph e) (paragraphs o') = Some pg) /\
       1 <= edge_line e <= List.length (splitlines text) /\
       exists pre raw post mo,
         splitlines text = pre ++ raw :: post /\
         edge_line e = 1 + List.length pre /\
         last_division pre = Some (L "PROCEDURE") /\
         open_paragraph pre = Some (from_paragraph e) /\
         Re.search _CALL_RE (stripped raw) = Some mo /\
         to_program e = Re.group mo 1) /\
    ascending (map edge_line (calls o')).
Proof.
  intros Hr _. destruct (parse_procedure_history fs p text Hr) as (st & Hp & Hpath & Hh).
  exists (self st). split; auto. split; [|apply (ph_order _ _ Hh)].
  intros e He.
  destruct (ph_edges _ _ Hh e He) as (name & s & -> & Hc & Hin & Hpg).
  cbn [edge_of from_file to_file from_paragraph edge_line to_program].
  pose proof (stated_in_bound _ _ _ Hin) as Hb.
  destruct Hin as (pre & raw & post & E & Hl & Hd & Ho & Hdet).
  repeat split; auto; try lia.
  unfold detected in Hdet. apply in_app_iff in Hdet.
  destruct (Re.search _CALL_RE (stripped raw)) as [mo|] eqn:Ec.
  - exists pre, raw, post, mo. repeat split; auto.
    destruct Hdet as [[Hs|[]]|Hdet]; [now rewrite <- Hs|].
    destruct (Re.search _PERF_RE (stripped raw)); [|destruct Hdet].
    destruct Hdet as [Hs|[]]. apply (f_equal type) in Hs. cbn in Hs.
    unfold is_call in Hc. rewrite <- Hs in Hc. discriminate Hc.
  - destruct Hdet as [[]|Hdet].
    destruct (Re.search _PERF_RE (stripped raw)); [|destruct Hdet].
    destruct Hdet as [Hs|[]]. apply (f_equal type) in Hs. cbn in Hs.
    unfold is_call in Hc. rewrite <- Hs in Hc. discriminate Hc.
Qed.

Section Emptiness.

Lemma division_names_In raws d :
  In d (division_names raws) <-> exists raw, In raw raws /\ division_of raw = Some d.
Proof.
  induction raws as [|raw raws IH]; simpl.
  - split; [tauto|]. intros (? & [] & _).
  - destruct (division_of raw) as [d'|] eqn:E; simpl; rewrite IH; split.
    + intros [<-|(r & Hr & Hd)]; eauto.
    + intros (r & [<-|Hr] & Hd); [left; congruence|eauto].
    + intros (r & Hr & Hd); eauto.
    + intros (r & [<-|Hr] & Hd); [congruence|eauto].
Qed.

Lemma last_division_named pre post d :
  last_division pre = Some d -> In d (division_names (pre ++ post)).
Proof.
  intros H. apply last_division_spec in H as (a & raw & b & -> & Hd & _).
  apply division_names_In. exists raw. split; auto.
  rewrite !in_app_iff. simpl. auto.
Qed.

Lemma data_sections_nonempty lns st st' :
  (forall s items, In (s, items) (data_sections (self st)) -> items <> []) ->
  parse_lines st lns = Ok st' ->
  forall s items, In (s, items) (data_sections (self st')) -> items <> [].
Proof.
  intros H0 H.
  apply (parse_lines_invariant
           (fun x => forall s items, In (s, items) (data_sections (self x)) -> items <> [])
           (fun _ _ => True)) with (lns := lns) (st := st); auto.
  - intros x n raw x' _ Hx Hstep s items Hin.
    destruct (line_step_data _ _ _ _ Hstep) as [E|(s0 & it & _ & _ & _ & E)];
      rewrite E in Hin; [eauto|].
    unfold dd_append in Hin.
    destruct (dict_get s0 (data_sections (self x)));
      apply dict_set_In in Hin as [Hin|Hin]; eauto;
      inversion Hin; subst; [destruct l|]; discriminate.
  - apply Forall_trivial_lines.
Qed.

Lemma start_no_sections p s items :
  In (s, items) (data_sections (self (start (init p)))) -> items <> [].
Proof. intros []. Qed.

End Emptiness.

(** X7. A readable file of 7-bit text with no PROCEDURE division header
    yields no
    paragraph and no edge, and one with no DATA division header yields no
    data section. *)
Theorem X7_nothing_outside_the_divisions fs p text :
  read_text fs p = Ok text ->
  isascii text = true ->
  exists o',
    parse fs (init p) = Ok o' /\
    (~ In (L "PROCEDURE") (division_names (splitlines text)) ->
     paragraphs o' = [] /\ calls o' = []) /\
    (~ In (L "DATA") (division_names (splitlines text)) -> data_sections o' = []).
Proof.
  intros Hr _. destruct (parse_procedure_history fs p text Hr) as (st & Hp & _ & Hh).
  exists (self st). split; auto. split.
  - intros Hno. split.
    + destruct (paragraphs (self st)) as [|[name pg] ps] eqn:E; auto.
      exfalso. destruct (ph_keys _ _ Hh name pg) as (pre & raw & post & Hs & Hd & _).
      { rewrite E. now left. }
      apply Hno. rewrite Hs. now apply last_division_named.
    + destruct (calls (self st)) as [|e es] eqn:E; auto.
      exfalso. destruct (ph_edges _ _ Hh e) as (name & s & _ & _ & Hin & _).
      { rewrite E. now left. }
      destruct Hin as (pre & raw & post & Hs & _ & Hd & _).
      apply Hno. rewrite Hs. now apply last_division_named.
  - intros Hno.
    destruct (data_items_provenance fs p text Hr) as (o2 & Hp2 & Hprov).
    rewrite Hp in Hp2. inversion Hp2; subst o2.
    destruct (data_sections (self st)) as [|[s items] ds] eqn:E; auto.
    exfalso.
    assert (Hne : items <> []).
    { unfold parse in Hp. cbn [path init] in Hp. rewrite Hr in Hp. cbn [bind] in Hp.
      apply parse_text_inv in Hp as (st2 & Hl & Est).
      apply (data_sections_nonempty _ _ _ (start_no_sections p) Hl s).
      rewrite <- Est, E. now left. }
    destruct items as [|item items]; [congruence|].
    destruct (Hprov s (item :: items) item) as (pre & raw & post & Hs & Hd & _).
    { now left. }
    { now left. }
    apply Hno. rewrite Hs. now apply last_division_named.
Qed.

Section Keys.

Lemma dict_set_keys {V} k (v : V) d :
  dict_keys (dict_set k v d) = if str_in k (dict_keys d) then dict_keys d else dict_keys d ++ [k].
Proof.
  induction d as [|[k' v'] d IH]; simpl; auto.
  unfold str_in in *. cbn [existsb].
  destruct (str_eqb k' k) eqn:E.
  - apply str_eqb_eq in E. subst. rewrite str_eqb_refl. reflexivity.
  - assert (E' : str_eqb k k' = false).
    { apply str_eqb_neq. apply str_eqb_neq in E. congruence. }
    rewrite E'. cbn [orb]. simpl. rewrite IH.
    destruct (existsb (str_eqb k) (dict_keys d)); reflexivity.
Qed.

Lemma dict_set_NoDup {V} k (v : V) d :
  NoDup (dict_keys d) -> NoDup (dict_keys (dict_set k v d)).
Proof.
  intros H. rewrite dict_set_keys. destruct (str_in k (dict_keys d)) eqn:E; auto.
  apply str_in_not_In in E. apply NoDup_app; auto.
  - repeat constructor. simpl. tauto.
  - intros x Hx [<-|[]]. tauto.
Qed.

Lemma keys_NoDup lns st st' :
  NoDup (dict_keys (paragraphs (self st))) /\ NoDup (dict_keys (data_sections (self st))) ->
  parse_lines st lns = Ok st' ->
  NoDup (dict_keys (paragraphs (self st'))) /\ NoDup (dict_keys (data_sections (self st'))).
Proof.
  intros H0 H.
  apply (parse_lines_invariant
           (fun x => NoDup (dict_keys (paragraphs (self x))) /\
                     NoDup (dict_keys (data_sections (self x))))
           (fun _ _ => True)) with (lns := lns) (st := st); auto.
  - intros x n raw x' _ [Hp Hd] Hstep. split.
    + destruct (line_step_procedure _ _ _ _ Hstep)
        as [[E _]|[(q & _ & E & _)|(q & pg & new & _ & _ & _ & E & _)]];
        rewrite E; auto using dict_set_NoDup.
    + destruct (line_step_data _ _ _ _ Hstep) as [E|(s0 & it & _ & _ & _ & E)];
        rewrite E; auto.
      unfold dd_append. destruct (dict_get s0 (data_sections (self x)));
        auto using dict_set_NoDup.
  - apply Forall_trivial_lines.
Qed.

End Keys.

(** X8. In the structure record of a readable file no paragraph name and
    no section name is a key twice, and every section on record holds at
    least one data item. *)
Theorem X8_record_keys_are_distinct fs p text :
  read_text fs p = Ok text ->
  exists o',
    parse fs (init p) = Ok o' /\
    NoDup (dict_keys (paragraphs o')) /\
    NoDup (dict_keys (data_sections o')) /\
    (forall s items, In (s, items) (data_sections o') -> items <> []).
Proof.
  intros Hr. unfold parse. cbn [path init]. rewrite Hr. cbn [bind].
  destruct (parse_text_total (init p) text) as [o' Ho'].
  exists o'. split; auto.
  apply parse_text_inv in Ho' as (st & Hl & ->).
  destruct (keys_NoDup (numbered_lines text) (start (init p)) st
                       (conj (NoDup_nil _) (NoDup_nil _)) Hl) as [Hp Hd].
  repeat split; auto.
  apply (data_sections_nonempty _ _ _ (start_no_sections p) Hl).
Qed.

(** ** The index, file by file *)

Section Index.
Import Re.

Lemma lower_lower c : lower (lower c) = lower c.
Proof.
  pose proof (every_ascii (fun c => Ascii.eqb (lower (lower c)) (lower c)) eq_refl c) as E.
  now apply Ascii.eqb_eq in E.
Qed.

Lemma str_lower_lower s : str_lower (str_lower s) = str_lower s.
Proof.
  unfold str_lower. rewrite map_map. apply map_ext. intros; apply lower_lower.
Qed.

(** What the sniffer returns is a non-empty name of word characters and
    hyphens. *)
Lemma sniff_name fs f pid :
  sniff_program_id fs f = Some pid ->
  pid <> [] /\ Forall (fun c => atom_match I wh_ c = true) pid.
Proof.
  unfold sniff_program_id. destruct (read_text fs f) as [text|]; [|discriminate].
  destruct (search _PROGID_RE text) as [mo|] eqn:E; [|discriminate].
  intros H; inversion H; subst.
  apply search_from_some in E as (a & b & _ & Hm & _).
  apply progid_full in Hm
    as (w0 & kw & d & ws & nm & d2 & tl & _ & _ & _ & _ & _ & _ & _ & Hnm & Hne & _ & ->).
  auto.
Qed.

Lemma declares_dec fs k f : {declares fs k f} + {~ declares fs k f}.
Proof.
  unfold declares. destruct (sniff_program_id fs f) as [pid|].
  - destruct (list_eq_dec ascii_dec (str_lower pid) k) as [E|E].
    + left. eauto.
    + right. intros (pid' & H & E'). inversion H; subst. contradiction.
  - right. intros (pid' & H & _). discriminate.
Qed.

Lemma index_files_app fs a b : forall acc,
  index_files fs (a ++ b) acc = index_files fs b (index_files fs a acc).
Proof. induction a as [|f a IH]; intros acc; cbn [index_files app]; auto. Qed.

(** One file of the scan *)
Lemma index_one fs f acc k :
  dict_get k (index_files fs [f] acc) =
  if declares_dec fs k f then Some f else dict_get k acc.
Proof.
  cbn [index_files]. destruct (declares_dec fs k f) as [(pid & Hs & Hk)|Hn].
  - rewrite Hs. destruct (sniff_name _ _ _ Hs) as [Hne _].
    destruct pid as [|c pid]; [congruence|]. rewrite Hk. apply dict_get_set_same.
  - destruct (sniff_program_id fs f) as [[|c pid]|] eqn:Es; auto.
    apply dict_get_set_other. intros E. apply Hn. exists (c :: pid). auto.
Qed.

Lemma index_files_untouched fs b k : forall acc,
  (forall g, In g b -> ~ declares fs k g) ->
  dict_get k (index_files fs b acc) = dict_get k acc.
Proof.
  induction b as [|g b IH]; intros acc H; auto.
  change (g :: b) with ([g] ++ b). rewrite index_files_app, IH.
  - rewrite index_one. destruct (declares_dec fs k g) as [Hd|_]; auto.
    exfalso. apply (H g); simpl; auto.
  - intros h Hh. apply H. now right.
Qed.

Lemma index_files_last_wins fs files k f acc :
  last_declaring fs files k f -> dict_get k (index_files fs files acc) = Some f.
Proof.
  intros (a & b & -> & Hd & Hb).
  rewrite index_files_app. change (f :: b) with ([f] ++ b).
  rewrite index_files_app, index_files_untouched by assumption.
  rewrite index_one. destruct (declares_dec fs k f); tauto.
Qed.

Lemma index_files_found fs files k f :
  dict_get k (index_files fs files []) = Some f -> last_declaring fs files k f.
Proof.
  revert f. induction files as [|g files IH] using rev_ind; intros f H.
  - discriminate.
  - rewrite index_files_app, index_one in H.
    destruct (declares_dec fs k g) as [Hd|Hn].
    + inversion H; subst. exists files, []. repeat split; auto.
    + destruct (IH f H) as (a & b & -> & Hd & Hb).
      exists a, (b ++ [g]). rewrite <- app_assoc. repeat split; auto.
      intros h Hh. apply in_app_iff in Hh as [Hh|[<-|[]]]; auto.
Qed.

Lemma index_files_none fs files k :
  dict_get k (index_files fs files []) = None <->
  forall f, In f files -> ~ declares fs k f.
Proof.
  split.
  - intros H f Hin Hd.
    destruct (index_files_complete fs files [] k) as [g Hg]; [|congruence].
    right. destruct Hd as (pid & Hs & Hk). exists f, pid.
    destruct (sniff_name _ _ _ Hs) as [Hne _]. auto.
  - intros H. rewrite index_files_untouched; auto.
Qed.

Lemma index_files_keys fs files : forall acc,
  NoDup (dict_keys acc) ->
  (forall k, In k (dict_keys acc) -> k <> [] /\ str_lower k = k) ->
  NoDup (dict_keys (index_files fs files acc)) /\
  (forall k, In k (dict_keys (index_files fs files acc)) -> k <> [] /\ str_lower k = k).
Proof.
  induction files as [|f files IH]; intros acc Hn Hk; cbn [index_files]; auto.
  destruct (sniff_program_id fs f) as [[|c pid]|]; auto.
  apply IH.
  - now apply dict_set_NoDup.
  - intros k Hin. rewrite dict_set_keys in Hin.
    destruct (str_in (str_lower (c :: pid)) (dict_keys acc)); auto.
    apply in_app_iff in Hin as [Hin|[<-|[]]]; auto.
    split; [discriminate|apply str_lower_lower].
Qed.

End Index.

(** X9. Over files of 7-bit text, the index has no key twice, and its keys are non-empty and in
    lower case; a key maps to the last listed file whose sniffed identifier
    case-folds to it, and only to such a file; and a text is no key exactly
    when no listed file has a sniffed identifier that case-folds to it. *)
Theorem X9_index_last_declaration_wins fs root :
  ascii_files fs (rglob_cbl fs root) ->
  NoDup (dict_keys (build_index fs root)) /\
  (forall k, In k (dict_keys (build_index fs root)) -> k <> [] /\ str_lower k = k) /\
  (forall k f, dict_get k (build_index fs root) = Some f <->
               last_declaring fs (rglob_cbl fs root) k f) /\
  (forall k, dict_get k (build_index fs root) = None <->
             forall f, In f (rglob_cbl fs root) -> ~ declares fs k f).
Proof.
  intros _. unfold build_index.
  destruct (index_files_keys fs (rglob_cbl fs root) [] (NoDup_nil _)) as [Hn Hk].
  { intros k []. }
  repeat split; auto; try (now apply Hk).
  - apply index_files_found.
  - apply index_files_last_wins.
  - apply index_files_none.
  - apply index_files_none.
Qed.

Section Integrity.

Lemma parse_all_entries fs files : forall acc s,
  parse_all fs files acc = Ok s ->
  (forall f o, In (f, o) acc -> parse fs (init f) = Ok o) ->
  forall f o, In (f, o) s -> parse fs (init f) = Ok o.
Proof.
  induction files as [|g files IH]; intros acc s H Hacc; cbn [parse_all] in H.
  - inversion H; subst. exact Hacc.
  - destruct (parse fs (init g)) as [og|] eqn:E; [|discriminate]. cbn [bind] in H.
    apply (IH _ _ H). intros f o Hin.
    apply dict_set_In in Hin as [Hin|Hin]; [inversion Hin; subst; auto|auto].
Qed.

Lemma parse_ok_read fs p o :
  parse fs (init p) = Ok o -> exists text, read_text fs p = Ok text.
Proof.
  unfold parse. cbn [path init]. destruct (read_text fs p); [eauto|discriminate].
Qed.

Lemma resolved_edge_origin program_index structures r :
  In r (resolve_all program_index structures) ->
  exists f o e, In (f, o) structures /\ In e (calls o) /\ r = resolve_edge program_index e.
Proof.
  unfold resolve_all, dict_values. rewrite in_flat_map.
  intros (o & Ho & Hr). apply in_map_iff in Ho as ([f o'] & <- & Hin).
  apply in_map_iff in Hr as (e & <- & He). exists f, o', e. auto.
Qed.

Lemma parse_repo_inv fs root structures edges :
  parse_repo fs root = Ok (structures, edges) ->
  parse_all fs (rglob_cbl fs root) [] = Ok structures /\
  edges = resolve_all (build_index fs root) structures.
Proof.
  unfold parse_repo.
  destruct (parse_all fs (rglob_cbl fs root) []) as [s|]; [|discriminate].
  cbn [bind]. intros H; inversion H; subst. auto.
Qed.

Lemma resolve_edge_to_file idx e :
  to_file (resolve_edge idx e) = Some (dict_get (str_lower (to_program e)) idx).
Proof.
  unfold resolve_edge, dict_mem. cbn.
  destruct (dict_get (str_lower (to_program e)) idx); reflexivity.
Qed.

End Integrity.

(** X10. In the call graph of a run over files of 7-bit text that returns,
    an edge is left without a
    resolved path exactly when no listed file has a sniffed identifier
    equal to its target up to case, and an edge resolved to a file is
    resolved to the last listed file that has one. *)
Theorem X10_edge_resolution_is_case_blind_last_wins fs root structures edges :
  ascii_files fs (rglob_cbl fs root) ->
  parse_repo fs root = Ok (structures, edges) ->
  forall r, In r edges ->
    (to_file r = Some None <->
     forall f, In f (rglob_cbl fs root) -> ~ declares fs (str_lower (to_program r)) f) /\
    (forall g, to_file r = Some (Some g) <->
               last_declaring fs (rglob_cbl fs root) (str_lower (to_program r)) g) /\
    (to_file r = Some None \/ exists g, to_file r = Some (Some g)).
Proof.
  intros _ H r Hr. apply parse_repo_inv in H as [_ ->].
  apply resolved_edge_origin in Hr as (f & o & e & _ & _ & ->).
  rewrite resolve_edge_to_file. cbn [resolve_edge to_program].
  unfold build_index.
  set (k := str_lower (to_program e)).
  set (idx := index_files fs (rglob_cbl fs root) []).
  split; [|split].
  - rewrite <- (index_files_none fs (rglob_cbl fs root) k). fold idx.
    split; [intros E; inversion E; auto|intros ->; reflexivity].
  - intros g. split.
    + intros E. inversion E as [E']. now apply index_files_found.
    + intros Hl. f_equal. now apply index_files_last_wins.
  - destruct (dict_get k idx); eauto.
Qed.

(** X11. In the call graph of a run that returns, every edge starts in a
    listed file whose structure record is among the results and has the
    origin paragraph of the edge among its paragraphs, and an edge resolved
    to a file is resolved to a listed file. *)
Theorem X11_call_graph_refers_to_records fs root structures edges :
  parse_repo fs root = Ok (structures, edges) ->
  forall r, In r edges ->
    In (from_file r) (rglob_cbl fs root) /\
    (exists o pg, In (from_file r, o) structures /\
                  parse fs (init (from_file r)) = Ok o /\
                  dict_get (from_paragraph r) (paragraphs o) = Some pg) /\
    (forall g, to_file r = Some (Some g) -> In g (rglob_cbl fs root)).
Proof.
  intros H r Hr. apply parse_repo_inv in H as [Hall ->].
  apply resolved_edge_origin in Hr as (f & o & e & Hin & He & ->).
  assert (Hp : parse fs (init f) = Ok o).
  { apply (parse_all_entries _ _ _ _ Hall); [intros ? ? []|exact Hin]. }
  destruct (parse_ok_read _ _ _ Hp) as [text Ht].
  destruct (parse_procedure_history fs f text Ht) as (st & Hp' & Hpath & Hh).
  rewrite Hp in Hp'. inversion Hp'; subst o.
  destruct (ph_edges _ _ Hh e He) as (name & s & -> & _ & _ & pg & Hpg).
  cbn [resolve_edge from_file from_paragraph edge_of]. rewrite Hpath.
  assert (Hf : In f (rglob_cbl fs root)).
  { pose proof (parse_all_ok_readable _ _ _ _ Hall) as _.
    clear - Hall Hin. revert Hin.
    assert (G : forall files acc s, parse_all fs files acc = Ok s ->
                  forall f o, In (f, o) s -> In (f, o) acc \/ In f files).
    { induction files as [|g files IH]; intros acc s H f0 o0 Hin0; cbn [parse_all] in H.
      - inversion H; subst. auto.
      - destruct (parse fs (init g)) as [og|]; [|discriminate]. cbn [bind] in H.
        destruct (IH _ _ H _ _ Hin0) as [Hx|Hx]; [|right; now right].
        apply dict_set_In in Hx as [Hx|Hx]; [inversion Hx; subst; right; now left|auto]. }
    intros Hin. destruct (G _ _ _ Hall _ _ Hin) as [[]|Hx]; exact Hx. }
  split; [exact Hf|]. split.
  - exists (self st), pg. auto.
  - rewrite resolve_edge_to_file. intros g E. inversion E as [E'].
    apply build_index_sound in E'. tauto.
Qed.

(** ** The further theorems at the sample inputs *)

(** X5 at a sample input *)
Lemma X5_witness :
  read_text repo main_path = Ok main_cbl /\
  isascii main_cbl = true /\
  exists o',
    parse repo (init main_path) = Ok o' /\
    forall name pg s,
      In (name, pg) (paragraphs o') -> In s (statements pg) ->
      exists pre raw post,
        splitlines main_cbl = pre ++ raw :: post /\
        line s = 1 + List.length pre /\
        last_division pre = Some (L "PROCEDURE") /\
        open_paragraph pre = Some name /\
        In s (detected (line s) (stripped raw)).
Proof.
  split; [reflexivity|]. split; [reflexivity|].
  exact (X5_statements_come_from_their_lines repo main_path main_cbl eq_refl eq_refl).
Defined.

(** X6 at a sample input *)
Lemma X6_witness :
  read_text repo main_path = Ok main_cbl /\
  isascii main_cbl = true /\
  exists o',
    parse repo (init main_path) = Ok o' /\
    (forall e, In e (calls o') ->
       from_file e = main_path /\ to_file e = None /\
       (exists pg, dict_get (from_paragraph e) (paragraphs o') = Some pg) /\
       1 <= edge_line e <= List.length (splitlines main_cbl) /\
       exists pre raw post mo,
         splitlines main_cbl = pre ++ raw :: post /\
         edge_line e = 1 + List.length pre /\
         last_division pre = Some (L "PROCEDURE") /\
         open_paragraph pre = Some (from_paragraph e) /\
         Re.search _CALL_RE (stripped raw) = Some mo /\
         to_program e = Re.group mo 1) /\
    ascending (map edge_line (calls o')).
Proof.
  split; [reflexivity|]. split; [reflexivity|].
  exact (X6_edges_point_into_the_file repo main_path main_cbl eq_refl eq_refl).
Defined.

(** X7 at a sample input *)
Lemma X7_witness :
  read_text repo sub1_path = Ok sub1_cbl /\
  isascii sub1_cbl = true /\
  exists o',
    parse repo (init sub1_path) = Ok o' /\
    (~ In (L "PROCEDURE") (division_names (splitlines sub1_cbl)) ->
     paragraphs o' = [] /\ calls o' = []) /\
    (~ In (L "DATA") (division_names (splitlines sub1_cbl)) -> data_sections o' = []).
Proof.
  split; [reflexivity|]. split; [reflexivity|].
  exact (X7_nothing_outside_the_divisions repo sub1_path sub1_cbl eq_refl eq_refl).
Defined.

(** X8 at a sample input *)
Lemma X8_witness :
  read_text repo main_path = Ok main_cbl /\
  exists o',
    parse repo (init main_path) = Ok o' /\
    NoDup (dict_keys (paragraphs o')) /\
    NoDup (dict_keys (data_sections o')) /\
    (forall s items, In (s, items) (data_sections o') -> items <> []).
Proof.
  split; [reflexivity|].
  exact (X8_record_keys_are_distinct repo main_path main_cbl eq_refl).
Defined.

(** X2 at a sample input *)
Lemma X2_witness :
  rglob_cbl locked_repo (L "/repo") = [main_path] ++ locked_path :: [] /\
  all_readable locked_repo [main_path] /\
  read_text locked_repo locked_path = Raise OSError /\
  parse_all locked_repo (rglob_cbl locked_repo (L "/repo")) [] = Raise OSError.
Proof.
  assert (Hl : rglob_cbl locked_repo (L "/repo") = [main_path] ++ locked_path :: [])
    by reflexivity.
  assert (Ha : all_readable locked_repo [main_path]).
  { intros f [<-|[]]. exists main_cbl. reflexivity. }
  assert (He : read_text locked_repo locked_path = Raise OSError) by reflexivity.
  split; [exact Hl|]. split; [exact Ha|]. split; [exact He|].
  exact (proj2 (X2_pass_one_stops_at_first_unreadable
                  locked_repo (rglob_cbl locked_repo (L "/repo")) [])
               [main_path] locked_path [] OSError Hl Ha He).
Defined.

(** X9 at a sample input *)
Lemma X9_witness :
  ascii_files twins_repo (rglob_cbl twins_repo (L "/repo")) /\
  NoDup (dict_keys (build_index twins_repo (L "/repo"))) /\
  (forall k, In k (dict_keys (build_index twins_repo (L "/repo"))) ->
             k <> [] /\ str_lower k = k) /\
  (forall k f, dict_get k (build_index twins_repo (L "/repo")) = Some f <->
               last_declaring twins_repo (rglob_cbl twins_repo (L "/repo")) k f) /\
  (forall k, dict_get k (build_index twins_repo (L "/repo")) = None <->
             forall f, In f (rglob_cbl twins_repo (L "/repo")) -> ~ declares twins_repo k f).
Proof.
  assert (Ha : ascii_files twins_repo (rglob_cbl twins_repo (L "/repo"))).
  { intros f text [<-|[<-|[<-|[]]]] H; inversion H; reflexivity. }
  split; [exact Ha|].
  exact (X9_index_last_declaration_wins twins_repo (L "/repo") Ha).
Defined.

(** X10 at a sample input *)
Lemma X10_witness :
  ascii_files twins_repo (rglob_cbl twins_repo (L "/repo")) /\
  parse_repo twins_repo (L "/repo") = Ok (fst twins_run, snd twins_run) /\
  forall r, In r (snd twins_run) ->
    (to_file r = Some None <->
     forall f, In f (rglob_cbl twins_repo (L "/repo")) ->
               ~ declares twins_repo (str_lower (to_program r)) f) /\
    (forall g, to_file r = Some (Some g) <->
               last_declaring twins_repo (rglob_cbl twins_repo (L "/repo"))
                              (str_lower (to_program r)) g) /\
    (to_file r = Some None \/ exists g, to_file r = Some (Some g)).
Proof.
  assert (Ha : ascii_files twins_repo (rglob_cbl twins_repo (L "/repo"))).
  { intros f text [<-|[<-|[<-|[]]]] H; inversion H; reflexivity. }
  assert (H : parse_repo twins_repo (L "/repo") = Ok (fst twins_run, snd twins_run))
    by (vm_compute; reflexivity).
  split; [exact Ha|]. split; [exact H|].
  exact (X10_edge_resolution_is_case_blind_last_wins
           twins_repo (L "/repo") (fst twins_run) (snd twins_run) Ha H).
Defined.

(** X11 at a sample input *)
Lemma X11_witness :
  parse_repo twins_repo (L "/repo") = Ok (fst twins_run, snd twins_run) /\
  forall r, In r (snd twins_run) ->
    In (from_file r) (rglob_cbl twins_repo (L "/repo")) /\
    (exists o pg, In (from_file r, o) (fst twins_run) /\
                  parse twins_repo (init (from_file r)) = Ok o /\
                  dict_get (from_paragraph r) (paragraphs o) = Some pg) /\
    (forall g, to_file r = Some (Some g) -> In g (rglob_cbl twins_repo (L "/repo"))).
Proof.
  assert (H : parse_repo twins_repo (L "/repo") = Ok (fst twins_run, snd twins_run))
    by (vm_compute; reflexivity).
  split; [exact H|].
  exact (X11_call_graph_refers_to_records
           twins_repo (L "/repo") (fst twins_run) (snd twins_run) H).
Defined.

(** ** The repository of the twins, run *)

Example twins_resolved :
  build_index twins_repo (L "/repo") = [(L "sub1", twin_b); (L "main", main_path)] /\
  map (fun e => (to_program e, to_file e)) (snd twins_run) =
    [(L "SUB1", Some (Some twin_b)); (L "sub2", Some None)].
Proof. split; vm_compute; reflexivity. Qed.

Example no_division_no_record :
  let o := parsed_or_init
             (one_file main_path
                (unlines ["       PROGRAM-ID. LOOSE."; "       START-UP.";
                          "           CALL SUB1"; "       01 WS-A PIC X."]%string))
             main_path in
  program_id o = L "LOOSE" /\ divisions o = [] /\ data_sections o = [] /\
  paragraphs o = [] /\ calls o = [].
Proof. vm_compute. repeat split. Qed.
